(** * ugit: a shallow embedding of the storage core

    The development follows the three modules of the repository:
    [data.py] (object store, ref store, index file), [base.py] (tree codec,
    commit model, graph traversal, merge) and [remote.py] (fetch and push).

    Modelling conventions.
    - A Python [str] is a Rocq [string], one [ascii] per character; text is
      restricted to the characters below U+0100.  [bytes.decode] and
      [str.encode] are mutually inverse on well-formed text and are modelled
      as the identity.
    - A repository directory ([GIT_DIR]) is a record of its three parts: the
      files under [objects/], the ref files (keyed by their path relative to
      [GIT_DIR]) and the [index] file.
    - A Python exception is a value of [exn]; effectful functions are state
      transformers that return the repository as the exception left it.
    - Generators are step functions over an explicit suspended state, so that
      what a caller does between two [next] calls is visible. *)

From Stdlib Require Import Ascii String List Bool Arith Lia.
From Stdlib Require Import Sorting.Sorted Sorting.Permutation Sorting.Mergesort Orders.
From stdpp Require Import base option list strings gmap.

Set Default Proof Using "Type".
Set Warnings "-register-all".

(** ** Python strings *)

Module Str.

Definition NUL : ascii := "000"%char.
Definition TAB : ascii := "009"%char.
Definition LF : ascii := "010"%char.
Definition VT : ascii := "011"%char.
Definition FF : ascii := "012"%char.
Definition CR : ascii := "013"%char.
Definition FS : ascii := "028"%char.
Definition GS : ascii := "029"%char.
Definition RS : ascii := "030"%char.
Definition US : ascii := "031"%char.
Definition SP : ascii := " "%char.
Definition NEL : ascii := "133"%char.
Definition NBSP : ascii := "160"%char.

Definition nl : string := String LF "".

(** Membership of a character in a fixed set. *)
Definition one_of (cs : list ascii) (a : ascii) : bool :=
  existsb (Ascii.eqb a) cs.

(** The line boundaries of [str.splitlines]. *)
Definition is_linebreak : ascii → bool := one_of [LF; CR; VT; FF; FS; GS; RS; NEL].

(** The characters removed by [str.strip()]. *)
Definition is_space : ascii → bool :=
  one_of [TAB; LF; VT; FF; CR; FS; GS; RS; US; SP; NEL; NBSP].

(** [bool(s)]: a string is true when it is not empty. *)
Definition truth (s : string) : bool :=
  match s with "" => false | _ => true end.

(** [c in s] for a one-character [c]. *)
Fixpoint contains (c : ascii) (s : string) : bool :=
  match s with
  | "" => false
  | String a s' => Ascii.eqb a c || contains c s'
  end.

Definition forallb (p : ascii → bool) : string → bool :=
  fix go s := match s with "" => true | String a s' => p a && go s' end.

(** [list(s)]: the one-character strings of [s]. *)
Fixpoint chars (s : string) : list string :=
  match s with
  | "" => []
  | String a s' => String a "" :: chars s'
  end.

(** [s.split(sep)] for a one-character separator. *)
Fixpoint split (sep : ascii) (s : string) : list string :=
  match s with
  | "" => [""]
  | String a s' =>
      if Ascii.eqb a sep then "" :: split sep s'
      else match split sep s' with
           | w :: ws => String a w :: ws
           | [] => [String a ""]
           end
  end.

(** [s.split(sep, n)]: at most [n] splits, the rest is kept whole. *)
Fixpoint splitn (sep : ascii) (n : nat) (s : string) {struct n} : list string :=
  match n with
  | 0 => [s]
  | S n' =>
      (fix piece (s : string) : list string :=
         match s with
         | "" => [""]
         | String a s' =>
             if Ascii.eqb a sep then "" :: splitn sep n' s'
             else match piece s' with
                  | w :: ws => String a w :: ws
                  | [] => [String a ""]
                  end
         end) s
  end.

(** [s.splitlines()]: no empty last line, and CR LF is one boundary. *)
Fixpoint splitlines (s : string) : list string :=
  match s with
  | "" => []
  | String a s' =>
      if is_linebreak a then
        "" :: match s' with
              | String b s'' =>
                  if Ascii.eqb a CR && Ascii.eqb b LF then splitlines s''
                  else splitlines s'
              | "" => []
              end
      else match splitlines s' with
           | w :: ws => String a w :: ws
           | [] => [String a ""]
           end
  end.

(** [sep.join(l)]. *)
Definition join (sep : string) (l : list string) : string := String.concat sep l.

Fixpoint lstrip (s : string) : string :=
  match s with
  | "" => ""
  | String a s' => if is_space a then lstrip s' else s
  end.

Fixpoint rstrip (s : string) : string :=
  match s with
  | "" => ""
  | String a s' =>
      match rstrip s' with
      | "" => if is_space a then "" else String a ""
      | r => String a r
      end
  end.

Definition strip (s : string) : string := rstrip (lstrip s).

Definition startswith (p s : string) : bool := String.prefix p s.

(** [s.partition(sep)] for a one-character separator: the text before the
    first [sep] and the text after it (all of [s] and [""] without one). *)
Fixpoint partition (sep : ascii) (s : string) : string * string :=
  match s with
  | "" => ("", "")
  | String a s' =>
      if Ascii.eqb a sep then ("", s')
      else let '(l, r) := partition sep s' in (String a l, r)
  end.

(** Removes the first [n] characters. *)
Fixpoint drop (n : nat) (s : string) : string :=
  match n, s with
  | S n', String _ s' => drop n' s'
  | _, _ => s
  end.

End Str.

(** ** Exceptions and results *)

Inductive exn :=
| AssertionError
| FileNotFoundError
| TypeError
| ValueError
| AttributeError
| UnboundLocalError
| RecursionError
| Unfinished.   (* not an exception: the step bound ran out before the loop ended *)

Inductive result (A : Type) :=
| Ok (a : A)
| Raise (e : exn).
Arguments Ok {A} a.
Arguments Raise {A} e.

Definition rbind {A B} (r : result A) (k : A → result B) : result B :=
  match r with
  | Ok a => k a
  | Raise e => Raise e
  end.

Notation "'do?' x <- r ; k" := (rbind r (fun x => k))
  (at level 10, x pattern, r at level 100, k at level 200).

Definition is_ok {A} (r : result A) : bool :=
  match r with Ok _ => true | Raise _ => false end.

(** ** Python values that reach the traversal functions

    [iter_commits_and_parents] receives, depending on the call site, a set
    or a lazy filter of ids, a single [str], or a bound method; the candidate
    of [is_ancestor_of] is a [str] or a [dict]. *)

Definition pydict (V : Type) := list (string * V).

Inductive pyval :=
| PyStr (s : string)
| PySeq (l : list string)           (* a set, list, filter or dict view of strings *)
| PyDict (d : pydict string)
| PyMethod.                         (* a bound method such as [refs.values] *)

(** [iter(v)]: characters of a string, elements of a collection, keys of a
    dictionary; a method object is not iterable. *)
Definition py_iter (v : pyval) : result (list string) :=
  match v with
  | PyStr s => Ok (Str.chars s)
  | PySeq l => Ok l
  | PyDict d => Ok (map fst d)
  | PyMethod => Raise TypeError
  end.

(** [s == v] for a string [s]. *)
Definition py_eq_str (s : string) (v : pyval) : bool :=
  match v with
  | PyStr s' => String.eqb s s'
  | _ => false
  end.

(** ** Dictionaries, in insertion order *)

Module Dict.

Fixpoint get {V} (k : string) (d : pydict V) : option V :=
  match d with
  | [] => None
  | (k', v) :: d' => if String.eqb k k' then Some v else get k d'
  end.

(** [d[k] = v]: an existing key keeps its place, a new one goes last. *)
Fixpoint set {V} (k : string) (v : V) (d : pydict V) : pydict V :=
  match d with
  | [] => [(k, v)]
  | (k', v') :: d' => if String.eqb k k' then (k, v) :: d' else (k', v') :: set k v d'
  end.

(** [d.update(other)]. *)
Definition update {V} (d other : pydict V) : pydict V :=
  fold_left (fun acc kv => set kv.1 kv.2 acc) other d.

Definition keys {V} (d : pydict V) : list string := map fst d.
Definition values {V} (d : pydict V) : list V := map snd d.

End Dict.

(** ** data.py *)

(** [RefValue = namedtuple('RefValue', ['symbolic', 'value'])]; [value] is
    [None] for a ref without a file. *)
Record RefValue := mkRef { symbolic : bool; value : option string }.

(** The contents of one [GIT_DIR]: its files, by name.  [refs] holds the
    files that ref names address, [HEAD] and [MERGE_HEAD] among them, each
    under the text from which the code builds its path; directories are not
    recorded.  A name that is another spelling of a path, or the path of the
    index or of an object, has no entry of its own: [ref_path], [refs_wf]
    and [ref_free], further down, say for which names and states the map
    tells what the files are. *)
Record repo := mkRepo {
  objects : gmap string string;          (* objects/<oid>  ->  file contents *)
  refs : gmap string string;             (* <ref path>     ->  file contents *)
  index_file : option (pydict string)    (* index, a JSON object, if the file exists *)
}.

Definition empty_repo : repo := mkRepo ∅ ∅ None.

Definition set_objects (f : gmap string string → gmap string string) (r : repo) : repo :=
  mkRepo (f (objects r)) (refs r) (index_file r).
Definition set_refs (f : gmap string string → gmap string string) (r : repo) : repo :=
  mkRepo (objects r) (f (refs r)) (index_file r).
Definition set_index_file (i : option (pydict string)) (r : repo) : repo :=
  mkRepo (objects r) (refs r) i.

(** Effectful functions: the repository is threaded through, and is returned
    also when an exception is raised. *)
Definition M (A : Type) := repo → result A * repo.

Definition ret {A} (a : A) : M A := fun s => (Ok a, s).
Definition raise {A} (e : exn) : M A := fun s => (Raise e, s).
Definition bind {A B} (m : M A) (k : A → M B) : M B :=
  fun s => match m s with
           | (Ok a, s') => k a s'
           | (Raise e, s') => (Raise e, s')
           end.
(** A function that only reads the repository. *)
Definition reading {A} (f : repo → result A) : M A := fun s => (f s, s).
Definition modify (f : repo → repo) : M unit := fun s => (Ok tt, f s).

Notation "'do!' x <- m ; k" := (bind m (fun x => k))
  (at level 10, x pattern, m at level 100, k at level 200).

(** [truthy v]: [bool(v)] for a value that is [None] or a string. *)
Definition truthy (v : option string) : bool :=
  match v with Some s => Str.truth s | None => false end.

(** CPython's default bound on the depth of recursive calls. *)
Definition recursion_limit : nat := 1000.

(** [_get_ref_internal(ref, deref)].  The recursion follows symbolic refs;
    [depth] is the number of nested calls still allowed.  The file read is
    the entry of [refs] under the name. *)
Fixpoint _get_ref_internal (depth : nat) (s : repo) (ref : string) (deref : bool)
  : result (string * RefValue) :=
  match depth with
  | 0 => Raise RecursionError
  | S depth' =>
      let value := Str.strip <$> refs s !! ref in
      let symbolic := truthy value && Str.startswith "ref:" (default "" value) in
      if symbolic && deref then
        let inner_ref := Str.strip (nth 1 (Str.splitn ":" 1 (default "" value)) "") in
        _get_ref_internal depth' s inner_ref true
      else Ok (ref, mkRef symbolic value)
  end.

Definition get_ref_name (s : repo) (ref : string) (deref : bool) : result string :=
  do? r <- _get_ref_internal recursion_limit s ref deref; Ok r.1.

(** [get_ref(ref, deref=True)]. *)
Definition get_ref (s : repo) (ref : string) (deref : bool) : result RefValue :=
  do? r <- _get_ref_internal recursion_limit s ref deref; Ok r.2.

(** [update_ref(ref, value, deref=True)].  [os.makedirs] and [open] are
    taken to succeed, as they do where the file is free ([ref_free]). *)
Definition update_ref (ref : string) (v : RefValue) (deref : bool) : M unit :=
  do! ref <- reading (fun s => get_ref_name s ref deref);
  if negb (truthy (value v)) then raise AssertionError
  else
    let text := default "" (value v) in
    let content := if symbolic v then "ref: " +:+ text else text in
    modify (set_refs <[ref := content]>).

(** [delete_ref(ref, deref=True)]: [os.remove] fails on a missing file.
    The file removed is the entry of [refs] under the name. *)
Definition delete_ref (ref : string) (deref : bool) : M unit :=
  do! refname <- reading (fun s => get_ref_name s ref deref);
  fun s => match refs s !! refname with
           | Some _ => (Ok tt, set_refs (delete refname) s)
           | None => (Raise FileNotFoundError, s)
           end.

(** The names [iter_refs] looks at: the two singletons, then every file
    under [refs/]. *)
Definition ref_names (s : repo) : list string :=
  ["HEAD"; "MERGE_HEAD"]
  ++ List.filter (Str.startswith "refs/") (map fst (map_to_list (refs s))).

(** [iter_refs(prefix, deref)], collected. *)
Fixpoint iter_refs_from (s : repo) (prefix : string) (deref : bool) (names : list string)
  : result (pydict RefValue) :=
  match names with
  | [] => Ok []
  | refname :: rest =>
      if negb (Str.startswith prefix refname) then iter_refs_from s prefix deref rest
      else
        do? ref <- get_ref s refname deref;
        do? more <- iter_refs_from s prefix deref rest;
        Ok (if truthy (value ref) then (refname, ref) :: more else more)
  end.

Definition iter_refs (s : repo) (prefix : string) (deref : bool) : result (pydict RefValue) :=
  iter_refs_from s prefix deref (ref_names s).

(** [get_index()], a context manager without [try]/[finally]: the mapping is
    loaded, handed to the body of the [with] statement, and written back
    when the body ends normally.  An exception raised in the body is thrown
    into the generator at its [yield]; nothing there catches it, so the
    statements after the [yield] do not run.  The body returns the mapping
    as it left it, with its result or its exception. *)
Definition get_index {A} (body : pydict string → repo → result A * pydict string * repo)
  : M A :=
  fun s =>
    let index := default [] (index_file s) in
    match body index s with
    | (Ok a, index', s') => (Ok a, set_index_file (Some index') s')
    | (Raise e, _, s') => (Raise e, s')
    end.

(** [get_object(oid, expected)]. *)
Definition get_object (s : repo) (oid : string) (expected : option string) : result string :=
  match objects s !! oid with
  | None => Raise FileNotFoundError
  | Some obj =>
      let '(type_str, content) := Str.partition Str.NUL obj in
      match expected with
      | Some e => if String.eqb type_str e then Ok content else Raise AssertionError
      | None => Ok content
      end
  end.

(** [object_exists(oid)]: [os.path.exists] of [objects/<oid>]; for the empty
    id that path is the [objects] directory itself. *)
Definition object_exists (s : repo) (oid : string) : bool :=
  negb (Str.truth oid) || bool_decide (is_Some (objects s !! oid)).

(** [fetch_object_if_missing(oid, remote_git_dir)], run on the local
    repository. *)
Definition fetch_object_if_missing (oid : string) (remote : repo) : M unit :=
  fun s =>
    if object_exists s oid then (Ok tt, s)
    else match objects remote !! oid with
         | Some obj => (Ok tt, set_objects <[oid := obj]> s)
         | None => (Raise FileNotFoundError, s)
         end.

(** [push_object(oid, remote_git_dir)], run on the remote repository. *)
Definition push_object (oid : string) (local : repo) : M unit :=
  fun remote =>
    match objects local !! oid with
    | Some obj => (Ok tt, set_objects <[oid := obj]> remote)
    | None => (Raise FileNotFoundError, remote)
    end.

(** ** base.py: the tree codec *)

(** An element of [entries] in [write_tree_recursive]: [(name, oid, type_)]. *)
Definition entry : Type := string * string * string.

(** Python orders tuples lexicographically and strings by code point. *)
Module EntryOrder <: TotalLeBool.
Definition t := entry.
Definition leb (x y : entry) : bool :=
  let '(n1, o1, t1) := x in
  let '(n2, o2, t2) := y in
  match String.compare n1 n2 with
  | Lt => true
  | Gt => false
  | Eq => match String.compare o1 o2 with
          | Lt => true
          | Gt => false
          | Eq => String.leb t1 t2
          end
  end.
Lemma leb_total (x y : entry) : leb x y = true ∨ leb y x = true.
Proof.
  destruct x as [[n1 o1] t1], y as [[n2 o2] t2]; simpl.
  rewrite (String.compare_antisym n1 n2), (String.compare_antisym o1 o2).
  destruct (String.compare n2 n1); simpl; auto.
  destruct (String.compare o2 o1); simpl; auto.
  apply String.leb_total.
Qed.
End EntryOrder.

(** [sorted(entries)]. *)
Module EntrySort := Sort EntryOrder.
Definition sorted (entries : list entry) : list entry := EntrySort.sort entries.

(** [f'{type_} {oid} {name}\n']. *)
Definition entry_line (e : entry) : string :=
  let '(name, oid, type_) := e in
  type_ +:+ " " +:+ oid +:+ " " +:+ name +:+ Str.nl.

(** A value of the nested dictionary [index_as_tree]: the id of a blob, or
    the dictionary of a directory. *)
Inductive node :=
| Blob (oid : string)
| Dir (tree_dict : pydict node).

(** The body of the loop over [index.items()] for one item, after the path
    is split: walk [dirpath] with [setdefault], then assign the file.  The
    dictionaries met on the way are shared with [index_as_tree], so the
    assignment is an update in place, at the same position.  A blob id found
    where a directory is needed is a [str]: it has no [setdefault] and takes
    no item assignment. *)
Fixpoint tree_insert (dirpath : list string) (filename oid : string)
  (current : pydict node) : result (pydict node) :=
  match dirpath with
  | [] => Ok (Dict.set filename (Blob oid) current)
  | dirname :: rest =>
      match Dict.get dirname current with
      | None =>
          do? sub <- tree_insert rest filename oid [];
          Ok (Dict.set dirname (Dir sub) current)
      | Some (Dir sub) =>
          do? sub' <- tree_insert rest filename oid sub;
          Ok (Dict.set dirname (Dir sub') current)
      | Some (Blob _) =>
          Raise (match rest with [] => TypeError | _ => AttributeError end)
      end
  end.

(** The first loop of [write_tree]: [index_as_tree] for a given index. *)
Fixpoint index_as_tree_from (index : pydict string) (index_as_tree : pydict node)
  : result (pydict node) :=
  match index with
  | [] => Ok index_as_tree
  | (path, oid) :: rest =>
      let path := Str.split "/" path in
      do? t <- tree_insert (List.removelast path) (List.last path "") oid index_as_tree;
      index_as_tree_from rest t
  end.

(** One line of a tree object: [entry.split(' ', 2)] unpacked into three
    names. *)
Definition parse_entry (entry : string) : result (string * string * string) :=
  match Str.splitn " " 2 entry with
  | [type_; oid; name] => Ok (type_, oid, name)
  | _ => Raise ValueError
  end.

(** [_iter_tree_entries(oid)] up to its loop: the lines of the tree object,
    none for an empty id. *)
Definition tree_lines (s : repo) (oid : string) : result (list string) :=
  if negb (Str.truth oid) then Ok []
  else do? tree <- get_object s oid (Some "tree"); Ok (Str.splitlines tree).

(** The loop of [get_tree] over the entries, with [get_subtree] for the
    recursive call. *)
Fixpoint get_tree_entries (get_subtree : string → string → result (pydict string))
  (base_path : string) (lines : list string) (results : pydict string)
  : result (pydict string) :=
  match lines with
  | [] => Ok results
  | entry :: lines' =>
      do? (type_, oid2, name) <- parse_entry entry;
      if Str.contains "/" name then Raise AssertionError
      else if String.eqb name ".." || String.eqb name "." then Raise AssertionError
      else
        let path := base_path +:+ name in
        if String.eqb type_ "blob" then
          get_tree_entries get_subtree base_path lines' (Dict.set path oid2 results)
        else if String.eqb type_ "tree" then
          do? sub <- get_subtree oid2 (path +:+ "/");
          get_tree_entries get_subtree base_path lines' (Dict.update results sub)
        else Raise AssertionError
  end.

(** [get_tree(oid, base_path)]; [depth] bounds the nested calls. *)
Fixpoint get_tree (depth : nat) (s : repo) (oid base_path : string)
  : result (pydict string) :=
  match depth with
  | 0 => Raise RecursionError
  | S depth' =>
      do? lines <- tree_lines s oid;
      get_tree_entries (get_tree depth' s) base_path lines []
  end.

(** ** base.py: commits *)

(** [Commit = namedtuple('Commit', ['tree', 'parents', 'message'])]. *)
Record Commit := mkCommit { tree : string; parents : list string; message : string }.

(** The header loop of [get_commit]: [takewhile] stops at, and consumes, the
    first empty line; [tree] stays unbound until a [tree] line is read. *)
Fixpoint parse_header (lines : list string) (tree : option string) (parents : list string)
  : result (option string * list string * list string) :=
  match lines with
  | [] => Ok (tree, parents, [])
  | line :: rest =>
      if negb (Str.truth line) then Ok (tree, parents, rest)
      else match Str.splitn " " 1 line with
           | [key; val] =>
               if String.eqb key "tree" then parse_header rest (Some val) parents
               else if String.eqb key "parent" then parse_header rest tree (parents ++ [val])
               else Raise AssertionError
           | _ => Raise ValueError
           end
  end.

(** [get_commit(oid)]. *)
Definition get_commit (s : repo) (oid : string) : result Commit :=
  do? commit <- get_object s oid (Some "commit");
  do? (tree, parents, lines) <- parse_header (Str.splitlines commit) None [];
  let message := Str.join Str.nl lines in
  match tree with
  | Some tree => Ok (mkCommit tree parents message)
  | None => Raise UnboundLocalError
  end.

(** ** base.py: graph traversal *)

(** A suspended [iter_commits_and_parents]: not started, or stopped at its
    [yield oid] with the deque [oids] and the set [visited] as they are. *)
Inductive commits_gen :=
| CStart (oids : pyval)
| CYielded (oid : string) (oids : list string) (visited : list string).

(** The [while] loop from its test to the next [yield]. *)
Fixpoint commits_loop (oids visited : list string) : option (string * commits_gen) :=
  match oids with
  | [] => None
  | oid :: oids' =>
      if negb (Str.truth oid) || bool_decide (oid ∈ visited) then commits_loop oids' visited
      else Some (oid, CYielded oid oids' visited)
  end.

(** [next] of the generator: [None] when it is exhausted. *)
Definition commits_next (s : repo) (g : commits_gen)
  : result (option (string * commits_gen)) :=
  match g with
  | CStart oids =>
      do? oids <- py_iter oids;
      let visited := [] in
      Ok (commits_loop oids visited)
  | CYielded oid oids visited =>
      do? commit <- get_commit s oid;
      let oids := rev (firstn 1 (parents commit)) ++ oids in
      let oids := oids ++ skipn 1 (parents commit) in
      Ok (commits_loop oids visited)
  end.

(** A suspended [iter_objects_in_commits].  [pending] holds, innermost
    first, the entry lines not yet looked at in each active
    [iter_objects_in_tree]. *)
Inductive objects_gen :=
| OStart (oids : pyval)
| OCommit (oid : string) (commits : commits_gen) (visited : list string)
| OTree (oid : string) (pending : list (list string)) (commits : commits_gen)
    (visited : list string)
| OBlob (pending : list (list string)) (commits : commits_gen) (visited : list string).

Inductive tree_step :=
| TYield (oid : string) (is_tree : bool) (pending : list (list string))
    (visited : list string)
| TReturn (visited : list string).

(** The [for] loops of the active [iter_objects_in_tree] calls, up to the
    next [yield] or to the return of the outermost call. *)
Fixpoint tree_loop (pending : list (list string)) (visited : list string)
  : result tree_step :=
  match pending with
  | [] => Ok (TReturn visited)
  | frame :: outer =>
      (fix entries (frame : list string) : result tree_step :=
         match frame with
         | [] => tree_loop outer visited
         | entry :: frame' =>
             do? (type_, oid, _) <- parse_entry entry;
             if bool_decide (oid ∈ visited) then entries frame'
             else Ok (TYield oid (String.eqb type_ "tree") (frame' :: outer) (oid :: visited))
         end) frame
  end.

Definition next_commit (s : repo) (commits : commits_gen) (visited : list string)
  : result (option (string * objects_gen)) :=
  do? r <- commits_next s commits;
  match r with
  | None => Ok None
  | Some (oid, commits') => Ok (Some (oid, OCommit oid commits' visited))
  end.

Definition next_entry (s : repo) (pending : list (list string)) (commits : commits_gen)
  (visited : list string) : result (option (string * objects_gen)) :=
  do? step <- tree_loop pending visited;
  match step with
  | TYield oid true pending' visited' => Ok (Some (oid, OTree oid pending' commits visited'))
  | TYield oid false pending' visited' => Ok (Some (oid, OBlob pending' commits visited'))
  | TReturn visited' => next_commit s commits visited'
  end.

Definition objects_next (s : repo) (g : objects_gen)
  : result (option (string * objects_gen)) :=
  match g with
  | OStart oids =>
      let visited := [] in
      next_commit s (CStart oids) visited
  | OCommit oid commits visited =>
      do? commit <- get_commit s oid;
      if bool_decide (tree commit ∈ visited) then next_commit s commits visited
      else Ok (Some (tree commit, OTree (tree commit) [] commits (tree commit :: visited)))
  | OTree oid pending commits visited =>
      do? lines <- tree_lines s oid;
      next_entry s (lines :: pending) commits visited
  | OBlob pending commits visited => next_entry s pending commits visited
  end.

(** Consumers of a generator over an unchanging repository.  [fuel] bounds
    the number of [next] calls. *)
Section Generators.
Context {G : Type} (next : repo → G → result (option (string * G))).

(** [list(gen)]. *)
Fixpoint gen_list (fuel : nat) (s : repo) (g : G) : result (list string) :=
  match fuel with
  | 0 => Raise Unfinished
  | S fuel' =>
      do? r <- next s g;
      match r with
      | None => Ok []
      | Some (x, g') => do? l <- gen_list fuel' s g'; Ok (x :: l)
      end
  end.

(** The first value of [gen] that satisfies [p]; the generator is not
    advanced past it. *)
Fixpoint gen_find (fuel : nat) (p : string → bool) (s : repo) (g : G)
  : result (option string) :=
  match fuel with
  | 0 => Raise Unfinished
  | S fuel' =>
      do? r <- next s g;
      match r with
      | None => Ok None
      | Some (x, g') => if p x then Ok (Some x) else gen_find fuel' p s g'
      end
  end.

End Generators.

(** [get_merge_base(oid1, oid2)]; [None] when the loop ends without a
    [return]. *)
Definition get_merge_base (fuel : nat) (s : repo) (oid1 oid2 : string)
  : result (option string) :=
  do? parents1 <- gen_list commits_next fuel s (CStart (PySeq [oid1]));
  gen_find commits_next fuel (fun oid => bool_decide (oid ∈ parents1)) s
    (CStart (PySeq [oid2])).

(** [is_ancestor_of(commit, maybe_ancestor)]: [commit] goes to
    [iter_commits_and_parents] as it is. *)
Definition is_ancestor_of (fuel : nat) (s : repo) (commit maybe_ancestor : pyval)
  : result bool :=
  do? r <- gen_find commits_next fuel (fun oid => py_eq_str oid maybe_ancestor) s
             (CStart commit);
  Ok (bool_decide (is_Some r)).

(** [read_tree(tree_oid)], with [update_working] at its default [False], as
    at each of its call sites. *)
Definition read_tree (tree_oid : string) : M unit :=
  get_index (fun index s =>
    let index := [] in
    match get_tree recursion_limit s tree_oid "" with
    | Ok t => (Ok tt, Dict.update index t, s)
    | Raise e => (Raise e, index, s)
    end).

Section Ugit.

(** [hashlib.sha1(obj).hexdigest()]. *)
Variable sha1_hexdigest : string → string.

(** [hash_object(data, type_)]. *)
Definition hash_object (data : string) (type_ : string) : M string :=
  let obj := type_ +:+ String Str.NUL data in
  let oid := sha1_hexdigest obj in
  do! _ <- modify (set_objects <[oid := obj]>);
  ret oid.

(** The loop of [write_tree_recursive] over [tree_dict.items()], with
    [write_value] for what it does with one value. *)
Fixpoint write_tree_items (write_value : node → M (string * string)) (tree_dict : pydict node)
  : M (list entry) :=
  match tree_dict with
  | [] => ret []
  | (name, value) :: rest =>
      do! (oid, type_) <- write_value value;
      do! entries <- write_tree_items write_value rest;
      ret ((name, oid, type_) :: entries)
  end.

(** [write_tree_recursive(tree_dict)] is [write_tree_value (Dir tree_dict)];
    for a blob id the loop takes the id as it is.  The nesting of the calls
    is that of the directories and is not bounded here: the properties that
    read a tree back bound the nesting of the index by [recursion_limit]. *)
Fixpoint write_tree_value (value : node) : M (string * string) :=
  match value with
  | Blob oid => ret (oid, "blob")
  | Dir tree_dict =>
      do! entries <- write_tree_items write_tree_value tree_dict;
      let tree := String.concat "" (map entry_line (sorted entries)) in
      do! oid <- hash_object tree "tree";
      ret (oid, "tree")
  end.

Definition write_tree_recursive (tree_dict : pydict node) : M string :=
  do! (oid, _) <- write_tree_value (Dir tree_dict); ret oid.

(** [write_tree()]. *)
Definition write_tree : M string :=
  do! index_as_tree <-
    get_index (fun index s => (index_as_tree_from index [], index, s));
  write_tree_recursive index_as_tree.

(** [commit(message)]. *)
Definition commit (message : string) : M string :=
  do! tree <- write_tree;
  let commit := "tree " +:+ tree +:+ Str.nl in
  do! HEAD <- reading (fun s => do? r <- get_ref s "HEAD" true; Ok (value r));
  let commit :=
    if truthy HEAD then commit +:+ "parent " +:+ default "" HEAD +:+ Str.nl else commit in
  do! MERGE_HEAD <- reading (fun s => do? r <- get_ref s "MERGE_HEAD" true; Ok (value r));
  do! commit <-
    (if truthy MERGE_HEAD then
       let commit := commit +:+ "parent " +:+ default "" MERGE_HEAD +:+ Str.nl in
       do! _ <- delete_ref (default "" MERGE_HEAD) false;
       ret commit
     else ret commit);
  let commit := commit +:+ Str.nl in
  let commit := commit +:+ message +:+ Str.nl in
  do! oid <- hash_object commit "commit";
  do! _ <- update_ref "HEAD" (mkRef false (Some oid)) true;
  ret oid.

(** [diff.merge_trees(t_base, t_HEAD, t_other)], from [diff.py]. *)
Variable merge_trees : pydict string → pydict string → pydict string → M (pydict string).

(** [read_tree_merged(t_base, t_HEAD, t_other)], with [update_working] at
    its default [False], as at its call site. *)
Definition read_tree_merged (t_base t_HEAD t_other : string) : M unit :=
  get_index (fun index s =>
    let index := [] in
    match get_tree recursion_limit s t_base "" with
    | Raise e => (Raise e, index, s)
    | Ok d_base =>
    match get_tree recursion_limit s t_HEAD "" with
    | Raise e => (Raise e, index, s)
    | Ok d_HEAD =>
    match get_tree recursion_limit s t_other "" with
    | Raise e => (Raise e, index, s)
    | Ok d_other =>
    match merge_trees d_base d_HEAD d_other s with
    | (Raise e, s') => (Raise e, index, s')
    | (Ok merged, s') => (Ok tt, Dict.update index merged, s')
    end end end end).

(** [merge(other)].  A merge base of [None] is formatted into the object
    path as the text [None]. *)
Definition merge (fuel : nat) (other : string) : M unit :=
  do! HEAD <- reading (fun s => do? r <- get_ref s "HEAD" true; Ok (value r));
  if negb (truthy HEAD) then raise AssertionError
  else
    let HEAD := default "" HEAD in
    do! merge_base <- reading (fun s => get_merge_base fuel s other HEAD);
    do! c_other <- reading (fun s => get_commit s other);
    if bool_decide (merge_base = Some HEAD) then
      do! _ <- read_tree (tree c_other);
      update_ref "HEAD" (mkRef false (Some other)) true
    else
      do! _ <- update_ref "MERGE_HEAD" (mkRef false (Some other)) true;
      do! c_HEAD <- reading (fun s => get_commit s HEAD);
      do! c_base <- reading (fun s => get_commit s (default "None" merge_base));
      read_tree_merged (tree c_HEAD) (tree c_base) (tree c_other).

End Ugit.

(** ** base.py: names, branches and checkout *)

(** [init()], run where no [.ugit] directory exists yet: the two directories
    are created empty and [HEAD] is made a symbolic ref to the branch
    [master]. *)
Definition init : result unit * repo :=
  update_ref "HEAD" (mkRef true (Some "refs/heads/master")) true empty_repo.

(** [get_index_tree()]. *)
Definition get_index_tree : M (pydict string) :=
  get_index (fun index s => (Ok index, index, s)).

(** [is_branch(branch)]: the value is compared with [None], so an empty ref
    file counts. *)
Definition is_branch (s : repo) (branch : string) : result bool :=
  do? r <- get_ref s ("refs/heads/" +:+ branch) true;
  Ok (match value r with Some _ => true | None => false end).

(** [create_tag(name, oid)], [reset(oid)] and [create_branch(name, oid)];
    [oid] is what [get_oid] gave, a string or [None]. *)
Definition create_tag (name : string) (oid : option string) : M unit :=
  update_ref ("refs/tags/" +:+ name) (mkRef false oid) true.


Definition create_branch (name : string) (oid : option string) : M unit :=
  update_ref ("refs/heads/" +:+ name) (mkRef false oid) true.

(** [string.hexdigits]. *)
Definition hexdigits : string := "0123456789abcdefABCDEF".

(** The loop of [get_oid] over [refs_to_try]: the first ref whose own value
    is true decides, and what is returned is its dereferenced value. *)
Fixpoint get_oid_refs (s : repo) (refs_to_try : list string)
  : result (option (option string)) :=
  match refs_to_try with
  | [] => Ok None
  | ref :: rest =>
      do? r <- get_ref s ref false;
      if truthy (value r) then do? r' <- get_ref s ref true; Ok (Some (value r'))
      else get_oid_refs s rest
  end.

(** [get_oid(name)]. *)
Definition get_oid (s : repo) (name : string) : result (option string) :=
  let name := if String.eqb name "@" then "HEAD" else name in
  let refs_to_try :=
    [name; "refs/" +:+ name; "refs/tags/" +:+ name; "refs/heads/" +:+ name] in
  do? found <- get_oid_refs s refs_to_try;
  match found with
  | Some oid => Ok oid
  | None =>
      let is_hex := Str.forallb (fun c => Str.contains c hexdigits) name in
      if (String.length name =? 40) && is_hex then Ok (Some name)
      else Raise AssertionError
  end.

(** [checkout(name)].  An id of [None] is formatted into the object path as
    the text [None]. *)
Definition checkout (name : string) : M unit :=
  do! oid <- reading (fun s => get_oid s name);
  do! commit <- reading (fun s => get_commit s (default "None" oid));
  do! _ <- read_tree (tree commit);
  do! branch <- reading (fun s => is_branch s name);
  let HEAD :=
    if branch then mkRef true (Some ("refs/heads/" +:+ name)) else mkRef false oid in
  update_ref "HEAD" HEAD false.

(** [is_ignored(path)]. *)
Definition is_ignored (path : string) : bool :=
  existsb (String.eqb ".ugit") (Str.split "/" path).

Section Paths.

(** [os.path.relpath(path, start)]. *)
Variable relpath : string → string → string.

(** [get_branch_name()]. *)
Definition get_branch_name (s : repo) : result (option string) :=
  do? HEAD <- get_ref s "HEAD" false;
  if negb (symbolic HEAD) then Ok None
  else
    let HEAD := default "" (value HEAD) in
    if negb (Str.startswith "refs/heads" HEAD) then Raise AssertionError
    else Ok (Some (relpath HEAD "refs/heads")).

(** [iter_branch_names()], collected. *)
Definition iter_branch_names (s : repo) : result (list string) :=
  do? l <- iter_refs s "refs/heads/" true;
  Ok (map (fun nr => relpath nr.1 "refs/heads/") l).

End Paths.

(** ** remote.py

    [change_git_dir(remote_path)] is modelled by running the enclosed calls
    on the remote repository, a second [repo] distinct from the local one. *)

Definition REMOTE_REFS_BASE : string := "refs/heads/".
Definition LOCAL_REFS_BASE : string := "refs/remote/".

(** [_get_remote_refs(remote_path, prefix)]. *)
Definition _get_remote_refs (remote : repo) (prefix : string) : result (pydict string) :=
  do? l <- iter_refs remote prefix true;
  Ok (map (fun nr => (nr.1, default "" (value nr.2))) l).

(** The first loop of [fetch]: every id the generator yields is fetched
    before the generator is resumed, on the repository as it then is. *)
Fixpoint fetch_objects (fuel : nat) (remote : repo) (g : objects_gen) : M unit :=
  fun s =>
    match fuel with
    | 0 => (Raise Unfinished, s)
    | S fuel' =>
        match objects_next s g with
        | Raise e => (Raise e, s)
        | Ok None => (Ok tt, s)
        | Ok (Some (oid, g')) =>
            match fetch_object_if_missing oid remote s with
            | (Ok _, s') => fetch_objects fuel' remote g' s'
            | (Raise e, s') => (Raise e, s')
            end
        end
    end.

(** The second loop of [fetch].  [os.path.relpath(remote_name,
    REMOTE_REFS_BASE)] drops the prefix that [iter_refs] has checked; the
    ref path is the text that the code builds. *)
Fixpoint update_tracking_refs (refs : pydict string) : M unit :=
  match refs with
  | [] => ret tt
  | (remote_name, value) :: rest =>
      let refname := Str.drop (String.length REMOTE_REFS_BASE) remote_name in
      do! _ <- update_ref (LOCAL_REFS_BASE +:+ "/" +:+ refname) (mkRef false (Some value)) true;
      update_tracking_refs rest
  end.

(** [fetch(remote_path)], run on the local repository.  The argument of
    [iter_objects_in_commits] is the method [refs.values], not its result. *)
Definition fetch (fuel : nat) (remote : repo) : M unit :=
  do! refs <- reading (fun _ => _get_remote_refs remote REMOTE_REFS_BASE);
  do! _ <- fetch_objects fuel remote (OStart PyMethod);
  update_tracking_refs refs.

(** The loop over [objects_to_push]. *)
Fixpoint push_objects (oids : list string) (local : repo) : M unit :=
  match oids with
  | [] => ret tt
  | oid :: rest => do! _ <- push_object oid local; push_objects rest local
  end.

(** [push(remote_path, refname)], run on the remote repository; the local
    one is only read.  The second argument of [is_ancestor_of] is the
    dictionary [remote_refs].  A set is a duplicate-free list; the order in
    which [objects_to_push] is walked is that of first occurrence. *)
Definition push (fuel : nat) (local : repo) (refname : string) : M unit :=
  do! remote_refs <- reading (fun remote => _get_remote_refs remote "");
  let remote_ref := Dict.get refname remote_refs in
  do! local_ref <- reading (fun _ => do? r <- get_ref local refname true; Ok (value r));
  if negb (truthy local_ref) then raise AssertionError
  else
    let local_ref := default "" local_ref in
    do! fast_forward <- reading (fun _ =>
      match remote_refs with
      | [] => Ok true
      | _ => is_ancestor_of fuel local (PyStr local_ref) (PyDict remote_refs)
      end);
    if negb fast_forward then raise AssertionError
    else
      let known_remote_refs := List.filter (object_exists local) (Dict.values remote_refs) in
      do! remote_objects <- reading (fun _ =>
        gen_list objects_next fuel local (OStart (PySeq known_remote_refs)));
      do! local_objects <- reading (fun _ =>
        gen_list objects_next fuel local (OStart (PySeq [local_ref])));
      let objects_to_push := list_difference (remove_dups local_objects) remote_objects in
      do! _ <- push_objects objects_to_push local;
      update_ref refname (mkRef false (Some local_ref)) true.

(** ** A sample repository

    Three blobs, four trees and five commits, with the ids that SHA-1 gives
    their contents: [A] is the root, [B] and [C] are its children, [D] merges
    [B] and [C], and [E] is a second child of [B]. *)

Module Sample.

Definition obj (type_ data : string) : string := type_ +:+ String Str.NUL data.
Definition lines (l : list string) : string :=
  String.concat "" (map (fun x => x +:+ Str.nl) l).

Definition f1 := "3d4ab3d36a275a7a6a31efe03b46b9e9c023045e".
Definition f2 := "192b9597d0026be2c0117642797764a8ab8fa588".
Definition g1 := "81ce7eacba108db3c5d1c6dc895a71b95a8956f3".
Definition tA := "66d1365425c8f9726c4fa3d63d22ded2d32b78fe".
Definition tB := "5649ec33c1546b5cfc4559dce71fe88fb6bb4d80".
Definition tC := "356d1688852485373ba1b93a316e583aca968b08".
Definition tD := "2bd3172e0b36a42992e9bfae4bbcb805deabbe34".
Definition A := "5a12f0b14d85270a0daa8850f838d5291fe887e0".
Definition B := "bcbd76cc38464fee2b2c60a094d9eedd048cfa21".
Definition C := "a0b4d9739a54b18e591e05874562cd3ebfb2478b".
Definition D := "09f1f7efb6fa23b26cc86bfa1828dd804786f074".
Definition E := "a847a9a75c8aec393ece4752dbdf56c683f833f4".

Definition store : gmap string string :=
  list_to_map
    [ (f1, obj "blob" (lines ["one"]));
      (f2, obj "blob" (lines ["two"]));
      (g1, obj "blob" (lines ["gee"]));
      (tA, obj "tree" (lines ["blob " +:+ f1 +:+ " f"]));
      (tB, obj "tree" (lines ["blob " +:+ f2 +:+ " f"]));
      (tC, obj "tree" (lines ["blob " +:+ f1 +:+ " f"; "blob " +:+ g1 +:+ " g"]));
      (tD, obj "tree" (lines ["blob " +:+ f2 +:+ " f"; "blob " +:+ g1 +:+ " g"]));
      (A, obj "commit" (lines ["tree " +:+ tA; ""; "A"]));
      (B, obj "commit" (lines ["tree " +:+ tB; "parent " +:+ A; ""; "B"]));
      (C, obj "commit" (lines ["tree " +:+ tC; "parent " +:+ A; ""; "C"]));
      (D, obj "commit" (lines ["tree " +:+ tD; "parent " +:+ B; "parent " +:+ C; ""; "D"]));
      (E, obj "commit" (lines ["tree " +:+ tD; "parent " +:+ B; ""; "E"])) ].

(** [HEAD] is on [master]; [master] is at [tip]. *)
Definition at_commit (tip : string) : repo :=
  mkRepo store
    (list_to_map [("HEAD", "ref: refs/heads/master"); ("refs/heads/master", tip)])
    None.

(** The repository in the middle of merging [C] into [B]: [MERGE_HEAD] is
    set and the merged files are staged. *)
Definition merging : repo :=
  mkRepo store
    (list_to_map [("HEAD", "ref: refs/heads/master"); ("refs/heads/master", B);
                  ("MERGE_HEAD", C)])
    (Some [("f", f2); ("g", g1)]).

End Sample.

(** ** Ancestry, as the commit graph has it *)

(** [is_parent s c p]: [p] is recorded as a parent of the commit [c]. *)
Definition is_parent (s : repo) (c p : string) : Prop :=
  ∃ cm, get_commit s c = Ok cm ∧ p ∈ parents cm.

(** [ancestor s c a]: [a] is [c] or is reached from [c] along parent links. *)
Definition ancestor (s : repo) : relation string := rtc (is_parent s).

(** ** Stand-ins for the parts taken as parameters *)

Module Toy.

(** An injective digest over lower-case hexadecimal digits: a marker digit,
    then two digits per character of the object. *)
Definition hex_digit (n : N) : ascii :=
  nth (N.to_nat n) (list_ascii_of_string "0123456789abcdef") "0"%char.

Fixpoint hex (s : string) : string :=
  match s with
  | "" => ""
  | String a s' =>
      String (hex_digit (N_of_ascii a / 16)) (String (hex_digit (N_of_ascii a mod 16)) (hex s'))
  end.

Definition digest (obj : string) : string := String "0" (hex obj).

Definition unhex_digit (a : ascii) : N :=
  let n := N_of_ascii a in
  if (n <? 58)%N then (n - 48)%N else (n - 87)%N.

Fixpoint unhex (s : string) : string :=
  match s with
  | String a (String b s') =>
      String (ascii_of_N (unhex_digit a * 16 + unhex_digit b)) (unhex s')
  | _ => ""
  end.

End Toy.

Module SpecMerge.

(** Modelled from the spec: [diff.merge_trees] lives in [diff.py], which is
    not among the sources.  Section 4.6 describes it: the union of the
    paths; for each path, if only one side changed from the base, that side
    is taken; if both changed identically, either; if both changed
    differently, the file-level three-way merge [merge_blobs] is invoked.  A
    side that has no entry for the path stands for its absence. *)
Section Merge.
Variable merge_blobs : option string → option string → option string → M string.

Fixpoint merge_paths (t_base t_HEAD t_other : pydict string) (paths : list string)
  : M (pydict string) :=
  match paths with
  | [] => ret []
  | path :: rest =>
      let o_base := Dict.get path t_base in
      let o_HEAD := Dict.get path t_HEAD in
      let o_other := Dict.get path t_other in
      do! o <-
        (if decide (o_HEAD = o_base) then ret o_other
         else if decide (o_other = o_base) then ret o_HEAD
         else if decide (o_HEAD = o_other) then ret o_HEAD
         else do! oid <- merge_blobs o_base o_HEAD o_other; ret (Some oid));
      do! more <- merge_paths t_base t_HEAD t_other rest;
      ret (match o with Some oid => (path, oid) :: more | None => more end)
  end.

Definition merge_trees (t_base t_HEAD t_other : pydict string) : M (pydict string) :=
  merge_paths t_base t_HEAD t_other
    (remove_dups (Dict.keys t_base ++ Dict.keys t_HEAD ++ Dict.keys t_other)).

End Merge.

(** No file-level merge is available. *)
Definition no_merge_blobs (_ _ _ : option string) : M string := raise ValueError.

End SpecMerge.

(** * The vocabulary of the properties *)

(** ** Strings *)

(** No character of [s] is a line boundary. *)
Definition no_linebreak (s : string) : Prop :=
  Str.forallb (λ a, negb (Str.is_linebreak a)) s = true.


(** No character of [s] is [c]. *)
Definition without (c : ascii) (s : string) : Prop := Str.contains c s = false.

(** Neither a line boundary nor a space. *)
Definition plain (s : string) : Prop :=
  Str.forallb (λ a, negb (Str.is_linebreak a) && negb (Ascii.eqb a " ")) s = true.

(** [strip_prefix pre s]: what follows [pre] in [s], if [s] starts with it. *)
Fixpoint strip_prefix (pre s : string) : option string :=
  match pre, s with
  | "", _ => Some s
  | String a pre', String b s' => if Ascii.eqb a b then strip_prefix pre' s' else None
  | String _ _, "" => None
  end.

(** ** Objects as they are written *)

(** The text of a commit object, as [commit] builds it. *)
Definition commit_text (tree : string) (parents : list string) (message : string) : string :=
  ("tree " +:+ tree) +:+ Str.nl
  +:+ String.concat "" (map (λ p, ("parent " +:+ p) +:+ Str.nl) parents)
  +:+ "" +:+ Str.nl +:+ message +:+ Str.nl.

(** A line of a tree object, without the line feed that ends it. *)
Definition entry_text (e : entry) : string :=
  let '(name, oid, type_) := e in
  type_ +:+ " " +:+ oid +:+ " " +:+ name.

(** The order that the spec names: kind, then id, then name. *)
Definition kind_id_name_leb (x y : entry) : bool :=
  let '(n1, o1, t1) := x in
  let '(n2, o2, t2) := y in
  EntryOrder.leb (t1, o1, n1) (t2, o2, n2).

Section Written.
Variable hash : string → string.

(** The id and kind that [write_tree_value] returns, as a function of the
    value alone. *)
Fixpoint node_entry (v : node) : string * string :=
  match v with
  | Blob oid => (oid, "blob")
  | Dir d =>
      let entries := map (λ nv, (nv.1, (node_entry nv.2).1, (node_entry nv.2).2)) d in
      (hash ("tree" +:+ String Str.NUL (String.concat "" (map entry_line (sorted entries)))),
       "tree")
  end.

(** The list [entries] of [write_tree_recursive] at the end of its loop. *)
Definition entries_of (d : pydict node) : list entry :=
  map (λ nv, (nv.1, (node_entry nv.2).1, (node_entry nv.2).2)) d.

(** The payload of the tree object of a directory, and the id it gets. *)
Definition tree_text (d : pydict node) : string :=
  String.concat "" (map entry_line (sorted (entries_of d))).

Definition tree_oid (d : pydict node) : string :=
  hash ("tree" +:+ String Str.NUL (tree_text d)).

(** [keeps s s']: an object stored in [s] under its digest is still there
    in [s']. *)
Definition keeps (s s' : repo) : Prop :=
  ∀ x, objects s !! hash x = Some x → objects s' !! hash x = Some x.

(** [stored s v]: the tree objects of [v] and of the directories in it are
    in the store of [s], each under its id. *)
Fixpoint stored (s : repo) (v : node) : Prop :=
  match v with
  | Blob _ => True
  | Dir d =>
      objects s !! tree_oid d = Some ("tree" +:+ String Str.NUL (tree_text d))
      ∧ foldr (λ nv P, stored s nv.2 ∧ P) True d
  end.

End Written.

(** What the writes of objects leave alone: the refs and the index file. *)
Definition writes_only_objects (s s' : repo) : Prop :=
  refs s' = refs s ∧ index_file s' = index_file s.

(** ** Nested dictionaries and paths *)

(** The blob id found in a nested dictionary by following the components
    of a path. *)
Fixpoint tree_lookup (path : list string) (d : pydict node) : option string :=
  match path with
  | [] => None
  | name :: rest =>
      match Dict.get name d with
      | Some (Blob oid) => match rest with [] => Some oid | _ => None end
      | Some (Dir d') => match rest with [] => None | _ => tree_lookup rest d' end
      | None => None
      end
  end.

(** [strictly_below q p]: the path [p] lies in the directory [q]. *)
Definition strictly_below (q p : list string) : Prop := ∃ r, r ≠ [] ∧ p = q ++ r.

(** A component of a path that [get_tree] accepts and reads back whole. *)
Definition name_ok (name : string) : Prop :=
  without "/" name ∧ no_linebreak name ∧ name ≠ "." ∧ name ≠ "..".

(** Well-formed nested dictionaries: distinct names that are components,
    and blob ids without a space or a line boundary. *)
Fixpoint wf_node (v : node) : Prop :=
  match v with
  | Blob oid => plain oid
  | Dir d =>
      NoDup (map fst d)
      ∧ foldr (λ nv P, name_ok nv.1 ∧ wf_node nv.2 ∧ P) True d
  end.

(** What the round trip asks of a component of a path: no line boundary in
    it, and neither [.] nor [..]. *)
Definition component_ok (name : string) : Prop :=
  no_linebreak name ∧ name ≠ "." ∧ name ≠ "..".

(** What it asks of an index: distinct paths made of such components, none
    of them a directory on the way to another, and blob ids without a space
    or a line boundary. *)
Definition index_ok (index : pydict string) : Prop :=
  NoDup (map fst index)
  ∧ Forall (λ pv, Forall component_ok (Str.split "/" pv.1) ∧ plain pv.2) index
  ∧ (∀ p q, p ∈ map fst index → q ∈ map fst index →
            ¬ strictly_below (Str.split "/" p) (Str.split "/" q)).

(** The blob id that the nested dictionary [d], read with the base path
    [base], has for the path [p]. *)
Definition path_lookup (base : string) (d : pydict node) (p : string) : option string :=
  match strip_prefix base p with
  | Some rest => tree_lookup (Str.split "/" rest) d
  | None => None
  end.

(** The number of nested calls that reading a value back takes. *)
Fixpoint height (v : node) : nat :=
  match v with
  | Blob _ => 0
  | Dir d => S (foldr (λ nv h, Nat.max (height nv.2) h) 0 d)
  end.

(** ** Ref values *)

(** No character of [s] is one that [str.strip] removes. *)
Definition no_white (s : string) : Prop :=
  Str.forallb (λ a, negb (Str.is_space a)) s = true.

(** A value that a ref file holds as it is and that is read back as an id:
    not empty, without white space, and not of the form [ref:...]. *)
Definition direct_value (v : string) : Prop :=
  Str.truth v = true ∧ no_white v ∧ Str.startswith "ref:" v = false.

(** [HEAD] on a branch: a symbolic ref to a branch that has no file yet or
    holds a direct value. *)
Definition on_branch (s : repo) (b : string) : Prop :=
  refs s !! "HEAD" = Some ("ref: " +:+ b) ∧ no_white b ∧ Str.truth b = true
  ∧ (refs s !! b = None ∨ ∃ v, refs s !! b = Some v ∧ direct_value v).

(** The candidates of [get_oid], in the order in which it tries them. *)
Definition refs_to_try (name : string) : list string :=
  let name := if String.eqb name "@" then "HEAD" else name in
  [name; "refs/" +:+ name; "refs/tags/" +:+ name; "refs/heads/" +:+ name].

(** ** Names of files under [GIT_DIR]

    The maps [objects] and [refs] are keyed by file names, and the code
    makes a path of every name it is given.  The properties of the ref
    store are stated for the names and the states on which a map of names
    says all there is to say about the files: directories are not recorded,
    and are taken to exist exactly where a recorded file lies below them. *)

(** A name of one directory entry: not empty, not [.] or [..], without
    NUL. *)
Definition file_component (c : string) : bool :=
  Str.truth c && negb (String.eqb c ".") && negb (String.eqb c "..")
  && negb (Str.contains Str.NUL c).

(** [object_name oid]: [objects/<oid>] is a file directly in [objects]. *)
Definition object_name (oid : string) : bool :=
  file_component oid && negb (Str.contains "/" oid).

(** [ref_path name]: [GIT_DIR/<name>] is a file that [refs] stands for: the
    name is made of entry names, and is neither the index file nor the
    directory [objects] nor below one of them. *)
Definition ref_path (name : string) : bool :=
  let components := Str.split "/" name in
  forallb file_component components
  && negb (String.eqb (hd "" components) "index")
  && negb (String.eqb (hd "" components) "objects").

(** [dir_of q p]: the components [p] continue the components [q]. *)
Fixpoint dir_of (q p : list string) : bool :=
  match q, p with
  | [], _ :: _ => true
  | c :: q', d :: p' => String.eqb c d && dir_of q' p'
  | _, _ => false
  end.

(** [below q p]: the file named [p] lies in the directory named [q]. *)
Definition below (q p : string) : bool := dir_of (Str.split "/" q) (Str.split "/" p).

(** [refs_wf s]: the names of [refs] are the files of a directory tree:
    each is a [ref_path], and none lies below another. *)
Definition refs_wf (s : repo) : bool :=
  let names := map fst (map_to_list (refs s)) in
  forallb (λ k, ref_path k && forallb (λ k', negb (below k k')) names) names.

(** [ref_free s name]: the file [name] can be written in [s]: no file
    stands where the path needs a directory, and no file lies below it. *)
Definition ref_free (s : repo) (name : string) : bool :=
  ref_path name
  && forallb (λ k, negb (below k name) && negb (below name k))
       (map fst (map_to_list (refs s))).

(** The names that [_get_ref_internal(ref, deref=True)] reads, in order. *)
Fixpoint ref_chain (depth : nat) (s : repo) (ref : string) : list string :=
  match depth with
  | 0 => []
  | S depth' =>
      let value := Str.strip <$> refs s !! ref in
      let symbolic := truthy value && Str.startswith "ref:" (default "" value) in
      ref :: if symbolic
             then ref_chain depth' s
                    (Str.strip (nth 1 (Str.splitn ":" 1 (default "" value)) ""))
             else []
  end.

(** ** The commit graph *)

(** [reached s roots x]: the commit [x] is one of [roots] or is reached from
    one of them along parent links. *)
Definition reached (s : repo) (roots : list string) (x : string) : Prop :=
  ∃ r, r ∈ roots ∧ ancestor s r x.

(** [history s oids n]: every commit reached from [oids] can be read, and
    the paths of parent links that lead from [oids] to a commit are [n] in
    all.  An empty id stands for no commit.  Such an [n] exists when the
    parent links form no cycle and no commit is missing. *)
Inductive history (s : repo) : list string → nat → Prop :=
| history_nil : history s [] 0
| history_skip oids n : history s oids n → history s ("" :: oids) n
| history_commit oid c oids n m :
    oid ≠ "" →
    get_commit s oid = Ok c →
    history s (parents c) n →
    history s oids m →
    history s (oid :: oids) (S (n + m)).

(** What [list(iter_commits_and_parents(...))] still has to give once the
    deque is [oids], with [fuel] calls of [next] left after the coming one. *)
Definition commits_rest (fuel : nat) (s : repo) (oids : list string) : result (list string) :=
  match commits_loop oids [] with
  | None => Ok []
  | Some (x, g) => do? l <- gen_list commits_next fuel s g; Ok (x :: l)
  end.

(** ** The object traversal *)

(** The set [visited] of a suspended [iter_objects_in_commits]. *)
Definition visited_of (g : objects_gen) : list string :=
  match g with
  | OStart _ => []
  | OCommit _ _ visited | OTree _ _ _ visited | OBlob _ _ visited => visited
  end.

(** Whether the generator stopped at a [yield] of [iter_objects_in_tree],
    which gives a tree or a blob, and not at the [yield] of a commit. *)
Definition yields_object (g : objects_gen) : bool :=
  match g with
  | OTree _ _ _ _ | OBlob _ _ _ => true
  | OStart _ | OCommit _ _ _ => false
  end.

Section Steps.
Context {G : Type} (next : repo → G → result (option (string * G))).

(** [list(itertools.islice(gen, k))], each value with the state in which the
    generator stopped to give it. *)
Fixpoint gen_steps (k : nat) (s : repo) (g : G) : result (list (string * G)) :=
  match k with
  | 0 => Ok []
  | S k' =>
      do? r <- next s g;
      match r with
      | None => Ok []
      | Some (x, g') => do? l <- gen_steps k' s g'; Ok ((x, g') :: l)
      end
  end.

End Steps.

(** The ids among the first values that are trees or blobs. *)
Definition object_yields (l : list (string * objects_gen)) : list string :=
  map fst (List.filter (λ xg, yields_object xg.2) l).

(** ** Outcomes and inputs *)

(** [transferred fuel local refname remote remote']: [remote'] is [remote]
    with a copy of every object that the traversal from the local value
    yields and the traversal from the known remote values does not, and with
    the ref set to the local value. *)
Definition transferred (fuel : nat) (local : repo) (refname : string) (remote remote' : repo)
  : Prop :=
  ∃ r local_ref remote_refs remote_objects local_objects N,
    get_ref local refname true = Ok r ∧ value r = Some local_ref
    ∧ _get_remote_refs remote "" = Ok remote_refs
    ∧ gen_list objects_next fuel local
        (OStart (PySeq (List.filter (object_exists local) (Dict.values remote_refs))))
      = Ok remote_objects
    ∧ gen_list objects_next fuel local (OStart (PySeq [local_ref])) = Ok local_objects
    ∧ (∀ oid, objects remote' !! oid
              = if decide (oid ∈ local_objects ∧ oid ∉ remote_objects)
                then objects local !! oid else objects remote !! oid)
    ∧ get_ref_name remote refname true = Ok N
    ∧ refs remote' = <[N := local_ref]> (refs remote)
    ∧ index_file remote' = index_file remote.

(** A body that stages one file and then fails. *)
Definition stage_then_fail (index : pydict string) (s : repo)
  : result unit * pydict string * repo :=
  (Raise ValueError, Dict.set "f" Sample.f1 index, s).

(** Three files in nested directories. *)
Definition staged : pydict string := [("a/b", Sample.f1); ("c", Sample.f2); ("a/d/e", Sample.g1)].

(** * Properties *)

(** ** The string functions on examples *)

Example split_path : Str.split "/" "a/b//c" = ["a"; "b"; ""; "c"].
Proof. reflexivity. Qed.

Example splitn_entry : Str.splitn " " 2 "blob 0f a b" = ["blob"; "0f"; "a b"].
Proof. reflexivity. Qed.

Example splitlines_boundaries :
  Str.splitlines ("a" +:+ Str.nl +:+ Str.nl +:+ "b" +:+ String Str.CR Str.nl +:+ "c" +:+ Str.nl)
  = ["a"; ""; "b"; "c"].
Proof. reflexivity. Qed.

Example strip_both_ends : Str.strip ("  ab c " +:+ Str.nl) = "ab c".
Proof. reflexivity. Qed.

(** ** Traversal of the commit graph *)

Section TraversalOnSample.
Import Sample.

(** On the linear history [A <- B <- E] the generator, given the set [{E}],
    yields the three commits once each. *)
Example commits_of_chain :
  gen_list commits_next 10 (at_commit E) (CStart (PySeq [E])) = Ok [E; B; A].
Proof. reflexivity. Qed.

(** C3: on the diamond [A <- B, A <- C, D = merge of B and C] the commit
    traversal from [{D}] yields [A] twice, once after [B] and once after
    [C]: nothing is ever added to [visited], so its test never holds.  The
    object traversal repeats [A] for the same reason, although it yields
    each tree and blob once.  Neither sequence is duplicate-free. *)
Theorem traversal_yields_commit_twice :
  gen_list commits_next 20 (at_commit D) (CStart (PySeq [D])) = Ok [D; B; A; C; A]
  ∧ gen_list objects_next 20 (at_commit D) (OStart (PySeq [D]))
    = Ok [D; tD; f2; g1; B; tB; A; tA; f1; C; tC; A]
  ∧ ¬ NoDup [D; B; A; C; A]
  ∧ ¬ NoDup [D; tD; f2; g1; B; tB; A; tA; f1; C; tC; A].
Proof.
  split; [reflexivity|]. split; [reflexivity|].
  split; apply (bool_decide_eq_false_1 (NoDup _)); reflexivity.
Qed.

(** C8: on the chain [A <- B <- E], [is_ancestor_of(E, A)] and
    [is_ancestor_of(A, E)] both raise: the id is handed to the traversal as
    a string, whose elements are its characters, and no object is stored
    under the first character.  Wrapped in a set, as [get_merge_base] does
    it, the same calls give [True] and [False]. *)
Theorem is_ancestor_of_raises_on_chain (fuel : nat) :
  is_ancestor_of (S (S fuel)) (at_commit E) (PyStr E) (PyStr A) = Raise FileNotFoundError
  ∧ is_ancestor_of (S (S fuel)) (at_commit E) (PyStr A) (PyStr E) = Raise FileNotFoundError
  ∧ is_ancestor_of 10 (at_commit E) (PySeq [E]) (PyStr A) = Ok true
  ∧ is_ancestor_of 10 (at_commit E) (PySeq [A]) (PyStr E) = Ok false.
Proof. repeat split; reflexivity. Qed.

End TraversalOnSample.

(** ** Fetch *)

(** C6: [fetch] raises [TypeError] before it copies an object or writes a
    ref, whatever the remote holds: [iter_objects_in_commits] is given the
    bound method [refs.values], which cannot be iterated. *)
Theorem fetch_raises_type_error (fuel : nat) (remote local : repo) (refs : pydict string) :
  _get_remote_refs remote REMOTE_REFS_BASE = Ok refs →
  fetch (S fuel) remote local = (Raise TypeError, local).
Proof.
  intros Hrefs. unfold fetch, bind, reading. rewrite Hrefs. reflexivity.
Qed.

Lemma fetch_raises_type_error_witness :
  fetch 1 (Sample.at_commit Sample.B) empty_repo = (Raise TypeError, empty_repo).
Proof.
  apply (fetch_raises_type_error 0 _ _ [("refs/heads/master", Sample.B)]).
  reflexivity.
Defined.

(** ** The index file *)

(** C4, as stated, fails: when the body raises after changing the mapping,
    the changed mapping is not written; here no index file exists after the
    call. *)
Lemma get_index_drops_mutation_on_error :
  ¬ (∀ (body : pydict string → repo → result unit * pydict string * repo) s e index' s',
       body (default [] (index_file s)) s = (Raise e, index', s') →
       index_file (get_index body s).2 = Some index').
Proof.
  intros H.
  specialize (H stage_then_fail empty_repo ValueError [("f", Sample.f1)] empty_repo eq_refl).
  discriminate H.
Qed.

(** C4, amended: [get_index] writes the mapping as the body left it when
    the body returns; when the body raises, the exception propagates and the
    index file stays as the body's own effects left it, without the
    mapping's changes. *)
Theorem get_index_persists_on_return {A} (body : pydict string → repo → result A * pydict string * repo)
  (s : repo) :
  match body (default [] (index_file s)) s with
  | (Ok a, index', s') =>
      (get_index body s).1 = Ok a
      ∧ index_file (get_index body s).2 = Some index'
      ∧ objects (get_index body s).2 = objects s'
      ∧ refs (get_index body s).2 = refs s'
  | (Raise e, _, s') => get_index body s = (Raise e, s')
  end.
Proof.
  unfold get_index.
  destruct (body (default [] (index_file s)) s) as [[[a|e] index'] s']; simpl; auto.
Qed.

(** ** What [write_tree_recursive] stores *)

(** Induction over nested dictionaries. *)
Lemma node_ind' (P : node → Prop) :
  (∀ oid, P (Blob oid)) →
  (∀ d, Forall (λ nv, P nv.2) d → P (Dir d)) →
  ∀ v, P v.
Proof.
  intros HB HD. fix IH 1. intros [oid|d]; [apply HB|].
  apply HD. induction d as [|[n v] d IHd]; constructor; [apply IH|apply IHd].
Qed.

Section WrittenFacts.
Variable hash : string → string.

Lemma node_entry_Dir d : node_entry hash (Dir d) = (tree_oid hash d, "tree").
Proof. reflexivity. Qed.

Lemma write_tree_items_spec (write_value : node → M (string * string)) d :
  Forall (λ nv, ∀ s, ∃ s', write_value nv.2 s = (Ok (node_entry hash nv.2), s')
                           ∧ writes_only_objects s s') d →
  ∀ s, ∃ s', write_tree_items write_value d s = (Ok (entries_of hash d), s')
             ∧ writes_only_objects s s'.
Proof.
  induction 1 as [|[name v] d Hv _ IH]; intros s.
  - exists s. by split.
  - destruct (Hv s) as (s1 & E1 & R1 & I1). destruct (IH s1) as (s2 & E2 & R2 & I2).
    exists s2. simpl. unfold bind at 1. simpl in E1. rewrite E1.
    destruct (node_entry hash v) as [oid type_] eqn:Ev.
    unfold bind at 1. rewrite E2. unfold ret, entries_of; simpl.
    split; [done|]. split; congruence.
Qed.

Lemma write_tree_value_spec v :
  ∀ s, ∃ s', write_tree_value hash v s = (Ok (node_entry hash v), s') ∧ writes_only_objects s s'.
Proof.
  induction v as [oid|d IH] using node_ind'; intros s.
  - exists s. by split.
  - destruct (write_tree_items_spec _ d IH s) as (s1 & E1 & R1 & I1).
    eexists. simpl. unfold bind at 1. rewrite E1. split; [reflexivity|].
    split; simpl; assumption.
Qed.

(** [write_tree_recursive] always returns, and its last write is the tree
    object of the directory it was given. *)
Lemma write_tree_recursive_spec d s :
  ∃ s1, write_tree_items (write_tree_value hash) d s = (Ok (entries_of hash d), s1)
        ∧ writes_only_objects s s1
        ∧ write_tree_recursive hash d s
          = (Ok (tree_oid hash d),
             set_objects <[tree_oid hash d := "tree" +:+ String Str.NUL (tree_text hash d)]> s1).
Proof.
  destruct (write_tree_items_spec (write_tree_value hash) d) with (s := s)
    as (s1 & E1 & W1).
  { apply Forall_forall. intros nv _. apply write_tree_value_spec. }
  exists s1. split; [done|]. split; [done|].
  unfold write_tree_recursive. simpl. unfold bind at 1. unfold bind at 1. rewrite E1. reflexivity.
Qed.

(** C9, amended: the tree object that [write_tree_recursive] stores for a
    directory is the concatenation of the lines of its entries, sorted as the
    tuples [(name, oid, type_)]: by name first, then by id, then by kind. *)
Theorem tree_object_sorted_by_name (d : pydict node) (s : repo) :
  ∃ s', write_tree_recursive hash d s = (Ok (tree_oid hash d), s')
        ∧ objects s' !! tree_oid hash d
          = Some ("tree" +:+ String Str.NUL
                    (String.concat "" (map entry_line (sorted (entries_of hash d)))))
        ∧ Sorted (λ x y, EntryOrder.leb x y = true) (sorted (entries_of hash d))
        ∧ Permutation (entries_of hash d) (sorted (entries_of hash d)).
Proof.
  destruct (write_tree_recursive_spec d s) as (s1 & _ & _ & E).
  eexists. split; [exact E|]. split.
  - simpl. apply lookup_insert_eq.
  - split; [apply EntrySort.Sorted_sort|apply EntrySort.Permuted_sort].
Qed.

End WrittenFacts.

(** C9, as stated, fails: a directory with the files [a] and [b], where the
    blob of [a] has the greater id, is stored with the line of [a] first;
    by kind, id and name the line of [b] would come first. *)
Lemma tree_object_not_sorted_by_kind_id :
  ∃ oid s',
    write_tree_recursive Toy.digest [("a", Blob Sample.f1); ("b", Blob Sample.f2)] empty_repo
    = (Ok oid, s')
    ∧ objects s' !! oid
      = Some (Sample.obj "tree"
                (Sample.lines ["blob " +:+ Sample.f1 +:+ " a"; "blob " +:+ Sample.f2 +:+ " b"]))
    ∧ ¬ Sorted (λ x y, kind_id_name_leb x y = true)
          [("a", Sample.f1, "blob"); ("b", Sample.f2, "blob")].
Proof.
  eexists _, _. split; [reflexivity|]. split; [reflexivity|].
  intros H. inversion H as [|x l _ Hd]; subst. inversion Hd as [|y l' Hle]; subst.
  discriminate Hle.
Qed.

(** ** Refs and objects are read independently *)

Arguments _get_ref_internal : simpl never.

Lemma get_ref_internal_ext depth s s' ref deref :
  refs s = refs s' →
  _get_ref_internal depth s ref deref = _get_ref_internal depth s' ref deref.
Proof.
  intros Hrefs. revert ref deref.
  induction depth as [|depth IH]; intros ref deref; [reflexivity|].
  unfold _get_ref_internal; fold _get_ref_internal. rewrite Hrefs.
  destruct (_ && deref); [apply IH|reflexivity].
Qed.

Lemma get_ref_ext s s' ref deref :
  refs s = refs s' → get_ref s ref deref = get_ref s' ref deref.
Proof. intros H. unfold get_ref. by rewrite (get_ref_internal_ext _ s s'). Qed.

Lemma get_ref_name_ext s s' ref deref :
  refs s = refs s' → get_ref_name s ref deref = get_ref_name s' ref deref.
Proof. intros H. unfold get_ref_name. by rewrite (get_ref_internal_ext _ s s'). Qed.

(** A name without a file resolves to itself, with no value. *)
Lemma get_ref_internal_missing depth s ref deref :
  refs s !! ref = None →
  _get_ref_internal (S depth) s ref deref = Ok (ref, mkRef false None).
Proof. intros H. unfold _get_ref_internal. rewrite H. reflexivity. Qed.

Lemma get_ref_name_missing s ref deref :
  refs s !! ref = None → get_ref_name s ref deref = Ok ref.
Proof.
  intros H. unfold get_ref_name, recursion_limit.
  by rewrite (get_ref_internal_missing 999 s ref deref H).
Qed.

Lemma get_commit_ext s s' oid :
  objects s = objects s' → get_commit s oid = get_commit s' oid.
Proof. intros H. unfold get_commit, get_object. by rewrite H. Qed.

(** ** Commit while a merge is pending *)

Section CommitInMerge.
Variable hash : string → string.

(** [write_tree], step by step: the index is read and written back as it
    is, then the nested dictionary is written. *)
Lemma write_tree_eq s :
  write_tree hash s
  = match index_as_tree_from (default [] (index_file s)) [] with
    | Ok t =>
        write_tree_recursive hash t (set_index_file (Some (default [] (index_file s))) s)
    | Raise e => (Raise e, s)
    end.
Proof.
  unfold write_tree, bind, get_index.
  destruct (index_as_tree_from _ _); reflexivity.
Qed.

(** [write_tree] changes no ref. *)
Lemma write_tree_refs s r s' : write_tree hash s = (r, s') → refs s' = refs s.
Proof.
  rewrite write_tree_eq.
  destruct (index_as_tree_from _ _) as [t|e]; [|by intros [= _ <-]].
  destruct (write_tree_recursive_spec hash t (set_index_file (Some (default [] (index_file s))) s))
    as (s1 & _ & [R1 _] & ->).
  intros [= _ <-]. exact R1.
Qed.

(** C2: with [MERGE_HEAD] set to [M], [commit] raises [FileNotFoundError]
    once the tree is written: it deletes the ref named by the value [M], not
    the ref [MERGE_HEAD], and no ref file has an object id for a name.  The
    repository is left as [write_tree] left it: no commit object is stored,
    [HEAD] is not advanced and [MERGE_HEAD] is still set. *)
Theorem commit_with_merge_head_raises (message : string) (s s1 : repo) (tree M : string)
  (head : RefValue) (sym : bool) :
  write_tree hash s = (Ok tree, s1) →
  get_ref s "HEAD" true = Ok head →
  get_ref s "MERGE_HEAD" true = Ok (mkRef sym (Some M)) →
  Str.truth M = true →
  refs s !! M = None →
  commit hash message s = (Raise FileNotFoundError, s1)
  ∧ refs s1 = refs s
  ∧ get_ref s1 "MERGE_HEAD" true = Ok (mkRef sym (Some M)).
Proof.
  intros Hw Hh Hm HM Hfile.
  pose proof (write_tree_refs _ _ _ Hw) as Hrefs.
  rewrite (get_ref_ext s1 s) by done.
  split; [|done].
  unfold commit. unfold bind at 1. rewrite Hw.
  unfold bind at 1, reading at 1. rewrite (get_ref_ext s1 s), Hh by done. simpl.
  unfold bind at 1, reading at 1. rewrite (get_ref_ext s1 s), Hm by done. simpl.
  rewrite HM. unfold bind at 1. unfold bind at 1.
  unfold delete_ref, bind, reading.
  rewrite get_ref_name_missing by congruence.
  by rewrite Hrefs, Hfile.
Qed.

End CommitInMerge.

Lemma commit_with_merge_head_raises_witness :
  commit Toy.digest "merge" Sample.merging
  = (Raise FileNotFoundError, (write_tree Toy.digest Sample.merging).2)
  ∧ refs (write_tree Toy.digest Sample.merging).2 = refs Sample.merging
  ∧ get_ref (write_tree Toy.digest Sample.merging).2 "MERGE_HEAD" true
    = Ok (mkRef false (Some Sample.C)).
Proof.
  apply (commit_with_merge_head_raises Toy.digest "merge" Sample.merging
           (write_tree Toy.digest Sample.merging).2
           (match (write_tree Toy.digest Sample.merging).1 with Ok t => t | Raise _ => "" end)
           Sample.C (mkRef false (Some Sample.B)) false);
    vm_compute; reflexivity.
Defined.

(** ** Merge *)

Section MergeRoles.
Variable merge_trees : pydict string → pydict string → pydict string → M (pydict string).

(** C1: in a merge that is not a fast-forward, [merge] sets [MERGE_HEAD] to
    [other] and loads into the index the result of [merge_trees] applied to
    the files of [HEAD] as its first argument, the base, and to the files of
    the merge base as its second, the current side: the two trees are passed
    to [read_tree_merged(t_base, t_HEAD, t_other)] in exchanged positions. *)
Theorem merge_exchanges_base_and_head (fuel : nat) (other : string) (s s2 : repo)
  (sym : bool) (HEAD base N : string) (c_other c_HEAD c_base : Commit)
  (d_HEAD d_base d_other merged : pydict string) :
  get_ref s "HEAD" true = Ok (mkRef sym (Some HEAD)) →
  Str.truth HEAD = true →
  get_merge_base fuel s other HEAD = Ok (Some base) →
  base ≠ HEAD →
  Str.truth other = true →
  get_ref_name s "MERGE_HEAD" true = Ok N →
  get_commit s other = Ok c_other →
  get_commit s HEAD = Ok c_HEAD →
  get_commit s base = Ok c_base →
  let s1 := set_refs <[N := other]> s in
  get_tree recursion_limit s1 (tree c_HEAD) "" = Ok d_HEAD →
  get_tree recursion_limit s1 (tree c_base) "" = Ok d_base →
  get_tree recursion_limit s1 (tree c_other) "" = Ok d_other →
  merge_trees d_HEAD d_base d_other s1 = (Ok merged, s2) →
  merge merge_trees fuel other s
  = (Ok tt, set_index_file (Some (Dict.update [] merged)) s2).
Proof.
  intros Hh Ht Hb Hne Ho HN Hco Hch Hcb s1 Hth Htb Hto Hm.
  unfold merge. unfold bind at 1, reading at 1. rewrite Hh. simpl. rewrite Ht. simpl.
  unfold bind at 1, reading at 1. rewrite Hb.
  unfold bind at 1, reading at 1. rewrite Hco.
  rewrite bool_decide_eq_false_2 by congruence.
  unfold bind at 1. unfold update_ref at 1. unfold bind at 1, reading at 1. rewrite HN.
  simpl. rewrite Ho. simpl. unfold modify.
  unfold bind at 1, reading at 1. rewrite (get_commit_ext _ s) by done. rewrite Hch.
  unfold bind at 1, reading at 1. rewrite (get_commit_ext _ s) by done. simpl. rewrite Hcb.
  unfold read_tree_merged, get_index. fold s1. rewrite Hth, Htb, Hto, Hm. reflexivity.
Qed.

End MergeRoles.

Section MergeOnSample.
Import Sample.

(** With [HEAD] at [B] and [C] merged in, the three flat maps. *)
Example sample_trees :
  get_tree 5 (at_commit B) tA "" = Ok [("f", f1)]
  ∧ get_tree 5 (at_commit B) tB "" = Ok [("f", f2)]
  ∧ get_tree 5 (at_commit B) tC "" = Ok [("f", f1); ("g", g1)].
Proof. repeat split; reflexivity. Qed.

Lemma merge_exchanges_base_and_head_witness :
  merge (λ t_base _ _, ret t_base) 20 C (at_commit B)
  = (Ok tt, set_index_file (Some [("f", f2)])
              (set_refs <["MERGE_HEAD" := C]> (at_commit B))).
Proof.
  apply (merge_exchanges_base_and_head (λ t_base _ _, ret t_base) 20 C (at_commit B) _
           false B A "MERGE_HEAD"
           (mkCommit tC [A] "C") (mkCommit tB [A] "B") (mkCommit tA [] "A")
           [("f", f2)] [("f", f1)] [("f", f1); ("g", g1)] [("f", f2)]);
    try reflexivity.
  intros H. discriminate H.
Defined.

(** On that input, with a three-way merge of the files as section 4.6
    describes it: [B] changed [f] and [C] added [g], so the merge in the
    roles (base, HEAD, other) keeps the [f] of [B].  [merge] stages the [f]
    of the base instead, undoing the change made on [HEAD]. *)
Example merge_loses_head_change :
  let merge3 := SpecMerge.merge_trees SpecMerge.no_merge_blobs in
  (merge3 [("f", f1)] [("f", f2)] [("f", f1); ("g", g1)] (at_commit B)).1
  = Ok [("f", f2); ("g", g1)]
  ∧ index_file (merge merge3 20 C (at_commit B)).2 = Some [("f", f1); ("g", g1)].
Proof. split; reflexivity. Qed.

End MergeOnSample.

(** ** Push *)

(** Name resolution raises nothing but [RecursionError]. *)
Lemma get_ref_internal_raises depth s ref deref e :
  _get_ref_internal depth s ref deref = Raise e → e = RecursionError.
Proof.
  revert ref deref. induction depth as [|depth IH]; intros ref deref.
  - by intros [= <-].
  - unfold _get_ref_internal; fold _get_ref_internal.
    destruct (_ && deref); [apply IH|discriminate].
Qed.

Lemma get_ref_raises s ref deref e : get_ref s ref deref = Raise e → e = RecursionError.
Proof.
  unfold get_ref. destruct (_get_ref_internal _ _ _ _) eqn:E; simpl; [discriminate|].
  intros [= <-]. by eapply get_ref_internal_raises.
Qed.

(** Once the loop over [objects_to_push] has ended, the remote holds a copy
    of each of them and is otherwise unchanged. *)
Lemma push_objects_ok oids local remote remote' :
  push_objects oids local remote = (Ok tt, remote') →
  (∀ oid, objects remote' !! oid
          = if decide (oid ∈ oids) then objects local !! oid else objects remote !! oid)
  ∧ refs remote' = refs remote ∧ index_file remote' = index_file remote.
Proof.
  revert remote. induction oids as [|oid oids IH]; intros remote; simpl.
  - intros [= <-]. by split.
  - unfold bind, push_object. destruct (objects local !! oid) as [obj|] eqn:E; [|discriminate].
    intros H. apply IH in H as (Hobj & Hrefs & Hidx). split; [|done].
    intros oid'. rewrite Hobj. simpl.
    destruct (decide (oid' ∈ oids)) as [Hin|Hnin].
    + rewrite decide_True; [done|by right].
    + destruct (decide (oid' = oid)) as [->|Hne].
      * rewrite decide_True by left. by rewrite lookup_insert_eq.
      * rewrite decide_False, lookup_insert_ne; [done|done|].
        by intros [?|?]%elem_of_cons.
Qed.

(** A string is never equal to a dictionary, so [is_ancestor_of], given the
    dictionary [remote_refs] as its candidate, finds nothing; given a
    non-empty id as its commit, it yields the first character of the id and
    then reads the object of that name. *)
Lemma is_ancestor_of_str_dict fuel local local_ref remote_refs :
  Str.truth local_ref = true →
  (∀ oid, is_Some (objects local !! oid) → String.length oid = 40) →
  is_ancestor_of (S (S fuel)) local (PyStr local_ref) (PyDict remote_refs)
  = Raise FileNotFoundError.
Proof.
  intros Ht Hwf. destruct local_ref as [|a rest]; [discriminate|].
  unfold is_ancestor_of. simpl.
  unfold get_commit, get_object.
  destruct (objects local !! String a "") eqn:E; [|reflexivity].
  assert (String.length (String a "") = 40) as Hlen by (apply Hwf; eauto).
  discriminate Hlen.
Qed.

(** Whenever the remote lists a ref with a value, whichever it is, [push]
    raises and leaves the remote as it was: no object is copied and no ref
    is written.  The local object files are taken to be named by 40-digit
    ids. *)
Lemma push_to_remote_with_refs_raises (fuel : nat) (local : repo) (refname : string)
  (remote : repo) (remote_refs : pydict string) :
  (∀ oid, is_Some (objects local !! oid) → String.length oid = 40) →
  _get_remote_refs remote "" = Ok remote_refs →
  remote_refs ≠ [] →
  ∃ e, e ≠ Unfinished ∧ push (S (S fuel)) local refname remote = (Raise e, remote).
Proof.
  intros Hwf Hrefs Hne.
  unfold push. unfold bind at 1, reading at 1. rewrite Hrefs.
  unfold bind at 1, reading at 1.
  destruct (get_ref local refname true) as [r|e] eqn:Er; simpl.
  2:{ exists e. split; [|done]. by rewrite (get_ref_raises _ _ _ _ Er). }
  destruct (truthy (value r)) eqn:Hv; simpl; [|by exists AssertionError].
  destruct (value r) as [local_ref|]; [|discriminate]. simpl in *.
  unfold bind at 1, reading at 1.
  destruct remote_refs as [|kv remote_refs]; [done|].
  rewrite is_ancestor_of_str_dict by done. by exists FileNotFoundError.
Qed.

(** When [push] returns, it has copied to the remote exactly the objects
    that the traversal from the local value yields and the traversal from
    the remote values known locally does not, and has set the remote ref to
    the local value. *)
Lemma push_returns_transferred (fuel : nat) (local : repo) (refname : string)
  (remote remote' : repo) :
  push fuel local refname remote = (Ok tt, remote') →
  transferred fuel local refname remote remote'.
Proof.
  unfold transferred, push. unfold bind at 1, reading at 1.
  destruct (_get_remote_refs remote "") as [remote_refs|] eqn:Hrefs; [|discriminate].
  unfold bind at 1, reading at 1.
  destruct (get_ref local refname true) as [r|] eqn:Er; simpl; [|discriminate].
  destruct (truthy (value r)) eqn:Hv; simpl; [|discriminate].
  destruct (value r) as [local_ref|] eqn:Evalue; [|discriminate]. simpl.
  unfold bind at 1, reading at 1.
  destruct (match remote_refs with [] => Ok true | _ => _ end) as [[]|]; simpl;
    [|discriminate..].
  unfold bind at 1, reading at 1.
  destruct (gen_list objects_next fuel local (OStart (PySeq (List.filter _ _))))
    as [remote_objects|] eqn:Ero; [|discriminate].
  unfold bind at 1, reading at 1.
  destruct (gen_list objects_next fuel local (OStart (PySeq [local_ref])))
    as [local_objects|] eqn:Elo; [|discriminate].
  unfold bind at 1.
  destruct (push_objects _ local remote) as [[[]|] remote1] eqn:Ep; [|discriminate].
  apply push_objects_ok in Ep as (Hobj & Hr1 & Hi1).
  unfold update_ref, bind, reading.
  rewrite (get_ref_name_ext remote1 remote) by done.
  destruct (get_ref_name remote refname true) as [N|] eqn:EN; [|discriminate].
  simpl. simpl in Hv. rewrite Hv. simpl. intros [= <-].
  exists r, local_ref, remote_refs, remote_objects, local_objects, N.
  repeat split; try done; simpl; [|by rewrite Hr1].
  intros oid. rewrite Hobj. apply decide_ext.
  by rewrite list_elem_of_difference, elem_of_remove_dups.
Qed.

Section PushOnSample.
Import Sample.

(** Every object file of the sample is named by a 40-digit id. *)
Lemma sample_store_ids oid : is_Some (store !! oid) → String.length oid = 40.
Proof.
  intros [obj H]. apply elem_of_list_to_map_2 in H.
  repeat (apply elem_of_cons in H as [[= -> _]|H]; [reflexivity|]).
  by apply elem_of_nil in H.
Qed.

(** The root [A] has no ancestor but itself. *)
Lemma sample_B_not_ancestor_of_A : ¬ ancestor (at_commit A) A B.
Proof.
  intros H. apply rtc_inv in H as [H|(y & (cm & Hcm & Hin) & _)]; [discriminate H|].
  vm_compute in Hcm. injection Hcm as <-. by apply elem_of_nil in Hin.
Qed.

(** A push that is not a fast-forward is rejected: the remote is at [B],
    the local branch at its parent [A]. *)
Example push_rejects_non_fast_forward :
  ¬ ancestor (at_commit A) A B
  ∧ ∃ e, e ≠ Unfinished
         ∧ push 2 (at_commit A) "refs/heads/master" (at_commit B) = (Raise e, at_commit B).
Proof.
  split; [exact sample_B_not_ancestor_of_A|].
  apply (push_to_remote_with_refs_raises 0 (at_commit A) "refs/heads/master" (at_commit B)
           [("HEAD", B); ("refs/heads/master", B)]);
    [exact sample_store_ids|reflexivity|discriminate].
Qed.

(** A push to a remote without refs copies the history of the branch. *)
Example push_to_empty_remote :
  transferred 30 (at_commit B) "refs/heads/master" empty_repo
    (push 30 (at_commit B) "refs/heads/master" empty_repo).2
  ∧ refs (push 30 (at_commit B) "refs/heads/master" empty_repo).2
    = {["refs/heads/master" := B]}
  ∧ dom (objects (push 30 (at_commit B) "refs/heads/master" empty_repo).2)
    = list_to_set [B; tB; f2; A; tA; f1].
Proof.
  split; [|split; vm_compute; reflexivity].
  apply push_returns_transferred. vm_compute. reflexivity.
Qed.

(** C5: a fast-forward push is rejected.  The remote branch is at [A] and
    the local branch at its child [B], so the remote value is an ancestor of
    the local one and the check has to pass; but [push] hands
    [is_ancestor_of] the id as a bare string and the whole dictionary
    [remote_refs] instead of the value [remote_ref], so the check raises
    [FileNotFoundError].  Nothing is copied and the remote ref stays at
    [A]. *)
Theorem push_rejects_fast_forward (fuel : nat) :
  ancestor (at_commit B) B A
  ∧ _get_remote_refs (at_commit A) "" = Ok [("HEAD", A); ("refs/heads/master", A)]
  ∧ push (S (S fuel)) (at_commit B) "refs/heads/master" (at_commit A)
    = (Raise FileNotFoundError, at_commit A).
Proof.
  split; [|split; reflexivity].
  apply rtc_once. exists (mkCommit tB [A] "B"). split; [reflexivity|]. by left.
Qed.

End PushOnSample.

(** ** Facts about the string functions *)

Lemma str_app_nil (b : string) : "" +:+ b = b.
Proof. reflexivity. Qed.

Lemma str_app_cons (x : ascii) (a b : string) : String x a +:+ b = String x (a +:+ b).
Proof. reflexivity. Qed.

Lemma str_app_assoc (a b c : string) : (a +:+ b) +:+ c = a +:+ (b +:+ c).
Proof.
  induction a as [|x a IH]; [reflexivity|]. by rewrite !str_app_cons, IH.
Qed.

Lemma str_app_empty_r (a : string) : a +:+ "" = a.
Proof. induction a as [|x a IH]; [reflexivity|]. by rewrite str_app_cons, IH. Qed.

Lemma forallb_app p (a b : string) :
  Str.forallb p (a +:+ b) = Str.forallb p a && Str.forallb p b.
Proof.
  induction a as [|x a IH]; [reflexivity|].
  rewrite str_app_cons. simpl. by rewrite IH, Bool.andb_assoc.
Qed.

Lemma no_linebreak_app a b : no_linebreak a → no_linebreak b → no_linebreak (a +:+ b).
Proof. unfold no_linebreak. rewrite forallb_app. by intros -> ->. Qed.

(** A line without boundaries, closed by a line feed, is the first line. *)
Lemma splitlines_line (l rest : string) :
  no_linebreak l →
  Str.splitlines (l +:+ Str.nl +:+ rest) = l :: Str.splitlines rest.
Proof.
  unfold no_linebreak. induction l as [|a l IH].
  - intros _. rewrite str_app_nil. unfold Str.nl. rewrite str_app_cons, str_app_nil.
    by destruct rest.
  - rewrite str_app_cons. simpl.
    intros [Ha Hl]%andb_prop. apply negb_true_iff in Ha. by rewrite Ha, (IH Hl).
Qed.


Lemma split_nonempty sep s : Str.split sep s ≠ [].
Proof.
  destruct s as [|a s]; simpl; [done|].
  destruct (Ascii.eqb a sep); [done|]. by destruct (Str.split sep s).
Qed.

(** Joining the pieces with the separator gives the string back. *)
Lemma join_split sep s : Str.join (String sep "") (Str.split sep s) = s.
Proof.
  unfold Str.join. induction s as [|a s IH]; [done|].
  simpl. pose proof (split_nonempty sep s) as Hne.
  destruct (Ascii.eqb a sep) eqn:Ea.
  - apply Ascii.eqb_eq in Ea as ->.
    destruct (Str.split sep s) as [|w ws]; [done|]. simpl in *.
    by rewrite IH, str_app_nil, str_app_cons, str_app_nil.
  - destruct (Str.split sep s) as [|w ws]; [done|].
    destruct ws; simpl in *; [by rewrite <- IH|]. by rewrite <- IH, str_app_cons.
Qed.

(** ** Commit objects are parsed back *)

Lemma splitlines_parents (parents : list string) (rest : string) :
  Forall no_linebreak parents →
  Str.splitlines (String.concat "" (map (λ p, ("parent " +:+ p) +:+ Str.nl) parents) +:+ rest)
  = map (λ p, "parent " +:+ p) parents ++ Str.splitlines rest.
Proof.
  induction 1 as [|p parents Hp _ IH]; [done|].
  assert (∀ (x : string) l, String.concat "" (x :: l) = x +:+ String.concat "" l) as Hc.
  { intros x [|y l]; simpl; [by rewrite str_app_empty_r|done]. }
  cbn [map]. rewrite Hc.
  rewrite (str_app_assoc (("parent " +:+ p) +:+ Str.nl)).
  rewrite (str_app_assoc ("parent " +:+ p) Str.nl).
  rewrite splitlines_line, IH; [done|].
  by apply (no_linebreak_app "parent ").
Qed.



Lemma parse_header_parent_line (p : string) rest tree acc :
  parse_header (("parent " +:+ p) :: rest) tree acc = parse_header rest tree (acc ++ [p]).
Proof. reflexivity. Qed.

Lemma parse_header_parents (parents rest : list string) (tree : option string)
  (acc : list string) :
  parse_header (map (λ p, "parent " +:+ p) parents ++ "" :: rest) tree acc
  = Ok (tree, acc ++ parents, rest).
Proof.
  revert acc. induction parents as [|p parents IH]; intros acc.
  - by rewrite app_nil_r.
  - cbn [map app]. by rewrite parse_header_parent_line, IH, <- app_assoc.
Qed.



Section CommitRoundTrip.
Variable hash : string → string.


End CommitRoundTrip.

(** ** The stand-in digest *)

Lemma plain_no_linebreak s : plain s → no_linebreak s.
Proof.
  unfold plain, no_linebreak. induction s as [|a s IH]; [done|]. simpl.
  intros [[-> _]%andb_prop Hs]%andb_prop. by rewrite IH.
Qed.

Lemma plain_without_space s : plain s → without " " s.
Proof.
  unfold plain, without. induction s as [|a s IH]; [done|]. simpl.
  intros [[_ ->%negb_true_iff]%andb_prop Hs]%andb_prop. by rewrite IH.
Qed.

Lemma toy_hex_plain s : plain (Toy.hex s).
Proof.
  unfold plain. induction s as [|a s IH]; [done|].
  cbn [Toy.hex Str.forallb]. rewrite IH.
  by destruct a as [[] [] [] [] [] [] [] []].
Qed.

Lemma toy_unhex_hex s : Toy.unhex (Toy.hex s) = s.
Proof.
  induction s as [|a s IH]; [done|].
  cbn [Toy.hex Toy.unhex]. rewrite IH. f_equal.
  by destruct a as [[] [] [] [] [] [] [] []].
Qed.

Lemma toy_digest_inj x y : Toy.digest x = Toy.digest y → x = y.
Proof.
  intros [= H]. by rewrite <- (toy_unhex_hex x), <- (toy_unhex_hex y), H.
Qed.

Lemma toy_digest_plain x : Str.truth (Toy.digest x) = true ∧ plain (Toy.digest x).
Proof. split; [done|]. apply (toy_hex_plain x). Qed.


(** ** Commit messages on examples *)



(** ** Dictionaries *)

Lemma dict_get_set_eq {V} k (v : V) d : Dict.get k (Dict.set k v d) = Some v.
Proof.
  induction d as [|[k' v'] d IH]; simpl; [by rewrite String.eqb_refl|].
  destruct (String.eqb k k') eqn:E; simpl; [by rewrite String.eqb_refl|by rewrite E].
Qed.

Lemma dict_get_set_ne {V} k k' (v : V) d :
  k' ≠ k → Dict.get k' (Dict.set k v d) = Dict.get k' d.
Proof.
  intros Hne. induction d as [|[k0 v0] d IH]; simpl.
  - by apply String.eqb_neq in Hne as ->.
  - destruct (String.eqb k k0) eqn:E; simpl; [|by rewrite IH].
    apply String.eqb_eq in E as <-. by apply String.eqb_neq in Hne as ->.
Qed.

Lemma dict_get_set {V} k k' (v : V) d :
  Dict.get k' (Dict.set k v d) = if decide (k' = k) then Some v else Dict.get k' d.
Proof.
  case_decide as H; [subst; apply dict_get_set_eq|by apply dict_get_set_ne].
Qed.

Lemma dict_get_None {V} k (d : pydict V) : k ∉ map fst d → Dict.get k d = None.
Proof.
  induction d as [|[k' v'] d IH]; simpl; [done|].
  intros H. apply not_elem_of_cons in H as [Hne Hd].
  apply String.eqb_neq in Hne as ->. by apply IH.
Qed.

Lemma dict_get_Some {V} k (v : V) d : Dict.get k d = Some v → (k, v) ∈ d.
Proof.
  induction d as [|[k' v'] d IH]; simpl; [done|].
  destruct (String.eqb k k') eqn:E.
  - apply String.eqb_eq in E as ->. intros [= ->]. by left.
  - intros H. right. by apply IH.
Qed.

Lemma dict_get_elem {V} k (v : V) d : NoDup (map fst d) → (k, v) ∈ d → Dict.get k d = Some v.
Proof.
  induction d as [|[k' v'] d IH]; simpl; [by intros _ ?%elem_of_nil|].
  intros [Hnin Hnd]%NoDup_cons [[= -> ->]|Hin]%elem_of_cons.
  - by rewrite String.eqb_refl.
  - destruct (String.eqb k k') eqn:E; [|by apply IH].
    apply String.eqb_eq in E as ->. destruct Hnin.
    apply list_elem_of_fmap. by exists (k', v).
Qed.

Lemma dict_set_keys {V} k (v : V) d :
  map fst (Dict.set k v d) = if decide (k ∈ map fst d) then map fst d else map fst d ++ [k].
Proof.
  induction d as [|[k' v'] d IH]; simpl; [done|].
  destruct (String.eqb k k') eqn:E; simpl.
  - apply String.eqb_eq in E as ->. rewrite decide_True; [done|by left].
  - apply String.eqb_neq in E. rewrite IH.
    destruct (decide (k ∈ map fst d)) as [Hin|Hnin].
    + rewrite decide_True; [done|by right].
    + rewrite decide_False; [done|]. by intros [?|?]%elem_of_cons.
Qed.

Lemma dict_set_NoDup {V} k (v : V) d : NoDup (map fst d) → NoDup (map fst (Dict.set k v d)).
Proof.
  intros H. rewrite dict_set_keys. case_decide as Hin; [done|].
  apply NoDup_app. split; [done|]. split; [|apply NoDup_singleton].
  intros x Hx ->%list_elem_of_singleton. done.
Qed.

Lemma dict_set_elem {V} k (v : V) d kv : kv ∈ Dict.set k v d → kv = (k, v) ∨ kv ∈ d.
Proof.
  induction d as [|[k' v'] d IH]; simpl.
  - intros ->%list_elem_of_singleton. by left.
  - destruct (String.eqb k k').
    + intros [->|H]%elem_of_cons; [by left|]. right. by right.
    + intros [->|H]%elem_of_cons; [right; by left|].
      destruct (IH H) as [->|?]; [by left|]. right. by right.
Qed.

Lemma dict_set_Forall {V} (P : string * V → Prop) k v d :
  P (k, v) → Forall P d → Forall P (Dict.set k v d).
Proof.
  intros Hkv Hd. apply Forall_forall. intros kv [->|Hin]%dict_set_elem; [done|].
  by eapply Forall_forall in Hd.
Qed.

Lemma dict_update_NoDup {V} (d other : pydict V) :
  NoDup (map fst d) → NoDup (map fst (Dict.update d other)).
Proof.
  unfold Dict.update. revert d. induction other as [|[k v] other IH]; intros d H; [done|].
  simpl. by apply IH, dict_set_NoDup.
Qed.

Lemma dict_get_update {V} k (d other : pydict V) :
  NoDup (map fst other) →
  Dict.get k (Dict.update d other)
  = match Dict.get k other with Some v => Some v | None => Dict.get k d end.
Proof.
  unfold Dict.update. revert d.
  induction other as [|[k' v'] other IH]; intros d Hnd; [done|].
  apply NoDup_cons in Hnd as [Hnin Hnd]. simpl. rewrite IH by done.
  rewrite dict_get_set. destruct (String.eqb k k') eqn:E.
  - apply String.eqb_eq in E as ->. rewrite dict_get_None by done. by rewrite decide_True.
  - apply String.eqb_neq in E. by rewrite decide_False.
Qed.

(** Dictionaries with the same items in another order. *)
Lemma dict_get_perm {V} k (d d' : pydict V) :
  NoDup (map fst d) → d ≡ₚ d' → Dict.get k d' = Dict.get k d.
Proof.
  intros Hnd Hp.
  assert (NoDup (map fst d')) as Hnd' by by rewrite <- Hp.
  destruct (Dict.get k d) as [v|] eqn:E.
  - apply dict_get_Some in E. apply dict_get_elem; [done|]. by rewrite <- Hp.
  - destruct (Dict.get k d') as [v'|] eqn:E'; [|done].
    apply dict_get_Some in E'. rewrite <- Hp in E'.
    apply (dict_get_elem _ _ _ Hnd) in E'. congruence.
Qed.

(** ** The nested dictionary that [write_tree] builds *)

Lemma strictly_below_prefix q p : strictly_below q p ↔ q `prefix_of` p ∧ p ≠ q.
Proof.
  split.
  - intros (r & Hr & ->). split; [by exists r|].
    intros H. rewrite <- (app_nil_r q) in H at 2. by apply app_inv_head in H.
  - intros [[r ->] Hne]. exists r. split; [|done]. intros ->. by rewrite app_nil_r in Hne.
Qed.

#[local] Instance strictly_below_dec q p : Decision (strictly_below q p).
Proof.
  destruct (decide (q `prefix_of` p ∧ p ≠ q)) as [H|H].
  - left. by apply strictly_below_prefix.
  - right. by rewrite strictly_below_prefix.
Defined.

Lemma tree_lookup_empty path : tree_lookup path [] = None.
Proof. by destruct path. Qed.

Lemma strictly_below_cons x q p : strictly_below (x :: q) (x :: p) ↔ strictly_below q p.
Proof.
  split; intros (r & Hr & Heq); exists r; (split; [done|]).
  - by injection Heq.
  - by rewrite Heq.
Qed.

Lemma strictly_below_head x y q p : strictly_below (x :: q) (y :: p) → y = x.
Proof. by intros (r & _ & [= -> _]). Qed.

(** After a successful insertion the new path is found, the paths below it
    are not, and every other path is found as before. *)
Lemma tree_insert_lookup dirpath filename oid :
  ∀ t t', tree_insert dirpath filename oid t = Ok t' →
  ∀ p, tree_lookup p t'
       = if decide (p = dirpath ++ [filename]) then Some oid
         else if decide (strictly_below (dirpath ++ [filename]) p) then None
         else tree_lookup p t.
Proof.
  assert (∀ dn ds t sub sub' name rest,
            Dict.get dn t = sub →
            (∀ p, tree_lookup p sub'
                  = if decide (p = ds ++ [filename]) then Some oid
                    else if decide (strictly_below (ds ++ [filename]) p) then None
                    else tree_lookup p (match sub with Some (Dir d) => d | _ => [] end)) →
            (∀ o, sub ≠ Some (Blob o)) →
            tree_lookup (name :: rest) (Dict.set dn (Dir sub') t)
            = if decide (name :: rest = (dn :: ds) ++ [filename]) then Some oid
              else if decide (strictly_below ((dn :: ds) ++ [filename]) (name :: rest))
                   then None
                   else tree_lookup (name :: rest) t) as Hstep.
  { intros dn ds t sub sub' name rest Eget Hsub Hdir. cbn [tree_lookup app].
    rewrite dict_get_set. destruct (decide (name = dn)) as [->|Hne].
    - rewrite Eget. destruct rest as [|r rest].
      + rewrite decide_False by by destruct ds.
        rewrite decide_False; [destruct sub as [[o|d]|]; [by destruct (Hdir o)|done..]|].
        intros (r & Hr & [= Heq]). by destruct ds.
      + rewrite Hsub.
        rewrite (decide_ext _ _ _ _ (strictly_below_cons dn (ds ++ [filename]) (r :: rest))).
        destruct (decide (r :: rest = ds ++ [filename])) as [->|Hne].
        { by rewrite decide_True. }
        rewrite (decide_False (P := dn :: r :: rest = _)) by congruence.
        case_decide; [done|]. destruct sub as [[o|d]|]; [by destruct (Hdir o)|done|].
        apply tree_lookup_empty.
    - rewrite decide_False by congruence. rewrite decide_False; [done|].
      by intros ?%strictly_below_head. }
  induction dirpath as [|dn ds IH]; intros t t'; simpl.
  - intros [= <-] [|name rest]; simpl; [done|].
    rewrite dict_get_set. destruct (decide (name = filename)) as [->|Hne].
    + destruct rest as [|r rest].
      * by rewrite decide_True.
      * rewrite decide_False by done. rewrite decide_True; [done|].
        by exists (r :: rest).
    + rewrite decide_False by congruence. rewrite decide_False; [done|].
      by intros ?%strictly_below_head.
  - destruct (Dict.get dn t) as [[o|sub]|] eqn:Eget; [discriminate|..].
    + destruct (tree_insert ds filename oid sub) as [sub'|] eqn:Esub; [|discriminate].
      simpl. intros [= <-] [|name rest]; [done|].
      by apply (Hstep dn ds t (Some (Dir sub)) sub' name rest Eget (IH _ _ Esub)).
    + destruct (tree_insert ds filename oid []) as [sub'|] eqn:Esub; [|discriminate].
      simpl. intros [= <-] [|name rest]; [done|].
      by apply (Hstep dn ds t None sub' name rest Eget (IH _ _ Esub)).
Qed.

(** The insertion fails only at a file met on the way down. *)
Lemma tree_insert_ok dirpath filename oid :
  ∀ t, (∀ p, strictly_below p (dirpath ++ [filename]) → tree_lookup p t = None) →
       ∃ t', tree_insert dirpath filename oid t = Ok t'.
Proof.
  induction dirpath as [|dn ds IH]; intros t Hfree; simpl; [by eexists|].
  cbn [app] in Hfree.
  assert (∀ sub, (∀ o, Dict.get dn t ≠ Some (Blob o)) →
                 (Dict.get dn t = Some (Dir sub) ∨ Dict.get dn t = None ∧ sub = []) →
                 ∃ sub', tree_insert ds filename oid sub = Ok sub') as Hsub.
  { intros sub Hnb Hget. apply IH. intros p Hp.
    destruct p as [|x p]; [done|].
    specialize (Hfree (dn :: x :: p)). rewrite strictly_below_cons in Hfree.
    specialize (Hfree Hp). simpl in Hfree.
    destruct Hget as [Hget|[Hget ->]]; [|apply tree_lookup_empty].
    by rewrite Hget in Hfree. }
  assert (∀ o, Dict.get dn t ≠ Some (Blob o)) as Hnb.
  { intros o Hget. specialize (Hfree [dn]). simpl in Hfree. rewrite Hget in Hfree.
    discriminate Hfree. exists (ds ++ [filename]). split; [by destruct ds|done]. }
  destruct (Dict.get dn t) as [[o|sub]|] eqn:Eget.
  - by destruct (Hnb o).
  - destruct (Hsub sub) as [sub' ->]; [done|by left|]. by eexists.
  - destruct (Hsub []) as [sub' ->]; [done|by right|]. by eexists.
Qed.

Lemma wf_Dir d :
  wf_node (Dir d)
  ↔ NoDup (map fst d) ∧ Forall (λ nv, name_ok nv.1 ∧ wf_node nv.2) d.
Proof.
  simpl. apply and_iff_compat_l. induction d as [|nv d IH]; simpl.
  - split; [by constructor|done].
  - rewrite Forall_cons, IH. tauto.
Qed.

Lemma tree_insert_wf dirpath filename oid :
  Forall name_ok dirpath → name_ok filename → plain oid →
  ∀ t t', wf_node (Dir t) → tree_insert dirpath filename oid t = Ok t' → wf_node (Dir t').
Proof.
  intros Hdirs Hf Ho. induction Hdirs as [|dn ds Hdn _ IH]; intros t t' Hwf; simpl.
  - intros [= <-]. apply wf_Dir in Hwf as [Hnd Hall]. apply wf_Dir.
    split; [by apply dict_set_NoDup|]. by apply dict_set_Forall.
  - pose proof Hwf as [Hnd Hall]%wf_Dir.
    assert (∀ sub sub', wf_node (Dir sub) → tree_insert ds filename oid sub = Ok sub' →
                        wf_node (Dir (Dict.set dn (Dir sub') t))) as Hset.
    { intros sub sub' Hsub Hins. apply wf_Dir.
      split; [by apply dict_set_NoDup|]. apply dict_set_Forall; [|done].
      split; [done|]. by eapply IH. }
    destruct (Dict.get dn t) as [[o|sub]|] eqn:Eget; [discriminate|..].
    + destruct (tree_insert ds filename oid sub) as [sub'|] eqn:Esub; [|discriminate].
      simpl. intros [= <-]. apply (Hset sub); [|done].
      apply dict_get_Some in Eget. eapply Forall_forall in Hall; [|done]. apply Hall.
    + destruct (tree_insert ds filename oid []) as [sub'|] eqn:Esub; [|discriminate].
      simpl. intros [= <-]. apply (Hset []); [|done]. apply wf_Dir. split; constructor.
Qed.

Lemma split_without sep s : Forall (without sep) (Str.split sep s).
Proof.
  unfold without. induction s as [|a s IH]; simpl; [by repeat constructor|].
  destruct (Ascii.eqb a sep) eqn:E; [by constructor|].
  destruct (Str.split sep s) as [|w ws]; [by repeat constructor; simpl; rewrite E|].
  apply Forall_cons in IH as [Hw Hws]. constructor; [|done]. simpl. by rewrite E, Hw.
Qed.

Lemma split_inj sep s s' : Str.split sep s = Str.split sep s' → s = s'.
Proof. intros H. by rewrite <- (join_split sep s), <- (join_split sep s'), H. Qed.

(** The components of a path, as [write_tree] splits it. *)
Lemma split_removelast_last sep s :
  List.removelast (Str.split sep s) ++ [List.last (Str.split sep s) ""] = Str.split sep s.
Proof. symmetry. apply app_removelast_last, split_nonempty. Qed.

Lemma index_as_tree_from_spec index :
  index_ok index →
  ∀ t0, wf_node (Dir t0) →
  (∀ p c, p ∈ map fst index → strictly_below c (Str.split "/" p) → tree_lookup c t0 = None) →
  (∀ p c, p ∈ map fst index → strictly_below (Str.split "/" p) c → tree_lookup c t0 = None) →
  ∃ t, index_as_tree_from index t0 = Ok t
       ∧ wf_node (Dir t)
       ∧ ∀ p, tree_lookup (Str.split "/" p) t
              = match Dict.get p index with
                | Some oid => Some oid
                | None => tree_lookup (Str.split "/" p) t0
                end.
Proof.
  induction index as [|[p0 o0] index IH]; intros (Hnd & Hall & Hpair) t0 Hwf Hup Hdown.
  { exists t0. split; [done|]. by split. }
  cbn [map fst] in Hnd. apply NoDup_cons in Hnd as [Hp0 Hnd].
  apply Forall_cons in Hall as [[Hc0 Ho0] Hall]. simpl in Hc0, Ho0.
  pose proof (split_removelast_last "/" p0) as Hsplit.
  destruct (tree_insert_ok (List.removelast (Str.split "/" p0))
              (List.last (Str.split "/" p0) "") o0 t0) as [t1 Hins].
  { rewrite Hsplit. intros c Hc. apply (Hup p0); [by left|done]. }
  pose proof (tree_insert_lookup _ _ _ _ _ Hins) as Hlook. rewrite Hsplit in Hlook.
  assert (Forall name_ok (Str.split "/" p0)) as Hnames.
  { pose proof (split_without "/" p0) as Hw.
    apply Forall_forall. intros n Hn. split.
    - by eapply Forall_forall in Hw.
    - by eapply Forall_forall in Hc0. }
  assert (wf_node (Dir t1)) as Hwf1.
  { rewrite <- Hsplit in Hnames. apply Forall_app in Hnames as [Hd Hf].
    apply Forall_inv in Hf. by eapply tree_insert_wf. }
  destruct (IH) with (t0 := t1) as (t & Hfrom & Hwft & Hfinal); [|done|..].
  - split; [done|]. split; [done|]. intros p q Hp Hq. apply Hpair; by right.
  - intros p c Hp Hc. rewrite Hlook.
    case_decide as E; [|case_decide; [done|]].
    + subst c. destruct (Hpair p0 p); [by left|by right|done].
    + apply (Hup p); [by right|done].
  - intros p c Hp Hc. rewrite Hlook.
    case_decide as E; [|case_decide; [done|]].
    + subst c. destruct (Hpair p p0); [by right|by left|done].
    + apply (Hdown p); [by right|done].
  - exists t. split; [simpl; by rewrite Hins|]. split; [done|].
    intros p. rewrite Hfinal. simpl. destruct (String.eqb p p0) eqn:E.
    + apply String.eqb_eq in E as ->. rewrite dict_get_None by done.
      rewrite Hlook. by rewrite decide_True.
    + apply String.eqb_neq in E. destruct (Dict.get p index); [done|].
      rewrite Hlook. rewrite decide_False by (intros ?%split_inj; done).
      case_decide as Hb; [|done]. symmetry. apply (Hdown p0); [by left|done].
Qed.

(** ** The objects that [write_tree_recursive] leaves in the store *)

Section Stored.
Variable hash : string → string.

Lemma stored_Dir s d :
  stored hash s (Dir d)
  ↔ objects s !! tree_oid hash d = Some ("tree" +:+ String Str.NUL (tree_text hash d))
    ∧ Forall (λ nv, stored hash s nv.2) d.
Proof.
  simpl. apply and_iff_compat_l. induction d as [|nv d IH]; simpl.
  - split; [by constructor|done].
  - rewrite Forall_cons, IH. tauto.
Qed.

Lemma keeps_trans s1 s2 s3 : keeps hash s1 s2 → keeps hash s2 s3 → keeps hash s1 s3.
Proof. unfold keeps. auto. Qed.

Lemma stored_keeps s s' v : keeps hash s s' → stored hash s v → stored hash s' v.
Proof.
  intros Hk. induction v as [o|d IH] using node_ind'; [done|].
  rewrite !stored_Dir. intros [Hobj Hall]. split; [by apply Hk|].
  apply Forall_forall. intros nv Hnv.
  eapply Forall_forall in IH; [|done]. eapply Forall_forall in Hall; [|done]. auto.
Qed.

Lemma put_keeps (x : string) s :
  (∀ x y, hash x = hash y → x = y) → keeps hash s (set_objects <[hash x := x]> s).
Proof.
  intros Hinj y Hy. simpl. destruct (decide (hash x = hash y)) as [E|E].
  - rewrite E, (Hinj _ _ E). apply lookup_insert_eq.
  - by rewrite lookup_insert_ne.
Qed.

Lemma write_tree_value_Dir d s s1 :
  write_tree_items (write_tree_value hash) d s = (Ok (entries_of hash d), s1) →
  write_tree_value hash (Dir d) s
  = (Ok (tree_oid hash d, "tree"),
     set_objects <[tree_oid hash d := "tree" +:+ String Str.NUL (tree_text hash d)]> s1).
Proof. intros H. simpl. unfold bind at 1. by rewrite H. Qed.

Lemma write_tree_items_stored d :
  (∀ x y, hash x = hash y → x = y) →
  Forall (λ nv, ∀ s s' r, write_tree_value hash nv.2 s = (r, s') →
                          keeps hash s s' ∧ stored hash s' nv.2) d →
  ∀ s s' r, write_tree_items (write_tree_value hash) d s = (r, s') →
            keeps hash s s' ∧ Forall (λ nv, stored hash s' nv.2) d.
Proof.
  intros Hinj. induction 1 as [|[name v] d Hv _ IH]; intros s s' r; simpl.
  - intros [= _ <-]. split; [by intros x|constructor].
  - unfold bind at 1. destruct (write_tree_value_spec hash v s) as (s1 & E1 & _).
    rewrite E1. destruct (Hv _ _ _ E1) as [K1 S1].
    destruct (node_entry hash v) as [oid type_].
    unfold bind at 1.
    destruct (write_tree_items (write_tree_value hash) d s1) as [r2 s2] eqn:E2.
    destruct (IH _ _ _ E2) as [K2 S2].
    assert (s2 = s' → keeps hash s s' ∧ Forall (λ nv, stored hash s' nv.2) ((name, v) :: d)) as Hgoal;
      [intros <-|destruct r2; intros [= _ E]; by apply Hgoal].
    split; [by eapply keeps_trans|]. constructor; [|done]. by eapply stored_keeps.
Qed.

Lemma write_tree_value_stored v :
  (∀ x y, hash x = hash y → x = y) →
  ∀ s s' r, write_tree_value hash v s = (r, s') → keeps hash s s' ∧ stored hash s' v.
Proof.
  intros Hinj. induction v as [o|d IH] using node_ind'; intros s s' r.
  - intros [= _ <-]. split; [by intros x|done].
  - destruct (write_tree_items_spec hash (write_tree_value hash) d) with (s := s)
      as (s1 & E1 & _).
    { apply Forall_forall. intros nv _. apply write_tree_value_spec. }
    rewrite (write_tree_value_Dir _ _ _ E1). intros [= _ <-].
    destruct (write_tree_items_stored d Hinj IH _ _ _ E1) as [K1 S1].
    pose proof (put_keeps ("tree" +:+ String Str.NUL (tree_text hash d)) s1 Hinj) as K2.
    split; [by eapply keeps_trans|]. apply stored_Dir. split.
    + simpl. apply lookup_insert_eq.
    + apply Forall_forall. intros nv Hnv. eapply Forall_forall in S1; [|done].
      by eapply stored_keeps.
Qed.

End Stored.

(** ** More on splitting *)

Lemma strip_prefix_Some pre s r : strip_prefix pre s = Some r ↔ s = pre +:+ r.
Proof.
  revert s. induction pre as [|a pre IH]; intros s; simpl.
  - rewrite ?str_app_nil. split; congruence.
  - rewrite ?str_app_cons. destruct s as [|b s]; [done|].
    destruct (Ascii.eqb a b) eqn:E.
    + apply Ascii.eqb_eq in E as ->. rewrite IH. split; congruence.
    + apply Ascii.eqb_neq in E. split; [done|]. congruence.
Qed.

Lemma strip_prefix_app pre1 pre2 s :
  strip_prefix (pre1 +:+ pre2) s
  = match strip_prefix pre1 s with Some r => strip_prefix pre2 r | None => None end.
Proof.
  revert s. induction pre1 as [|a pre1 IH]; intros s; [done|].
  rewrite ?str_app_cons. simpl. destruct s as [|b s]; [done|].
  destruct (Ascii.eqb a b); [apply IH|done].
Qed.

Lemma split_piece sep name rest :
  without sep name →
  Str.split sep (name +:+ String sep rest) = name :: Str.split sep rest.
Proof.
  unfold without. induction name as [|a name IH]; simpl.
  - intros _. rewrite ?str_app_nil. simpl. by rewrite Ascii.eqb_refl.
  - rewrite ?str_app_cons. simpl. intros [Ha Hn]%orb_false_elim. by rewrite Ha, IH.
Qed.

Lemma split_single sep name : without sep name → Str.split sep name = [name].
Proof.
  unfold without. induction name as [|a name IH]; simpl; [done|].
  intros [Ha Hn]%orb_false_elim. by rewrite Ha, IH.
Qed.

Lemma split_cons_inv sep s name more :
  Str.split sep s = name :: more → more ≠ [] →
  ∃ s', s = name +:+ String sep s' ∧ Str.split sep s' = more.
Proof.
  revert name. induction s as [|a s IH]; intros name; simpl.
  - by intros [= <- <-].
  - destruct (Ascii.eqb a sep) eqn:E.
    + apply Ascii.eqb_eq in E as ->. intros [= <- <-] _. by exists s.
    + destruct (Str.split sep s) as [|w ws] eqn:Es; [by intros [= <- <-]|].
      intros [= <- <-] Hne. destruct (IH w eq_refl Hne) as (s' & -> & Hs').
      exists s'. by rewrite ?str_app_cons.
Qed.

Lemma split_single_inv sep s name : Str.split sep s = [name] → s = name.
Proof. intros H. rewrite <- (join_split sep s), H. reflexivity. Qed.

Lemma splitn_piece sep n name rest :
  without sep name →
  Str.splitn sep (S n) (name +:+ String sep rest) = name :: Str.splitn sep n rest.
Proof.
  unfold without. induction name as [|a name IH].
  - intros _. rewrite ?str_app_nil. simpl. by rewrite Ascii.eqb_refl.
  - rewrite ?str_app_cons. intros [Ha Hn]%orb_false_elim.
    specialize (IH Hn). simpl in IH |- *. by rewrite Ha, IH.
Qed.

Lemma concat_cons (x : string) (l : list string) :
  String.concat "" (x :: l) = x +:+ String.concat "" l.
Proof. destruct l; simpl; [by rewrite str_app_empty_r|done]. Qed.

(** The lines of a text made of lines without boundaries. *)
Lemma splitlines_concat (ls : list string) :
  Forall no_linebreak ls →
  Str.splitlines (String.concat "" (map (λ l, l +:+ Str.nl) ls)) = ls.
Proof.
  induction 1 as [|l ls Hl _ IH]; [done|].
  cbn [map]. rewrite concat_cons, str_app_assoc, splitlines_line by done. by rewrite IH.
Qed.

(** ** Paths read from a nested dictionary *)

Lemma tree_lookup_head_other name v its n1 more :
  n1 ≠ name → tree_lookup (n1 :: more) ((name, v) :: its) = tree_lookup (n1 :: more) its.
Proof. intros H. simpl. by apply String.eqb_neq in H as ->. Qed.

Lemma tree_lookup_head_missing its n1 more :
  n1 ∉ map fst its → tree_lookup (n1 :: more) its = None.
Proof. intros H. simpl. by rewrite dict_get_None. Qed.

Lemma tree_lookup_perm c (d d' : pydict node) :
  NoDup (map fst d) → d ≡ₚ d' → tree_lookup c d' = tree_lookup c d.
Proof. intros Hnd Hp. destruct c as [|n c]; [done|]. simpl. by rewrite (dict_get_perm n d d'). Qed.

(** A file entry contributes its own path. *)
Lemma path_lookup_blob base name oid its p :
  without "/" name → name ∉ map fst its →
  path_lookup base ((name, Blob oid) :: its) p
  = if decide (p = base +:+ name) then Some oid else path_lookup base its p.
Proof.
  intros Hname Hnin. unfold path_lookup.
  destruct (strip_prefix base p) as [rest|] eqn:E.
  - apply strip_prefix_Some in E as ->.
    destruct (Str.split "/" rest) as [|n1 more] eqn:Es; [by destruct (split_nonempty "/" rest)|].
    destruct (decide (n1 = name)) as [->|Hne].
    + rewrite (tree_lookup_head_missing its) by done.
      simpl. rewrite String.eqb_refl. destruct more as [|m more].
      * apply split_single_inv in Es as ->. by rewrite decide_True.
      * rewrite decide_False; [done|]. intros ->%(inj (String.append base)).
        by rewrite split_single in Es.
    + rewrite tree_lookup_head_other by done. rewrite decide_False; [done|].
      intros ->%(inj (String.append base)). rewrite split_single in Es by done. congruence.
  - rewrite decide_False; [done|]. intros ->.
    by rewrite (proj2 (strip_prefix_Some base _ name)) in E.
Qed.

(** A directory entry contributes the paths of its dictionary, read one
    level down. *)
Lemma path_lookup_dir base name d' its p :
  without "/" name → name ∉ map fst its →
  path_lookup base ((name, Dir d') :: its) p
  = match path_lookup ((base +:+ name) +:+ "/") d' p with
    | Some oid => Some oid
    | None => path_lookup base its p
    end.
Proof.
  intros Hname Hnin. unfold path_lookup.
  rewrite str_app_assoc, strip_prefix_app.
  destruct (strip_prefix base p) as [rest|] eqn:E; [|done].
  destruct (strip_prefix (name +:+ "/") rest) as [rest'|] eqn:E'.
  - apply strip_prefix_Some in E'. rewrite str_app_assoc in E'. subst rest.
    change ("/" +:+ rest') with (String "/" rest').
    rewrite split_piece by done. rewrite (tree_lookup_head_missing its) by done.
    simpl. rewrite String.eqb_refl.
    destruct (Str.split "/" rest') eqn:Es; [by destruct (split_nonempty "/" rest')|].
    by destruct (tree_lookup _ d').
  - destruct (Str.split "/" rest) as [|n1 more] eqn:Es; [by destruct (split_nonempty "/" rest)|].
    destruct (decide (n1 = name)) as [->|Hne].
    + rewrite (tree_lookup_head_missing its) by done.
      simpl. rewrite String.eqb_refl. destruct more as [|m more]; [done|].
      apply split_cons_inv in Es as (s' & -> & _); [|done].
      rewrite (proj2 (strip_prefix_Some (name +:+ "/") _ s')) in E'; [done|].
      by rewrite str_app_assoc.
    + by rewrite tree_lookup_head_other.
Qed.

Lemma path_lookup_empty base p : path_lookup base [] p = None.
Proof. unfold path_lookup. destruct (strip_prefix base p); [apply tree_lookup_empty|done]. Qed.

Lemma path_lookup_missing_file base name its :
  without "/" name → name ∉ map fst its → path_lookup base its (base +:+ name) = None.
Proof.
  intros Hname Hnin. unfold path_lookup.
  rewrite (proj2 (strip_prefix_Some base _ name)) by done.
  rewrite split_single by done. by apply tree_lookup_head_missing.
Qed.

Lemma path_lookup_missing_dir base name d' its p oid :
  without "/" name → name ∉ map fst its →
  path_lookup ((base +:+ name) +:+ "/") d' p = Some oid →
  path_lookup base its p = None.
Proof.
  intros Hname Hnin. unfold path_lookup.
  destruct (strip_prefix _ p) as [rest'|] eqn:E; [|done]. intros _.
  apply strip_prefix_Some in E as ->. rewrite !str_app_assoc.
  rewrite (proj2 (strip_prefix_Some base _ (name +:+ "/" +:+ rest'))) by done.
  change ("/" +:+ rest') with (String "/" rest').
  rewrite split_piece by done. by apply tree_lookup_head_missing.
Qed.

(** ** Tree objects are parsed back *)

Lemma entry_line_text e : entry_line e = entry_text e +:+ Str.nl.
Proof. destruct e as [[n o] t]. unfold entry_line, entry_text. by rewrite !str_app_assoc. Qed.

Lemma parse_entry_text name oid type_ :
  without " " type_ → without " " oid →
  parse_entry (entry_text (name, oid, type_)) = Ok (type_, oid, name).
Proof.
  intros Ht Ho. unfold parse_entry, entry_text.
  change (" " +:+ oid +:+ " " +:+ name) with (String " " (oid +:+ String " " name)).
  by rewrite !splitn_piece.
Qed.

Section ReadBack.
Variable hash : string → string.

Lemma get_tree_entries_spec (get_subtree : string → string → result (pydict string))
  (base : string) (its : pydict node) :
  (∀ x, Str.truth (hash x) = true ∧ plain (hash x)) →
  NoDup (map fst its) →
  Forall (λ nv,
            name_ok nv.1
            ∧ match nv.2 with
              | Blob oid => plain oid
              | Dir d' =>
                  ∀ base', ∃ r, get_subtree (tree_oid hash d') base' = Ok r
                                ∧ NoDup (map fst r)
                                ∧ ∀ p, Dict.get p r = path_lookup base' d' p
              end) its →
  ∀ results,
    ∃ r, get_tree_entries get_subtree base (map entry_text (entries_of hash its)) results
         = Ok r
         ∧ (NoDup (map fst results) → NoDup (map fst r))
         ∧ ∀ p, Dict.get p r
                = match path_lookup base its p with
                  | Some oid => Some oid
                  | None => Dict.get p results
                  end.
Proof.
  intros Hhash. induction its as [|[name v] its IH]; intros Hnd Hall results.
  { exists results. split; [done|]. split; [done|]. intros p. by rewrite path_lookup_empty. }
  cbn [map fst] in Hnd. apply NoDup_cons in Hnd as [Hnin Hnd].
  apply Forall_cons in Hall as [[(Hslash & Hnl & Hdot & Hdotdot) Hv] Hall].
  cbn [fst snd] in *.
  assert (String.eqb name ".." || String.eqb name "." = false) as Hdots.
  { apply orb_false_intro; by apply String.eqb_neq. }
  destruct v as [oid|d'].
  - destruct (IH Hnd Hall (Dict.set (base +:+ name) oid results)) as (r & Hr & Hndr & Hget).
    exists r. split; [|split].
    + cbn [entries_of map node_entry fst snd get_tree_entries].
      rewrite parse_entry_text by (done || by apply plain_without_space).
      cbn [rbind]. rewrite Hslash, Hdots. exact Hr.
    + intros H. by apply Hndr, dict_set_NoDup.
    + intros p. rewrite Hget, path_lookup_blob, dict_get_set by done.
      case_decide as Hp; [|done]. subst p. by rewrite path_lookup_missing_file.
  - destruct (Hv ((base +:+ name) +:+ "/")) as (rsub & Hsub & Hndsub & Hgetsub).
    destruct (IH Hnd Hall (Dict.update results rsub)) as (r & Hr & Hndr & Hget).
    exists r. split; [|split].
    + cbn [entries_of map fst snd get_tree_entries]. rewrite node_entry_Dir. cbn [fst snd].
      rewrite parse_entry_text by (done || apply plain_without_space, Hhash).
      cbn [rbind]. rewrite Hslash, Hdots.
      change (String.eqb "tree" "blob") with false. change (String.eqb "tree" "tree") with true.
      cbn match. rewrite Hsub. exact Hr.
    + intros H. by apply Hndr, dict_update_NoDup.
    + intros p. rewrite Hget, path_lookup_dir, dict_get_update, Hgetsub by done.
      destruct (path_lookup ((base +:+ name) +:+ "/") d' p) as [o|] eqn:Esub; [|done].
      by rewrite (path_lookup_missing_dir _ _ _ _ _ _ Hslash Hnin Esub).
Qed.

End ReadBack.

Lemma height_elem nv d : nv ∈ d → height nv.2 < height (Dir d).
Proof.
  simpl. induction d as [|nv' d IH]; [by intros ?%elem_of_nil|].
  intros [->|Hin]%elem_of_cons; simpl; [lia|]. specialize (IH Hin). lia.
Qed.

Lemma entry_text_no_linebreak name oid type_ :
  no_linebreak type_ → no_linebreak oid → no_linebreak name →
  no_linebreak (entry_text (name, oid, type_)).
Proof.
  intros Ht Ho Hn. unfold entry_text.
  repeat (apply no_linebreak_app; [done|]). done.
Qed.

Section ReadStored.
Variable hash : string → string.

(** A stored, well-formed directory is read back by [get_tree], given
    enough depth, as the map from its paths to its blob ids. *)
Lemma get_tree_stored (s : repo) :
  (∀ x, Str.truth (hash x) = true ∧ plain (hash x)) →
  ∀ depth d base,
    wf_node (Dir d) → stored hash s (Dir d) → height (Dir d) ≤ depth →
    ∃ r, get_tree depth s (tree_oid hash d) base = Ok r
         ∧ NoDup (map fst r)
         ∧ ∀ p, Dict.get p r = path_lookup base d p.
Proof.
  intros Hhash. induction depth as [|depth IH]; intros d base Hwf Hst Hh.
  { simpl in Hh. lia. }
  apply wf_Dir in Hwf as [Hnd Hwf]. apply stored_Dir in Hst as [Hobj Hst].
  pose proof (EntrySort.Permuted_sort (entries_of hash d)) as Hperm.
  symmetry in Hperm. apply Permutation_map_inv in Hperm as (its & Hits & Hperm).
  assert (∀ nv, nv ∈ its → nv ∈ d) as Hin by (intros nv; by rewrite Hperm).
  assert (NoDup (map fst its)) as Hnd' by by rewrite <- Hperm.
  assert (Forall (λ nv,
            name_ok nv.1
            ∧ match nv.2 with
              | Blob oid => plain oid
              | Dir d' =>
                  ∀ base', ∃ r, get_tree depth s (tree_oid hash d') base' = Ok r
                                ∧ NoDup (map fst r)
                                ∧ ∀ p, Dict.get p r = path_lookup base' d' p
              end) its) as Hitems.
  { apply Forall_forall. intros [name v] Hnv%Hin.
    pose proof (proj1 (Forall_forall _ _) Hwf _ Hnv) as [Hname Hv].
    pose proof (proj1 (Forall_forall _ _) Hst _ Hnv) as Hs.
    pose proof (height_elem _ _ Hnv) as Hlt.
    split; [done|]. destruct v as [oid|d']; [done|].
    intros base'. apply IH; [done|done|]. simpl in Hlt, Hh |- *. lia. }
  assert (Forall no_linebreak (map entry_text (entries_of hash its))) as Hlines.
  { apply Forall_forall. intros l Hl.
    apply list_elem_of_fmap in Hl as ([[name oid] type_] & -> & He).
    apply list_elem_of_fmap in He as ([name' v] & [= -> -> ->] & Hnv%Hin).
    pose proof (proj1 (Forall_forall _ _) Hwf _ Hnv) as [(_ & Hnl & _) Hv].
    destruct v as [oid|d'].
    - apply entry_text_no_linebreak; [done|by apply plain_no_linebreak|done].
    - rewrite node_entry_Dir. apply entry_text_no_linebreak; [done| |done].
      apply plain_no_linebreak, Hhash. }
  destruct (get_tree_entries_spec hash (get_tree depth s) base its Hhash Hnd' Hitems [])
    as (r & Hr & Hndr & Hget).
  exists r. split; [|split].
  - cbn [get_tree]. unfold tree_lines, tree_oid at 1. rewrite (proj1 (Hhash _)). cbn [negb].
    fold (tree_oid hash d).
    unfold get_object. rewrite Hobj.
    change (Str.partition Str.NUL ("tree" +:+ String Str.NUL ?x)) with ("tree", x).
    cbn [rbind]. change (String.eqb "tree" "tree") with true. cbn [rbind].
    unfold tree_text, sorted. rewrite Hits. fold (entries_of hash its).
    replace (map entry_line (entries_of hash its))
      with (map (λ l, l +:+ Str.nl) (map entry_text (entries_of hash its))).
    2:{ rewrite map_map. apply map_ext. intros e. by rewrite entry_line_text. }
    by rewrite splitlines_concat.
  - apply Hndr. constructor.
  - intros p. rewrite Hget. unfold path_lookup.
    destruct (strip_prefix base p) as [rest|]; [|done].
    rewrite (tree_lookup_perm _ d its) by done. by destruct (tree_lookup _ d).
Qed.

End ReadStored.

(** ** [write_tree], then [get_tree] *)

Lemma height_Dir_le d m :
  height (Dir d) ≤ S m ↔ Forall (λ nv : string * node, height nv.2 ≤ m) d.
Proof.
  simpl. induction d as [|nv d IH]; simpl.
  - split; [constructor|lia].
  - rewrite Forall_cons, <- IH. lia.
Qed.

(** A file put [length dirpath] directories deep makes the nested
    dictionary no higher than that. *)
Lemma tree_insert_height dirpath filename oid :
  ∀ current t m,
    tree_insert dirpath filename oid current = Ok t →
    length dirpath ≤ m →
    Forall (λ nv : string * node, height nv.2 ≤ m) current →
    Forall (λ nv : string * node, height nv.2 ≤ m) t.
Proof.
  induction dirpath as [|dirname rest IH]; intros current t m; simpl.
  - intros [= <-] _ Hc. apply dict_set_Forall; [simpl; lia|done].
  - intros H Hm Hc. destruct m as [|m]; [lia|].
    destruct (Dict.get dirname current) as [[o|sub]|] eqn:E; [done| |].
    + destruct (tree_insert rest filename oid sub) as [sub'|] eqn:Es; [|done].
      injection H as <-. apply dict_set_Forall; [|done].
      cbn [snd]. apply height_Dir_le. apply (IH _ _ _ Es); [lia|].
      apply height_Dir_le. apply dict_get_Some in E.
      by apply (proj1 (Forall_forall _ _) Hc) in E.
    + destruct (tree_insert rest filename oid []) as [sub'|] eqn:Es; [|done].
      injection H as <-. apply dict_set_Forall; [|done].
      cbn [snd]. apply height_Dir_le. apply (IH _ _ _ Es); [lia|constructor].
Qed.

Lemma index_as_tree_from_height index :
  ∀ t0 t m,
    index_as_tree_from index t0 = Ok t →
    Forall (λ pv : string * string, length (Str.split "/" pv.1) ≤ S m) index →
    Forall (λ nv : string * node, height nv.2 ≤ m) t0 →
    Forall (λ nv : string * node, height nv.2 ≤ m) t.
Proof.
  induction index as [|[p o] index IH]; intros t0 t m; simpl.
  - by intros [= <-].
  - destruct (tree_insert _ _ o t0) as [t1|] eqn:E; [|done]. simpl.
    intros H [Hp Hall]%Forall_cons H0. apply (IH _ _ _ H Hall).
    apply (tree_insert_height _ _ _ _ _ _ E); [|done].
    cbn [fst] in Hp. rewrite removelast_firstn_len, length_take. lia.
Qed.

(** The nested dictionary of an index is as high as its longest path has
    components. *)
Lemma index_as_tree_height index t :
  index_as_tree_from index [] = Ok t →
  Forall (λ pv : string * string, length (Str.split "/" pv.1) ≤ recursion_limit) index →
  height (Dir t) ≤ recursion_limit.
Proof.
  intros H Hall. change recursion_limit with (S 999) in Hall |- *.
  apply height_Dir_le. by apply (index_as_tree_from_height index [] t 999 H Hall).
Qed.

Section RoundTrip.
Variable hash : string → string.

(** C7, amended: for an index whose paths are distinct, are made of
    components without a line boundary that are neither [.] nor [..], have
    no more components than the recursion limit, and of which none is a
    directory on the way to another, and whose blob ids contain neither a
    space nor a line boundary, [write_tree] returns a root tree id, and
    [get_tree] expands that id into a map with the same id for every path
    as the index, provided that the digest gives different ids to
    different contents, and ids that are not empty and free of spaces and
    line boundaries. *)
Theorem write_tree_get_tree_round_trip (s : repo) :
  (∀ x y, hash x = hash y → x = y) →
  (∀ x, Str.truth (hash x) = true ∧ plain (hash x)) →
  index_ok (default [] (index_file s)) →
  Forall (λ pv, length (Str.split "/" pv.1) ≤ recursion_limit) (default [] (index_file s)) →
  ∃ oid s' d,
    write_tree hash s = (Ok oid, s')
    ∧ get_tree recursion_limit s' oid "" = Ok d
    ∧ NoDup (map fst d)
    ∧ ∀ path, Dict.get path d = Dict.get path (default [] (index_file s)).
Proof.
  intros Hinj Hhash Hidx Hlen.
  destruct (index_as_tree_from_spec _ Hidx []) as (t & Hfrom & Hwf & Hfinal).
  { apply wf_Dir. split; constructor. }
  { intros. apply tree_lookup_empty. }
  { intros. apply tree_lookup_empty. }
  pose proof (index_as_tree_height _ _ Hfrom Hlen) as Hheight.
  set (s0 := set_index_file (Some (default [] (index_file s))) s).
  destruct (write_tree_recursive_spec hash t s0) as (s1 & E1 & _ & Ewr).
  pose proof (write_tree_value_Dir hash t s0 s1 E1) as Eval.
  destruct (write_tree_value_stored hash (Dir t) Hinj _ _ _ Eval) as [_ Hst].
  destruct (get_tree_stored hash _ Hhash recursion_limit t "" Hwf Hst Hheight)
    as (d & Hd & Hnd & Hget).
  eexists _, _, d. split; [|split; [exact Hd|split; [exact Hnd|]]].
  - rewrite write_tree_eq, Hfrom. exact Ewr.
  - intros path. rewrite Hget. unfold path_lookup. cbn [strip_prefix].
    rewrite Hfinal, tree_lookup_empty. by destruct (Dict.get path _).
Qed.

End RoundTrip.

Section RoundTripOnSample.
Import Sample.

Lemma staged_ok : index_ok staged.
Proof.
  split; [|split].
  - apply (bool_decide_unpack _). reflexivity.
  - repeat constructor; discriminate.
  - intros p q Hp Hq (r & Hr & Heq).
    repeat (apply elem_of_cons in Hp as [->|Hp]); [..|by apply elem_of_nil in Hp];
      (repeat (apply elem_of_cons in Hq as [->|Hq]); [..|by apply elem_of_nil in Hq]);
      cbv in Heq; congruence.
Qed.

Lemma write_tree_get_tree_round_trip_witness :
  ∃ oid s' d,
    write_tree Toy.digest (mkRepo ∅ ∅ (Some staged)) = (Ok oid, s')
    ∧ get_tree recursion_limit s' oid "" = Ok d
    ∧ NoDup (map fst d)
    ∧ ∀ path, Dict.get path d = Dict.get path staged.
Proof.
  apply (write_tree_get_tree_round_trip Toy.digest (mkRepo ∅ ∅ (Some staged))).
  - exact toy_digest_inj.
  - exact toy_digest_plain.
  - exact staged_ok.
  - unfold recursion_limit. repeat constructor; simpl; lia.
Defined.

(** On that index the map read back has the paths in the order of the
    sorted tree objects. *)
Example staged_read_back :
  let r := write_tree Toy.digest (mkRepo ∅ ∅ (Some staged)) in
  get_tree 3 r.2 (match r.1 with Ok oid => oid | Raise _ => "" end) ""
  = Ok [("a/b", f1); ("a/d/e", g1); ("c", f2)].
Proof. vm_compute. reflexivity. Qed.

(** C7, as stated, fails: the index below has two paths made of components
    without a separator, none of them [.] or [..], and [write_tree] raises
    [TypeError] on it, because [a] is a file where [a/b] needs a directory.
    Such an index arises when a file is replaced by a directory of the same
    name and both are added. *)
Lemma write_tree_file_and_directory :
  let index := [("a", f1); ("a/b", f2)] in
  NoDup (map fst index)
  ∧ Forall (λ pv, Forall (λ name, without "/" name ∧ name ≠ "." ∧ name ≠ "..")
                    (Str.split "/" pv.1)) index
  ∧ ∀ hash, (write_tree hash (mkRepo ∅ ∅ (Some index))).1 = Raise TypeError.
Proof.
  split; [|split].
  - apply (bool_decide_unpack _). reflexivity.
  - repeat constructor; discriminate.
  - intros hash. reflexivity.
Qed.

(** In the other order the file replaces the directory without an error,
    and the path [a/b] is lost. *)
Example write_tree_directory_then_file :
  let r := write_tree Toy.digest (mkRepo ∅ ∅ (Some [("a/b", f2); ("a", f1)])) in
  get_tree 3 r.2 (match r.1 with Ok oid => oid | Raise _ => "" end) "" = Ok [("a", f1)].
Proof. vm_compute. reflexivity. Qed.

(** A line feed in a file name splits the entry line in two, and the second
    part does not parse. *)
Example get_tree_name_with_line_feed :
  let r := write_tree Toy.digest
             (mkRepo ∅ ∅ (Some [(String "a" (String Str.LF "b"), f1)])) in
  is_ok r.1 = true
  ∧ get_tree 3 r.2 (match r.1 with Ok oid => oid | Raise _ => "" end) "" = Raise ValueError.
Proof. split; vm_compute; reflexivity. Qed.

End RoundTripOnSample.

(** * Stores, refs and history *)

(** ** The object store *)

Lemma partition_piece sep (a b : string) :
  without sep a → Str.partition sep (a +:+ String sep b) = (a, b).
Proof.
  unfold without. induction a as [|x a IH].
  - intros _. rewrite ?str_app_nil. simpl. by rewrite Ascii.eqb_refl.
  - rewrite ?str_app_cons. simpl. intros [Hx Ha]%orb_false_elim. by rewrite Hx, IH.
Qed.

Section ObjectStore.
Variable hash : string → string.

(** What is stored with [hash_object] is read back with [get_object] under
    the id returned: whole when the expected kind is the stored one or
    [None], and as an [AssertionError] when another kind is expected.  The
    kind is taken to contain no NUL, as the three kinds in use do. *)
Theorem hash_object_get_object (data type_ : string) (s : repo) :
  without Str.NUL type_ →
  ∃ oid s',
    hash_object hash data type_ s = (Ok oid, s')
    ∧ oid = hash (type_ +:+ String Str.NUL data)
    ∧ get_object s' oid (Some type_) = Ok data
    ∧ get_object s' oid None = Ok data
    ∧ (∀ other, other ≠ type_ → get_object s' oid (Some other) = Raise AssertionError)
    ∧ refs s' = refs s ∧ index_file s' = index_file s.
Proof.
  intros Htype. eexists _, _. split; [reflexivity|]. split; [reflexivity|].
  unfold get_object. cbn [objects set_objects]. rewrite lookup_insert_eq.
  rewrite partition_piece by done.
  repeat split.
  - by rewrite String.eqb_refl.
  - intros other Hne.
    assert (String.eqb type_ other = false) as -> by (apply String.eqb_neq; congruence).
    done.
Qed.

(** Storing the same data of the same kind again returns the same id and
    changes nothing; an object under another id is never touched. *)
Theorem hash_object_twice (data type_ : string) (s : repo) :
  let r := hash_object hash data type_ s in
  hash_object hash data type_ r.2 = r
  ∧ ∀ oid, Ok oid ≠ r.1 → objects r.2 !! oid = objects s !! oid.
Proof.
  split.
  - unfold hash_object, bind, modify, ret. cbn [fst snd]. f_equal.
    unfold set_objects. cbn [objects refs index_file]. by rewrite insert_insert_eq.
  - intros oid Hne. cbn. rewrite lookup_insert_ne; [done|]. intros <-. by apply Hne.
Qed.

End ObjectStore.

Lemma hash_object_get_object_witness :
  ∃ oid s',
    hash_object Toy.digest "one" "blob" empty_repo = (Ok oid, s')
    ∧ oid = Toy.digest ("blob" +:+ String Str.NUL "one")
    ∧ get_object s' oid (Some "blob") = Ok "one"
    ∧ get_object s' oid None = Ok "one"
    ∧ (∀ other, other ≠ "blob" → get_object s' oid (Some other) = Raise AssertionError)
    ∧ refs s' = refs empty_repo ∧ index_file s' = index_file empty_repo.
Proof. apply (hash_object_get_object Toy.digest "one" "blob" empty_repo). reflexivity. Defined.

(** Fetching an object that may be missing never changes an object that the
    local store has, nor any object under another id, nor refs or index;
    when it returns, the object is there, and fetching it again does
    nothing; when it raises, nothing was changed. *)
Theorem fetch_object_if_missing_twice (oid : string) (remote s : repo) :
  object_name oid = true →
  let r := fetch_object_if_missing oid remote s in
  (∀ o, o ≠ oid ∨ is_Some (objects s !! o) → objects r.2 !! o = objects s !! o)
  ∧ (is_ok r.1 = true →
     object_exists r.2 oid = true ∧ fetch_object_if_missing oid remote r.2 = (Ok tt, r.2))
  ∧ (is_ok r.1 = false → r.2 = s)
  ∧ refs r.2 = refs s ∧ index_file r.2 = index_file s.
Proof.
  intros _. unfold fetch_object_if_missing.
  destruct (object_exists s oid) eqn:Ex; cbn [fst snd].
  { rewrite Ex. by repeat split. }
  destruct (objects remote !! oid) as [obj|]; cbn [fst snd]; [|by repeat split].
  assert (object_exists (set_objects <[oid := obj]> s) oid = true) as Ex'.
  { unfold object_exists. cbn [objects set_objects].
    rewrite lookup_insert_eq, bool_decide_eq_true_2 by eauto. apply orb_true_r. }
  rewrite Ex'. split; [|by repeat split].
  intros o [Hne|Ho]; cbn [objects set_objects].
  - by rewrite lookup_insert_ne.
  - rewrite lookup_insert_ne; [done|]. intros <-.
    unfold object_exists in Ex. apply orb_false_elim in Ex as [_ Ex].
    by apply bool_decide_eq_false in Ex.
Qed.

Lemma fetch_object_if_missing_twice_witness :
  let r := fetch_object_if_missing Sample.A (Sample.at_commit Sample.A) empty_repo in
  (∀ o, o ≠ Sample.A ∨ is_Some (objects empty_repo !! o)
        → objects r.2 !! o = objects empty_repo !! o)
  ∧ (is_ok r.1 = true →
     object_exists r.2 Sample.A = true
     ∧ fetch_object_if_missing Sample.A (Sample.at_commit Sample.A) r.2 = (Ok tt, r.2))
  ∧ (is_ok r.1 = false → r.2 = empty_repo)
  ∧ refs r.2 = refs empty_repo ∧ index_file r.2 = index_file empty_repo.
Proof.
  apply (fetch_object_if_missing_twice Sample.A (Sample.at_commit Sample.A) empty_repo).
  reflexivity.
Defined.

(** ** The ref store *)

Lemma keys_of_refs (m : gmap string string) k :
  k ∈ map fst (map_to_list m) ↔ is_Some (m !! k).
Proof.
  rewrite list_elem_of_fmap. split.
  - intros ([k' v] & -> & H%elem_of_map_to_list). by exists v.
  - intros [v H]. exists (k, v). split; [done|]. by apply elem_of_map_to_list.
Qed.

Lemma forallb_elem_of {A} (f : A → bool) (l : list A) :
  forallb f l = true ↔ ∀ x, x ∈ l → f x = true.
Proof.
  rewrite forallb_forall. split; intros H x Hx; apply H; by apply list_elem_of_In.
Qed.

Lemma refs_wf_spec s :
  refs_wf s = true
  ↔ (∀ k, is_Some (refs s !! k) → ref_path k = true)
    ∧ (∀ k k', is_Some (refs s !! k) → is_Some (refs s !! k') → below k k' = false).
Proof.
  unfold refs_wf. rewrite forallb_elem_of. split.
  - intros H. split.
    + intros k Hk%keys_of_refs. by apply H, andb_true_iff in Hk as [? _].
    + intros k k' Hk%keys_of_refs Hk'%keys_of_refs.
      apply H, andb_true_iff in Hk as [_ Hk]. rewrite forallb_elem_of in Hk.
      by apply Hk, negb_true_iff in Hk'.
  - intros [Hp Hb] k Hk%keys_of_refs. apply andb_true_iff. split; [by apply Hp|].
    apply forallb_elem_of. intros k' Hk'%keys_of_refs. apply negb_true_iff. by apply Hb.
Qed.

Lemma ref_free_spec s name :
  ref_free s name = true
  ↔ ref_path name = true
    ∧ ∀ k, is_Some (refs s !! k) → below k name = false ∧ below name k = false.
Proof.
  unfold ref_free. rewrite andb_true_iff, forallb_elem_of. split.
  - intros [Hp H]. split; [done|]. intros k Hk%keys_of_refs.
    apply H, andb_true_iff in Hk as [H1 H2]. by rewrite negb_true_iff in H1, H2.
  - intros [Hp H]. split; [done|]. intros k Hk%keys_of_refs.
    destruct (H k Hk) as [H1 H2]. by rewrite H1, H2.
Qed.

Lemma dir_of_irrefl q : dir_of q q = false.
Proof. induction q as [|c q IH]; [done|]. simpl. by rewrite IH, andb_false_r. Qed.

(** Writing a file where it is free keeps the names a directory tree. *)
Lemma refs_wf_insert s name v :
  refs_wf s = true → ref_free s name = true →
  refs_wf (set_refs <[name := v]> s) = true.
Proof.
  rewrite !refs_wf_spec, ref_free_spec. intros [Hp Hb] [Hn Hfree].
  cbn [refs set_refs]. split.
  - intros k [->|[_ Hk]]%lookup_insert_is_Some; [done|by apply Hp].
  - intros k k' [->|[_ Hk]]%lookup_insert_is_Some [->|[_ Hk']]%lookup_insert_is_Some.
    + apply dir_of_irrefl.
    + by apply Hfree.
    + by apply Hfree.
    + by apply Hb.
Qed.

(** Removing a file keeps them one. *)
Lemma refs_wf_delete s name :
  refs_wf s = true → refs_wf (set_refs (delete name) s) = true.
Proof.
  rewrite !refs_wf_spec. intros [Hp Hb]. cbn [refs set_refs]. split.
  - intros k [_ Hk]%lookup_delete_is_Some. by apply Hp.
  - intros k k' [_ Hk]%lookup_delete_is_Some [_ Hk']%lookup_delete_is_Some. by apply Hb.
Qed.

Lemma rstrip_no_white v : no_white v → Str.rstrip v = v.
Proof.
  unfold no_white. induction v as [|a v IH]; [done|]. simpl.
  intros [Ha Hv]%andb_prop. apply negb_true_iff in Ha. rewrite (IH Hv), Ha.
  by destruct v.
Qed.

Lemma strip_no_white v : no_white v → Str.strip v = v.
Proof.
  intros H. unfold Str.strip.
  assert (Str.lstrip v = v) as ->; [|by apply rstrip_no_white].
  destruct v as [|a v]; [done|]. simpl.
  unfold no_white in H. simpl in H. apply andb_prop in H as [Ha _].
  apply negb_true_iff in Ha. by rewrite Ha.
Qed.

Lemma rstrip_cons a s x t :
  Str.rstrip s = String x t → Str.rstrip (String a s) = String a (String x t).
Proof. intros H. simpl. by rewrite H. Qed.

(** The text of a symbolic ref is kept whole by [strip]. *)
Lemma strip_symbolic b :
  no_white b → Str.truth b = true → Str.strip ("ref: " +:+ b) = "ref: " +:+ b.
Proof.
  intros Hb Ht. unfold Str.strip.
  change (Str.lstrip ("ref: " +:+ b)) with ("ref: " +:+ b).
  destruct b as [|x b]; [discriminate|].
  change ("ref: " +:+ String x b)
    with (String "r" (String "e" (String "f" (String ":" (String " " (String x b)))))).
  by do 5 (apply rstrip_cons); apply rstrip_no_white.
Qed.

(** A ref file that holds a direct value is read as that value. *)
Lemma get_ref_internal_direct depth s ref deref v :
  refs s !! ref = Some v → direct_value v →
  _get_ref_internal (S depth) s ref deref = Ok (ref, mkRef false (Some v)).
Proof.
  intros Hfile (Ht & Hw & Hs). unfold _get_ref_internal. rewrite Hfile.
  simpl. rewrite strip_no_white by done. by rewrite Ht, Hs.
Qed.

(** A symbolic ref is followed to the ref it names. *)
Lemma get_ref_internal_symbolic depth s ref b :
  refs s !! ref = Some ("ref: " +:+ b) → no_white b → Str.truth b = true →
  _get_ref_internal (S depth) s ref true = _get_ref_internal depth s b true
  ∧ _get_ref_internal (S depth) s ref false
    = Ok (ref, mkRef true (Some ("ref: " +:+ b))).
Proof.
  intros Hfile Hw Ht.
  assert (Str.strip (String " " b) = b) as Hinner.
  { unfold Str.strip. change (Str.lstrip (String " " b)) with (Str.lstrip b).
    fold (Str.strip b). by apply strip_no_white. }
  unfold _get_ref_internal; fold _get_ref_internal. rewrite Hfile.
  change (Str.strip <$> Some ("ref: " +:+ b)) with (Some (Str.strip ("ref: " +:+ b))).
  rewrite strip_symbolic by done.
  change (default "" (Some ("ref: " +:+ b))) with ("ref: " +:+ b).
  change (truthy (Some ("ref: " +:+ b))) with true.
  change (Str.startswith "ref:" ("ref: " +:+ b)) with true.
  change (Str.splitn ":" 1 ("ref: " +:+ b)) with ["ref"; String " " b].
  cbn [andb nth]. by rewrite Hinner.
Qed.

(** After a write under the name that [ref] resolves to, [ref] resolves to
    the value written. *)
Lemma get_ref_internal_after_write depth s ref N rv v :
  _get_ref_internal depth s ref true = Ok (N, rv) → direct_value v →
  _get_ref_internal depth (set_refs <[N := v]> s) ref true = Ok (N, mkRef false (Some v)).
Proof.
  intros H Hv. revert ref H. induction depth as [|depth IH]; intros ref H; [done|].
  destruct (decide (ref = N)) as [->|Hne].
  { apply get_ref_internal_direct; [|done]. apply lookup_insert_eq. }
  unfold _get_ref_internal in H |- *; fold _get_ref_internal in H |- *.
  cbn [refs set_refs]. rewrite lookup_insert_ne by done.
  destruct (_ && true); [by apply IH|]. by injection H.
Qed.

Lemma update_ref_direct s ref N v :
  get_ref_name s ref true = Ok N → direct_value v →
  update_ref ref (mkRef false (Some v)) true s = (Ok tt, set_refs <[N := v]> s)
  ∧ get_ref (set_refs <[N := v]> s) ref true = Ok (mkRef false (Some v)).
Proof.
  intros HN Hv. unfold update_ref, bind, reading. rewrite HN. cbn [truthy value].
  pose proof Hv as (Ht & _). rewrite Ht. cbn [negb]. split; [reflexivity|].
  unfold get_ref_name in HN. unfold get_ref.
  destruct (_get_ref_internal recursion_limit s ref true) as [[N' rv]|] eqn:E; [|done].
  injection HN as ->. by rewrite (get_ref_internal_after_write _ _ _ _ _ _ E Hv).
Qed.

Lemma update_ref_no_value s ref N :
  get_ref_name s ref true = Ok N →
  update_ref ref (mkRef false None) true s = (Raise AssertionError, s).
Proof. intros HN. unfold update_ref, bind, reading. by rewrite HN. Qed.

(** Writing a direct value through a ref and reading the ref back gives the
    value: [update_ref] with [deref] writes the file of the last ref of the
    symbolic chain, leaves every other ref file, the objects and the index
    as they are, and [get_ref] then resolves the ref to the value written.
    An empty value is refused with [AssertionError] and nothing is
    written.  The names read are ref files, and the file written is free. *)
Theorem update_ref_then_get_ref (s : repo) (ref N v : string) :
  refs_wf s = true →
  forallb ref_path (ref_chain recursion_limit s ref) = true →
  get_ref_name s ref true = Ok N →
  ref_free s N = true →
  direct_value v →
  (∃ s', update_ref ref (mkRef false (Some v)) true s = (Ok tt, s')
         ∧ refs s' = <[N := v]> (refs s)
         ∧ objects s' = objects s ∧ index_file s' = index_file s
         ∧ refs_wf s' = true
         ∧ get_ref s' ref true = Ok (mkRef false (Some v)))
  ∧ update_ref ref (mkRef false (Some "")) true s = (Raise AssertionError, s)
  ∧ update_ref ref (mkRef false None) true s = (Raise AssertionError, s).
Proof.
  intros Hwf _ HN Hfree Hv. destruct (update_ref_direct s ref N v HN Hv) as [Hup Hget].
  split; [|split].
  - exists (set_refs <[N := v]> s). repeat split; try done. by apply refs_wf_insert.
  - unfold update_ref, bind, reading. by rewrite HN.
  - by apply (update_ref_no_value s ref N).
Qed.

Lemma update_ref_then_get_ref_witness :
  let s := Sample.at_commit Sample.A in
  (∃ s', update_ref "HEAD" (mkRef false (Some Sample.B)) true s = (Ok tt, s')
         ∧ refs s' = <["refs/heads/master" := Sample.B]> (refs s)
         ∧ objects s' = objects s ∧ index_file s' = index_file s
         ∧ refs_wf s' = true
         ∧ get_ref s' "HEAD" true = Ok (mkRef false (Some Sample.B)))
  ∧ update_ref "HEAD" (mkRef false (Some "")) true s = (Raise AssertionError, s)
  ∧ update_ref "HEAD" (mkRef false None) true s = (Raise AssertionError, s).
Proof.
  apply (update_ref_then_get_ref (Sample.at_commit Sample.A) "HEAD" "refs/heads/master"
           Sample.B).
  - vm_compute. reflexivity.
  - vm_compute. reflexivity.
  - reflexivity.
  - vm_compute. reflexivity.
  - repeat split; reflexivity.
Defined.

(** Without [deref] a name resolves to itself. *)
Lemma get_ref_internal_noderef depth s ref :
  ∃ rv, _get_ref_internal (S depth) s ref false = Ok (ref, rv)
        ∧ value rv = Str.strip <$> refs s !! ref
        ∧ (symbolic rv = true →
           ∃ v, value rv = Some v ∧ Str.startswith "ref:" v = true).
Proof.
  unfold _get_ref_internal. rewrite andb_false_r. eexists. split; [reflexivity|].
  split; [reflexivity|]. cbn [symbolic value].
  destruct (Str.strip <$> refs s !! ref) as [v|]; [|done].
  intros [_ H]%andb_prop. by exists v.
Qed.

Lemma get_ref_name_noderef s ref : get_ref_name s ref false = Ok ref.
Proof.
  unfold get_ref_name, recursion_limit.
  destruct (get_ref_internal_noderef 999 s ref) as (rv & -> & _). done.
Qed.

(** [delete_ref] without [deref] removes the file of the ref it is given
    and nothing else, after which the ref reads as unset. *)
Theorem delete_ref_then_get_ref (s : repo) (ref v : string) :
  refs_wf s = true →
  ref_path ref = true →
  refs s !! ref = Some v →
  ∃ s', delete_ref ref false s = (Ok tt, s')
        ∧ refs s' = delete ref (refs s)
        ∧ objects s' = objects s ∧ index_file s' = index_file s
        ∧ refs_wf s' = true
        ∧ ∀ deref, get_ref s' ref deref = Ok (mkRef false None).
Proof.
  intros Hwf _ E. unfold delete_ref, bind, reading. rewrite get_ref_name_noderef, E.
  eexists. split; [reflexivity|]. repeat split.
  - by apply refs_wf_delete.
  - intros deref. unfold get_ref, recursion_limit.
    rewrite (get_ref_internal_missing 999); [done|]. apply lookup_delete_eq.
Qed.

Lemma delete_ref_then_get_ref_witness :
  ∃ s', delete_ref "MERGE_HEAD" false Sample.merging = (Ok tt, s')
        ∧ refs s' = delete "MERGE_HEAD" (refs Sample.merging)
        ∧ objects s' = objects Sample.merging ∧ index_file s' = index_file Sample.merging
        ∧ refs_wf s' = true
        ∧ ∀ deref, get_ref s' "MERGE_HEAD" deref = Ok (mkRef false None).
Proof.
  apply (delete_ref_then_get_ref Sample.merging "MERGE_HEAD" Sample.C).
  - vm_compute. reflexivity.
  - vm_compute. reflexivity.
  - reflexivity.
Defined.

(** [iter_refs] yields exactly the names among [HEAD], [MERGE_HEAD] and the
    files under [refs/] that start with the prefix and resolve to a
    non-empty value, each with the value it resolves to; the two singletons
    are filtered by the prefix like the others. *)
Theorem iter_refs_exact (s : repo) (prefix : string) (deref : bool) (l : pydict RefValue) :
  iter_refs s prefix deref = Ok l →
  ∀ name r,
    (name, r) ∈ l
    ↔ name ∈ ref_names s ∧ Str.startswith prefix name = true
      ∧ get_ref s name deref = Ok r ∧ truthy (value r) = true.
Proof.
  unfold iter_refs. generalize (ref_names s) as names. intros names. revert l.
  induction names as [|n names IH]; intros l; simpl.
  - intros [= <-] name r. split; [by intros ?%elem_of_nil|]. by intros [?%elem_of_nil _].
  - destruct (Str.startswith prefix n) eqn:Ep; simpl.
    + destruct (get_ref s n deref) as [rn|] eqn:En; [|discriminate]. simpl.
      destruct (iter_refs_from s prefix deref names) as [more|]; [|discriminate]. simpl.
      intros [= <-] name r. specialize (IH more eq_refl name r).
      destruct (truthy (value rn)) eqn:Et.
      * rewrite !elem_of_cons, IH. split.
        { intros [[= -> ->]|H]; [by auto|]. tauto. }
        intros ([->|H] & ? & ? & ?); [|tauto]. left. congruence.
      * rewrite IH, elem_of_cons. split; [tauto|].
        intros ([->|H] & ? & ? & ?); [|tauto]. congruence.
    + intros H name r. rewrite (IH l H name r), elem_of_cons. split; [tauto|].
      intros ([->|H'] & ? & ? & ?); [congruence|tauto].
Qed.

Lemma iter_refs_exact_witness :
  iter_refs (Sample.at_commit Sample.B) "refs/heads/" true
  = Ok [("refs/heads/master", mkRef false (Some Sample.B))]
  ∧ ∀ name r,
      (name, r) ∈ [("refs/heads/master", mkRef false (Some Sample.B))]
      ↔ name ∈ ref_names (Sample.at_commit Sample.B)
        ∧ Str.startswith "refs/heads/" name = true
        ∧ get_ref (Sample.at_commit Sample.B) name true = Ok r ∧ truthy (value r) = true.
Proof.
  split; [reflexivity|].
  apply (iter_refs_exact (Sample.at_commit Sample.B) "refs/heads/" true). reflexivity.
Defined.

(** ** Names and branches *)

Lemma prefix_cons a p b s :
  String.prefix (String a p) (String b s)
  = if ascii_dec a b then String.prefix p s else false.
Proof. reflexivity. Qed.

Lemma startswith_ref_not_refs v :
  Str.startswith "ref:" v = true → Str.startswith "refs/heads" v = false.
Proof.
  unfold Str.startswith. intros H.
  repeat (destruct v as [|? v]; [discriminate H|];
          rewrite prefix_cons in H; destruct (ascii_dec _ _) as [<-|]; [|discriminate H]).
  reflexivity.
Qed.

(** [get_branch_name] returns no branch name: it gives [None] when [HEAD] is
    not symbolic, and when [HEAD] is symbolic it raises [AssertionError],
    because the value it then tests for the prefix [refs/heads] is the text
    of the ref file, which starts with [ref:]. *)
Theorem get_branch_name_never_names (relpath : string → string → string) (s : repo) :
  ∃ HEAD, get_ref s "HEAD" false = Ok HEAD
          ∧ get_branch_name relpath s
            = if symbolic HEAD then Raise AssertionError else Ok None.
Proof.
  unfold get_branch_name, get_ref, recursion_limit.
  destruct (get_ref_internal_noderef 999 s "HEAD") as (rv & -> & _ & Hsym).
  exists rv. split; [done|]. cbn [rbind snd].
  destruct (symbolic rv); [|done]. destruct Hsym as (v & -> & Hv); [done|].
  simpl. by rewrite (startswith_ref_not_refs v Hv).
Qed.

Lemma on_branch_resolves s b :
  on_branch s b →
  get_ref_name s "HEAD" true = Ok b
  ∧ get_ref s "HEAD" true
    = Ok (mkRef false (refs s !! b)).
Proof.
  intros (Hhead & Hw & Ht & Hb). unfold get_ref_name, get_ref, recursion_limit.
  rewrite (proj1 (get_ref_internal_symbolic 999 s "HEAD" b Hhead Hw Ht)).
  destruct Hb as [Hb|(v & Hb & Hv)].
  - by rewrite (get_ref_internal_missing 998), Hb.
  - by rewrite (get_ref_internal_direct 998 s b true v), Hb.
Qed.



(** [create_branch] of a name without a branch, where the file of the
    branch is free, writes the branch ref and no other, after which
    [is_branch] holds for the name; given [None] for the id, as [get_oid]
    returns it for a [HEAD] without commits, it raises [AssertionError] and
    writes nothing. *)
Theorem create_branch_then_is_branch (s : repo) (name v : string) :
  refs_wf s = true →
  ref_free s ("refs/heads/" +:+ name) = true →
  refs s !! ("refs/heads/" +:+ name) = None →
  direct_value v →
  is_branch s name = Ok false
  ∧ create_branch name None s = (Raise AssertionError, s)
  ∧ ∃ s', create_branch name (Some v) s = (Ok tt, s')
          ∧ refs s' = <["refs/heads/" +:+ name := v]> (refs s)
          ∧ refs_wf s' = true
          ∧ is_branch s' name = Ok true
          ∧ get_ref s' ("refs/heads/" +:+ name) true = Ok (mkRef false (Some v)).
Proof.
  intros Hwf Hfree Hnew Hv.
  pose proof (get_ref_name_missing s _ true Hnew) as HN.
  destruct (update_ref_direct s _ _ v HN Hv) as [Hup Hget].
  split; [|split; [exact (update_ref_no_value s _ _ HN)|]].
  - unfold is_branch, get_ref, recursion_limit.
    by rewrite (get_ref_internal_missing 999).
  - eexists. split; [exact Hup|]. split; [done|]. split; [by apply refs_wf_insert|].
    split; [|done]. unfold is_branch. by rewrite Hget.
Qed.

Lemma create_branch_then_is_branch_witness :
  is_branch (Sample.at_commit Sample.B) "topic" = Ok false
  ∧ create_branch "topic" None (Sample.at_commit Sample.B)
    = (Raise AssertionError, Sample.at_commit Sample.B)
  ∧ ∃ s', create_branch "topic" (Some Sample.A) (Sample.at_commit Sample.B) = (Ok tt, s')
          ∧ refs s' = <["refs/heads/" +:+ "topic" := Sample.A]>
                        (refs (Sample.at_commit Sample.B))
          ∧ refs_wf s' = true
          ∧ is_branch s' "topic" = Ok true
          ∧ get_ref s' ("refs/heads/" +:+ "topic") true = Ok (mkRef false (Some Sample.A)).
Proof.
  apply (create_branch_then_is_branch (Sample.at_commit Sample.B) "topic" Sample.A).
  - vm_compute. reflexivity.
  - vm_compute. reflexivity.
  - reflexivity.
  - repeat split; reflexivity.
Defined.

(** ** Resolving a name *)

Lemma get_oid_refs_missing s pre rest :
  (∀ r, r ∈ pre → refs s !! r = None) →
  get_oid_refs s (pre ++ rest) = get_oid_refs s rest.
Proof.
  induction pre as [|r pre IH]; intros Hpre; [done|]. cbn [app get_oid_refs].
  unfold get_ref, recursion_limit.
  rewrite (get_ref_internal_missing 999) by (apply Hpre; by left).
  cbn. apply IH. intros r' Hr'. apply Hpre. by right.
Qed.

Lemma get_oid_refs_direct s ref rest v :
  refs s !! ref = Some v → direct_value v →
  get_oid_refs s (ref :: rest) = Ok (Some (Some v)).
Proof.
  intros Hfile Hv. cbn [get_oid_refs]. unfold get_ref, recursion_limit.
  rewrite !(get_ref_internal_direct 999 s ref _ v) by done.
  cbn. by destruct Hv as (-> & _).
Qed.

(** [get_oid] resolves a name to the value of the first of its candidates
    that has a ref file: the name itself, then [refs/name], then the tag,
    then the branch; so a tag hides a branch of the same name.  [@] stands
    for [HEAD].  The candidates are names of ref files. *)
Theorem get_oid_first_ref (s : repo) (name ref v : string) (before after : list string) :
  refs_wf s = true →
  forallb ref_path (refs_to_try name) = true →
  refs_to_try name = before ++ ref :: after →
  (∀ r, r ∈ before → refs s !! r = None) →
  refs s !! ref = Some v →
  direct_value v →
  get_oid s name = Ok (Some v).
Proof.
  intros _ _ Htry Hbefore Hfile Hv. unfold get_oid. fold (refs_to_try name).
  by rewrite Htry, get_oid_refs_missing, (get_oid_refs_direct s ref after v).
Qed.

Lemma get_oid_first_ref_witness :
  get_oid (set_refs <["refs/tags/master" := Sample.A]> (Sample.at_commit Sample.B)) "master"
  = Ok (Some Sample.A).
Proof.
  apply (get_oid_first_ref _ "master" "refs/tags/master" Sample.A
           ["master"; "refs/master"] ["refs/heads/master"]).
  - vm_compute. reflexivity.
  - vm_compute. reflexivity.
  - reflexivity.
  - intros r Hr. repeat (apply elem_of_cons in Hr as [->|Hr]; [reflexivity|]).
    by apply elem_of_nil in Hr.
  - reflexivity.
  - repeat split; reflexivity.
Defined.

(** A name that is none of its candidate refs, all of them names of ref
    files, is taken for an object id when it consists of 40 hexadecimal
    digits, whether or not an object of that id exists, and is otherwise
    refused with [AssertionError]. *)
Theorem get_oid_no_ref (s : repo) (name : string) :
  refs_wf s = true →
  forallb ref_path (refs_to_try name) = true →
  (∀ r, r ∈ refs_to_try name → refs s !! r = None) →
  get_oid s name
  = let name := if String.eqb name "@" then "HEAD" else name in
    if (String.length name =? 40)
       && Str.forallb (λ c, Str.contains c hexdigits) name
    then Ok (Some name) else Raise AssertionError.
Proof.
  intros _ _ Hnone. unfold get_oid. fold (refs_to_try name).
  rewrite <- (app_nil_r (refs_to_try name)), get_oid_refs_missing by done. reflexivity.
Qed.

Lemma get_oid_no_ref_witness :
  get_oid empty_repo Sample.C = Ok (Some Sample.C)
  ∧ get_oid empty_repo "master" = Raise AssertionError.
Proof.
  split.
  - apply (get_oid_no_ref empty_repo Sample.C); [reflexivity|vm_compute; reflexivity|].
    intros r _. apply lookup_empty.
  - apply (get_oid_no_ref empty_repo "master"); [reflexivity|vm_compute; reflexivity|].
    intros r _. apply lookup_empty.
Defined.

(** With [HEAD] on a branch that has no commit yet, [get_oid] of [HEAD] or
    [@] returns [None] instead of failing, and [checkout] of it then looks
    for an object called [None]. *)
Theorem get_oid_unborn_head (s : repo) (b : string) :
  refs s !! "HEAD" = Some ("ref: " +:+ b) → no_white b → Str.truth b = true →
  refs s !! b = None →
  objects s !! "None" = None →
  get_oid s "@" = Ok None ∧ get_oid s "HEAD" = Ok None
  ∧ checkout "@" s = (Raise FileNotFoundError, s).
Proof.
  intros Hhead Hw Ht Hb Hobj.
  assert (get_oid s "HEAD" = Ok None) as Hoid.
  { unfold get_oid. cbn [String.eqb Ascii.eqb Bool.eqb get_oid_refs].
    unfold get_ref, recursion_limit.
    rewrite (proj2 (get_ref_internal_symbolic 999 s "HEAD" b Hhead Hw Ht)).
    rewrite (proj1 (get_ref_internal_symbolic 999 s "HEAD" b Hhead Hw Ht)).
    by rewrite (get_ref_internal_missing 998). }
  split; [exact Hoid|]. split; [exact Hoid|].
  unfold checkout, bind, reading. change (get_oid s "@") with (get_oid s "HEAD").
  rewrite Hoid. unfold get_commit, get_object. cbn [default]. by rewrite Hobj.
Qed.

Lemma get_oid_unborn_head_witness :
  get_oid init.2 "@" = Ok None ∧ get_oid init.2 "HEAD" = Ok None
  ∧ checkout "@" init.2 = (Raise FileNotFoundError, init.2).
Proof.
  apply (get_oid_unborn_head init.2 "refs/heads/master"); reflexivity.
Defined.

(** ** Reading a tree into the index *)

Lemma dict_set_keys_elem {V} k k0 (v : V) d :
  k ∈ map fst (Dict.set k0 v d) → k = k0 ∨ k ∈ map fst d.
Proof.
  rewrite dict_set_keys. case_decide; [by right|].
  intros [?|E%list_elem_of_singleton]%elem_of_app; [by right|by left].
Qed.

Lemma dict_update_keys_elem {V} k (d other : pydict V) :
  k ∈ map fst (Dict.update d other) → k ∈ map fst d ∨ k ∈ map fst other.
Proof.
  unfold Dict.update. revert d. induction other as [|[k0 v0] other IH]; intros d; simpl.
  - by left.
  - intros H. apply IH in H as [H|H].
    + apply dict_set_keys_elem in H as [E|H].
      * right. rewrite E. by left.
      * by left.
    + right. by right.
Qed.

Lemma dict_set_fresh {V} k (v : V) d : k ∉ map fst d → Dict.set k v d = d ++ [(k, v)].
Proof.
  induction d as [|[k' v'] d IH]; simpl; [done|].
  intros [Hne Hd]%not_elem_of_cons. apply String.eqb_neq in Hne as ->. by rewrite IH.
Qed.

(** Updating an empty dictionary with a dictionary gives that dictionary. *)
Lemma dict_update_nil {V} (d : pydict V) : NoDup (map fst d) → Dict.update [] d = d.
Proof.
  unfold Dict.update.
  assert (∀ acc, NoDup (map fst (acc ++ d)) →
                 fold_left (λ acc kv, Dict.set kv.1 kv.2 acc) d acc = acc ++ d) as H.
  { induction d as [|[k v] d IH]; intros acc Hnd; simpl; [by rewrite app_nil_r|].
    rewrite map_app in Hnd. cbn [map fst] in Hnd.
    rewrite dict_set_fresh.
    - rewrite IH; [by rewrite <- app_assoc|].
      by rewrite <- app_assoc, map_app.
    - apply NoDup_app in Hnd as (_ & Hdisj & _). intros Hk. apply (Hdisj k Hk). by left. }
  intros Hnd. by apply (H []).
Qed.

Lemma get_tree_entries_NoDup (get_subtree : string → string → result (pydict string))
  (base : string) (lines : list string) :
  ∀ results r,
    get_tree_entries get_subtree base lines results = Ok r →
    NoDup (map fst results) → NoDup (map fst r).
Proof.
  induction lines as [|entry lines IH]; intros results r; simpl.
  { by intros [= <-]. }
  destruct (parse_entry entry) as [[[type_ oid2] name]|]; [|discriminate]. simpl.
  destruct (Str.contains "/" name); [discriminate|].
  destruct (_ || _); [discriminate|].
  destruct (String.eqb type_ "blob").
  - intros H Hnd. apply (IH _ _ H). by apply dict_set_NoDup.
  - destruct (String.eqb type_ "tree"); [|discriminate].
    destruct (get_subtree oid2 _) as [sub|]; [|discriminate]. simpl.
    intros H Hnd. apply (IH _ _ H). by apply dict_update_NoDup.
Qed.

(** No path comes twice in what [get_tree] returns. *)
Lemma get_tree_NoDup depth s oid base r :
  get_tree depth s oid base = Ok r → NoDup (map fst r).
Proof.
  destruct depth as [|depth]; [done|]. simpl.
  destruct (tree_lines s oid) as [lines|]; [|discriminate]. simpl.
  intros H. apply (get_tree_entries_NoDup _ _ _ _ _ H). constructor.
Qed.

Lemma read_tree_eq tree_oid s :
  read_tree tree_oid s
  = match get_tree recursion_limit s tree_oid "" with
    | Ok d => (Ok tt, set_index_file (Some d) s)
    | Raise e => (Raise e, s)
    end.
Proof.
  unfold read_tree, get_index.
  destruct (get_tree recursion_limit s tree_oid "") as [d|e] eqn:E; [|done].
  apply get_tree_NoDup in E. by rewrite dict_update_nil.
Qed.

Lemma get_tree_entries_keys (get_subtree : string → string → result (pydict string))
  (base : string) (lines : list string) :
  (∀ oid b r, get_subtree oid b = Ok r →
              NoDup (map fst r) ∧ ∀ k, k ∈ map fst r → ∃ rest, k = b +:+ rest) →
  ∀ results r,
    get_tree_entries get_subtree base lines results = Ok r →
    (NoDup (map fst results) → NoDup (map fst r))
    ∧ ∀ k, k ∈ map fst r → k ∈ map fst results ∨ ∃ rest, k = base +:+ rest.
Proof.
  intros Hsub. induction lines as [|entry lines IH]; intros results r; simpl.
  { intros [= <-]. split; [done|]. intros k Hk. by left. }
  destruct (parse_entry entry) as [[[type_ oid2] name]|]; [|discriminate]. simpl.
  destruct (Str.contains "/" name); [discriminate|].
  destruct (_ || _); [discriminate|].
  destruct (String.eqb type_ "blob").
  - intros [Hnd Hk]%IH. split.
    + intros H. by apply Hnd, dict_set_NoDup.
    + intros k H. apply Hk in H as [H|H]; [|by right].
      apply dict_set_keys_elem in H as [E|H]; [right; by eexists|by left].
  - destruct (String.eqb type_ "tree"); [|discriminate].
    destruct (get_subtree oid2 _) as [sub|] eqn:Es; [|discriminate]. simpl.
    destruct (Hsub _ _ _ Es) as [_ Hsk].
    intros [Hnd Hk]%IH. split.
    + intros H. by apply Hnd, dict_update_NoDup.
    + intros k H. apply Hk in H as [H|H]; [|by right].
      apply dict_update_keys_elem in H as [H|H]; [by left|].
      right. destruct (Hsk k H) as [rest ->].
      exists (name +:+ "/" +:+ rest). by rewrite !str_app_assoc.
Qed.

(** Whatever the store holds, what [get_tree] returns is a map: its paths
    are distinct, and each of them extends the base path. *)
Theorem get_tree_keys (depth : nat) (s : repo) (oid base : string) (r : pydict string) :
  get_tree depth s oid base = Ok r →
  NoDup (map fst r) ∧ ∀ k, k ∈ map fst r → ∃ rest, k = base +:+ rest.
Proof.
  revert oid base r. induction depth as [|depth IH]; intros oid base r; [done|].
  simpl. destruct (tree_lines s oid) as [lines|]; [|discriminate]. simpl.
  intros [Hnd Hk]%(get_tree_entries_keys _ _ _ IH). split.
  - apply Hnd. constructor.
  - intros k [H|H]%Hk; [by apply elem_of_nil in H|done].
Qed.

Lemma get_tree_keys_witness :
  NoDup (map fst [("f", Sample.f2); ("g", Sample.g1)])
  ∧ ∀ k, k ∈ map fst [("f", Sample.f2); ("g", Sample.g1)] → ∃ rest, k = "" +:+ rest.
Proof.
  apply (get_tree_keys 5 (Sample.at_commit Sample.B) Sample.tD ""). reflexivity.
Defined.

(** [checkout] of a name that resolves to a commit replaces the index by
    the files of the commit and writes the file of [HEAD], and no other ref:
    a symbolic ref to the branch when the name is a branch, the commit id
    otherwise, so that a detached [HEAD] moves no branch. *)
Theorem checkout_writes_head (name oid : string) (s : repo) (c : Commit)
  (d : pydict string) (branch : bool) :
  get_oid s name = Ok (Some oid) →
  Str.truth oid = true →
  get_commit s oid = Ok c →
  get_tree recursion_limit s (tree c) "" = Ok d →
  is_branch s name = Ok branch →
  checkout name s
  = (Ok tt,
     set_refs <["HEAD" := if branch then "ref: " +:+ "refs/heads/" +:+ name else oid]>
       (set_index_file (Some d) s)).
Proof.
  intros Hoid Ht Hc Hd Hb. unfold checkout.
  unfold bind at 1, reading at 1. rewrite Hoid.
  unfold bind at 1, reading at 1.
  change (default "None" (Some oid)) with oid. rewrite Hc.
  unfold bind at 1. rewrite read_tree_eq, Hd.
  unfold bind at 1, reading at 1.
  assert (is_branch (set_index_file (Some d) s) name = Ok branch) as ->.
  { rewrite <- Hb. unfold is_branch. by rewrite (get_ref_ext _ s). }
  unfold update_ref, bind, reading. rewrite get_ref_name_noderef.
  destruct branch; cbn [truthy value symbolic]; [done|]. by rewrite Ht.
Qed.

Lemma checkout_writes_head_witness :
  checkout Sample.C (Sample.at_commit Sample.B)
  = (Ok tt,
     set_refs <["HEAD" := Sample.C]>
       (set_index_file (Some [("f", Sample.f1); ("g", Sample.g1)])
          (Sample.at_commit Sample.B))).
Proof.
  apply (checkout_writes_head Sample.C Sample.C (Sample.at_commit Sample.B)
           (mkCommit Sample.tC [Sample.A] "C") [("f", Sample.f1); ("g", Sample.g1)] false);
    reflexivity.
Defined.

(** ** Walking the commit graph *)

Lemma commits_loop_skip oids : commits_loop ("" :: oids) [] = commits_loop oids [].
Proof. reflexivity. Qed.

Lemma commits_loop_yield oid oids :
  oid ≠ "" → commits_loop (oid :: oids) [] = Some (oid, CYielded oid oids []).
Proof. intros H. destruct oid; [done|]. reflexivity. Qed.

Lemma commits_rest_skip f s oids : commits_rest f s ("" :: oids) = commits_rest f s oids.
Proof. reflexivity. Qed.

Lemma commits_rest_yield f s oid oids :
  oid ≠ "" →
  commits_rest f s (oid :: oids)
  = do? l <- gen_list commits_next f s (CYielded oid oids []); Ok (oid :: l).
Proof. intros H. unfold commits_rest. by rewrite commits_loop_yield. Qed.

Lemma gen_list_start f s oids :
  gen_list commits_next (S f) s (CStart (PySeq oids)) = commits_rest f s oids.
Proof. simpl. unfold commits_rest. by destruct (commits_loop oids []) as [[x g]|]. Qed.

Lemma gen_list_yielded f s oid oids :
  gen_list commits_next (S f) s (CYielded oid oids [])
  = do? c <- get_commit s oid;
    commits_rest f s ((rev (firstn 1 (parents c)) ++ oids) ++ skipn 1 (parents c)).
Proof.
  cbn [gen_list commits_next]. destruct (get_commit s oid) as [c|]; [|done].
  cbn [rbind]. unfold commits_rest. by destruct (commits_loop _ []) as [[x g]|].
Qed.

Lemma elem_of_next_oids (r : string) ps oids :
  r ∈ (rev (firstn 1 ps) ++ oids) ++ skipn 1 ps ↔ r ∈ ps ∨ r ∈ oids.
Proof.
  rewrite !elem_of_app. destruct ps as [|p ps]; simpl.
  - rewrite !elem_of_nil. tauto.
  - rewrite list_elem_of_singleton, elem_of_cons. tauto.
Qed.

Lemma history_nil_inv s n : history s [] n → n = 0.
Proof. by inversion 1. Qed.

Lemma history_app s a b n m :
  history s a n → history s b m → history s (a ++ b) (n + m).
Proof.
  induction 1 as [|a n H IH|oid c a n k Hne Hc Hp _ Ha IH]; intros Hb; simpl.
  - done.
  - constructor. by apply IH.
  - replace (S (n + k + m)) with (S (n + (k + m))) by lia.
    econstructor; eauto.
Qed.

Lemma history_app_inv s a b n :
  history s (a ++ b) n → ∃ n1 n2, n = n1 + n2 ∧ history s a n1 ∧ history s b n2.
Proof.
  revert n. induction a as [|x a IH]; intros n H; simpl in H.
  - exists 0, n. split; [done|]. split; [constructor|done].
  - inversion H as [|? ? H'|? c ? k m Hne Hc Hp H']; subst.
    + destruct (IH _ H') as (n1 & n2 & -> & H1 & H2).
      exists n1, n2. split; [done|]. split; [by constructor|done].
    + destruct (IH _ H') as (n1 & n2 & -> & H1 & H2).
      exists (S (k + n1)), n2. split; [lia|]. split; [by econstructor|done].
Qed.

Lemma history_next s ps oids n m :
  history s ps n → history s oids m →
  history s ((rev (firstn 1 ps) ++ oids) ++ skipn 1 ps) (n + m).
Proof.
  intros Hp Ho. destruct ps as [|p ps].
  - apply history_nil_inv in Hp as ->. simpl. by rewrite app_nil_r.
  - change (p :: ps) with ([p] ++ ps) in Hp.
    apply history_app_inv in Hp as (n1 & n2 & -> & H1 & H2).
    replace (n1 + n2 + m) with (n1 + m + n2) by lia.
    apply history_app; [|done]. by apply history_app.
Qed.

Lemma commits_rest_terminates s f :
  ∀ oids n, history s oids n → n ≤ f → ∃ l, commits_rest f s oids = Ok l.
Proof.
  induction f as [|f IH]; intros oids n H;
    induction H as [|oids n H IHh|oid c oids n m Hne Hc Hp _ Ho _]; intros Hle.
  1,4: by exists [].
  1,3: rewrite commits_rest_skip; by apply IHh.
  - lia.
  - rewrite commits_rest_yield, gen_list_yielded, Hc by done. cbn [rbind].
    destruct (IH _ _ (history_next _ _ _ _ _ Hp Ho)) as [l ->]; [lia|].
    by eexists.
Qed.

Lemma no_commit_at_empty s x : objects s !! "" = None → ancestor s "" x → x = "".
Proof.
  intros Hnone [->|(p & (c & Hc & _) & _)]%rtc_inv; [done|].
  unfold get_commit, get_object in Hc. by rewrite Hnone in Hc.
Qed.

Lemma reached_cons s r oids x :
  reached s (r :: oids) x ↔ ancestor s r x ∨ reached s oids x.
Proof.
  unfold reached. split.
  - intros (r' & [->|H]%elem_of_cons & Ha); [by left|right; eauto].
  - intros [H|(r' & H & Ha)]; [exists r; split; [by left|done]|].
    exists r'. split; [by right|done].
Qed.

Lemma reached_singleton s r x : reached s [r] x ↔ ancestor s r x.
Proof.
  rewrite reached_cons. split; [|by left].
  intros [H|(r' & H & _)]; [done|]. by apply elem_of_nil in H.
Qed.

Lemma commits_rest_yielded_inv f s oid oids l :
  oid ≠ "" → commits_rest f s (oid :: oids) = Ok l →
  ∃ f' c l', f = S f' ∧ get_commit s oid = Ok c ∧ l = oid :: l'
    ∧ commits_rest f' s ((rev (firstn 1 (parents c)) ++ oids) ++ skipn 1 (parents c)) = Ok l'.
Proof.
  intros Hne. rewrite commits_rest_yield by done.
  destruct f as [|f']; [done|]. rewrite gen_list_yielded.
  destruct (get_commit s oid) as [c|]; [|done]. cbn [rbind].
  destruct (commits_rest f' s _) as [l'|] eqn:E; [|done]. intros [= <-].
  by exists f', c, l'.
Qed.

(** Every id that the traversal yields is a commit reached from the ids it
    was started with. *)
Lemma commits_rest_sound s f :
  ∀ oids l, commits_rest f s oids = Ok l → ∀ x, x ∈ l → x ≠ "" ∧ reached s oids x.
Proof.
  induction f as [|f IH]; intros oids; induction oids as [|oid oids IHo]; intros l H x Hx.
  1,3: injection H as <-; by apply elem_of_nil in Hx.
  all: destruct (decide (oid = "")) as [->|Hne];
    [rewrite commits_rest_skip in H; destruct (IHo _ H x Hx) as [? ?];
     split; [done|]; apply reached_cons; by right|].
  all: apply commits_rest_yielded_inv in H as (f' & c & l' & Hf & Hc & -> & Hl'); [|done].
  - done.
  - injection Hf as <-. apply elem_of_cons in Hx as [->|Hx].
    + split; [done|]. apply reached_cons. by left.
    + destruct (IH _ _ Hl' x Hx) as [Hx0 (r & Hr & Ha)]. split; [done|].
      apply reached_cons. apply elem_of_next_oids in Hr as [Hr|Hr].
      * left. eapply rtc_l; [|done]. by exists c.
      * right. by exists r.
Qed.

(** Every commit reached from the ids the traversal was started with is
    yielded. *)
Lemma commits_rest_complete s f :
  objects s !! "" = None →
  ∀ oids l, commits_rest f s oids = Ok l → ∀ x, x ≠ "" → reached s oids x → x ∈ l.
Proof.
  intros Hnone.
  induction f as [|f IH]; intros oids; induction oids as [|oid oids IHo]; intros l H x Hx Hr.
  1,3: destruct Hr as (r & Hr & _); by apply elem_of_nil in Hr.
  all: apply reached_cons in Hr.
  all: destruct (decide (oid = "")) as [->|Hne];
    [rewrite commits_rest_skip in H; destruct Hr as [Hr|Hr];
     [by apply no_commit_at_empty in Hr|by apply (IHo _ H)]|].
  all: apply commits_rest_yielded_inv in H as (f' & c & l' & Hf & Hc & -> & Hl'); [|done].
  - done.
  - injection Hf as <-. destruct Hr as [Hr|(r & Hr & Ha)].
    + apply rtc_inv in Hr as [->|(p & (c' & Hc' & Hp) & Ha)]; [by left|].
      right. apply (IH _ _ Hl' x Hx). exists p. split; [|done].
      apply elem_of_next_oids. left. congruence.
    + right. apply (IH _ _ Hl' x Hx). exists r. split; [|done].
      apply elem_of_next_oids. by right.
Qed.

Lemma commits_rest_exact s f oids n :
  history s oids n → n ≤ f → objects s !! "" = None →
  ∃ l, commits_rest f s oids = Ok l ∧ ∀ x, x ∈ l ↔ x ≠ "" ∧ reached s oids x.
Proof.
  intros Hh Hn Hnone.
  destruct (commits_rest_terminates s f oids n Hh Hn) as [l Hl].
  exists l. split; [done|]. intros x. split.
  - by apply (commits_rest_sound s f oids).
  - intros [Hx Hr]. by apply (commits_rest_complete s f Hnone oids).
Qed.

(** When the parent links below the given ids form no cycle and miss no
    commit, [iter_commits_and_parents] comes to an end, and the ids it
    yields are exactly the commits reached from the ids it was given. *)
Theorem iter_commits_gives_ancestors (fuel : nat) (s : repo) (oids : list string) (n : nat) :
  history s oids n →
  n < fuel →
  objects s !! "" = None →
  ∃ l, gen_list commits_next fuel s (CStart (PySeq oids)) = Ok l
       ∧ ∀ x, x ∈ l ↔ x ≠ "" ∧ reached s oids x.
Proof.
  intros Hh Hn Hnone. destruct fuel as [|f]; [lia|].
  rewrite gen_list_start. apply (commits_rest_exact s f oids n); [done|lia|done].
Qed.

Lemma gen_find_list {G} (next : repo → G → result (option (string * G))) f p s g l :
  gen_list next f s g = Ok l → gen_find next f p s g = Ok (find p l).
Proof.
  revert g l. induction f as [|f IH]; intros g l; [done|]. simpl.
  destruct (next s g) as [[[x g']|]|]; simpl; [|by intros [= <-]|done].
  destruct (gen_list next f s g') as [l'|] eqn:E; [|done]. simpl. intros [= <-].
  simpl. destruct (p x); [done|]. by apply IH.
Qed.

(** When the histories of both commits are finite, [get_merge_base] returns a
    commit that both reach; it returns [None] only when they reach no
    commit in common. *)
Theorem get_merge_base_common_ancestor (fuel : nat) (s : repo) (oid1 oid2 : string)
  (n1 n2 : nat) :
  history s [oid1] n1 → history s [oid2] n2 →
  n1 < fuel → n2 < fuel →
  objects s !! "" = None →
  ∃ r, get_merge_base fuel s oid1 oid2 = Ok r
       ∧ match r with
         | Some m => m ≠ "" ∧ ancestor s oid1 m ∧ ancestor s oid2 m
         | None => ∀ x, x ≠ "" → ancestor s oid1 x → ¬ ancestor s oid2 x
         end.
Proof.
  intros H1 H2 Hn1 Hn2 Hnone. destruct fuel as [|f]; [lia|].
  destruct (commits_rest_exact s f [oid1] n1 H1) as (l1 & E1 & Hl1); [lia|done|].
  destruct (commits_rest_exact s f [oid2] n2 H2) as (l2 & E2 & Hl2); [lia|done|].
  rewrite <- gen_list_start in E1, E2.
  unfold get_merge_base. rewrite E1. cbn [rbind].
  rewrite (gen_find_list _ _ _ _ _ _ E2). eexists. split; [done|].
  destruct (find _ l2) as [m|] eqn:E.
  - apply find_some in E as [Hin Hm]. apply list_elem_of_In, Hl2 in Hin as [Hm0 Hr2].
    apply bool_decide_eq_true, Hl1 in Hm as [_ Hr1].
    by rewrite reached_singleton in Hr1, Hr2.
  - intros x Hx Ha1 Ha2.
    assert (x ∈ l1) as Hx1 by (apply Hl1; by rewrite reached_singleton).
    assert (x ∈ l2) as Hx2 by (apply Hl2; by rewrite reached_singleton).
    apply list_elem_of_In in Hx2. apply (find_none _ _ E) in Hx2.
    by apply bool_decide_eq_false in Hx2.
Qed.

(** A fast-forward is recognised: when [oid2] is a commit that [oid1]
    reaches, the merge base is [oid2] itself. *)
Theorem get_merge_base_of_ancestor (fuel : nat) (s : repo) (oid1 oid2 : string) (n : nat) :
  history s [oid1] n →
  n < fuel →
  objects s !! "" = None →
  oid2 ≠ "" →
  ancestor s oid1 oid2 →
  get_merge_base fuel s oid1 oid2 = Ok (Some oid2).
Proof.
  intros H1 Hn Hnone Hne Ha. destruct fuel as [|f]; [lia|].
  destruct (commits_rest_exact s f [oid1] n H1) as (l1 & E1 & Hl1); [lia|done|].
  rewrite <- gen_list_start in E1.
  unfold get_merge_base. rewrite E1. cbn [rbind].
  cbn [gen_find commits_next py_iter rbind].
  rewrite commits_loop_yield by done.
  rewrite bool_decide_eq_true_2; [done|]. apply Hl1. by rewrite reached_singleton.
Qed.

(** ** Merging and committing *)

Section FastForward.
Variable merge_trees : pydict string → pydict string → pydict string → M (pydict string).

(** A fast-forward: when the merge base is the commit of [HEAD], [merge]
    loads the files of [other] into the index and moves the ref that [HEAD]
    resolves to, the current branch, to [other].  It sets no [MERGE_HEAD]
    and does not call [merge_trees]. *)
Theorem merge_fast_forward (fuel : nat) (other : string) (s : repo) (sym : bool)
  (HEAD N : string) (c_other : Commit) (d_other : pydict string) :
  get_ref s "HEAD" true = Ok (mkRef sym (Some HEAD)) →
  Str.truth HEAD = true →
  get_ref_name s "HEAD" true = Ok N →
  get_merge_base fuel s other HEAD = Ok (Some HEAD) →
  Str.truth other = true →
  get_commit s other = Ok c_other →
  get_tree recursion_limit s (tree c_other) "" = Ok d_other →
  merge merge_trees fuel other s
  = (Ok tt, set_refs <[N := other]> (set_index_file (Some d_other) s)).
Proof.
  intros Hh Ht HN Hb Ho Hco Hto.
  unfold merge. unfold bind at 1, reading at 1. rewrite Hh. simpl. rewrite Ht. simpl.
  unfold bind at 1, reading at 1. rewrite Hb.
  unfold bind at 1, reading at 1. rewrite Hco.
  rewrite bool_decide_eq_true_2 by done.
  unfold bind at 1. rewrite read_tree_eq, Hto.
  unfold update_ref, bind, reading.
  rewrite (get_ref_name_ext _ s) by done. rewrite HN.
  cbn [truthy value symbolic]. by rewrite Ho.
Qed.

End FastForward.

Ltac history_of :=
  repeat first
    [ apply history_nil
    | eapply history_commit; [discriminate | vm_compute; reflexivity | | ] ].

Lemma merge_fast_forward_witness :
  merge (λ t_base _ _, ret t_base) 20 Sample.D (Sample.at_commit Sample.B)
  = (Ok tt,
     set_refs <["refs/heads/master" := Sample.D]>
       (set_index_file (Some [("f", Sample.f2); ("g", Sample.g1)])
          (Sample.at_commit Sample.B))).
Proof.
  apply (merge_fast_forward (λ t_base _ _, ret t_base) 20 Sample.D (Sample.at_commit Sample.B)
           false Sample.B "refs/heads/master"
           (mkCommit Sample.tD [Sample.B; Sample.C] "D")
           [("f", Sample.f2); ("g", Sample.g1)]);
    reflexivity.
Defined.

Lemma iter_commits_gives_ancestors_witness :
  ∃ l, gen_list commits_next 6 (Sample.at_commit Sample.B) (CStart (PySeq [Sample.D])) = Ok l
       ∧ ∀ x, x ∈ l ↔ x ≠ "" ∧ reached (Sample.at_commit Sample.B) [Sample.D] x.
Proof.
  eapply (iter_commits_gives_ancestors 6 (Sample.at_commit Sample.B) [Sample.D]).
  - history_of.
  - simpl. lia.
  - reflexivity.
Defined.

Lemma get_merge_base_common_ancestor_witness :
  ∃ r, get_merge_base 3 (Sample.at_commit Sample.B) Sample.B Sample.C = Ok r
       ∧ match r with
         | Some m => m ≠ "" ∧ ancestor (Sample.at_commit Sample.B) Sample.B m
                     ∧ ancestor (Sample.at_commit Sample.B) Sample.C m
         | None => ∀ x, x ≠ "" → ancestor (Sample.at_commit Sample.B) Sample.B x
                        → ¬ ancestor (Sample.at_commit Sample.B) Sample.C x
         end.
Proof.
  eapply (get_merge_base_common_ancestor 3 (Sample.at_commit Sample.B) Sample.B Sample.C).
  - history_of.
  - history_of.
  - simpl. lia.
  - simpl. lia.
  - reflexivity.
Defined.

Lemma get_merge_base_of_ancestor_witness :
  get_merge_base 6 (Sample.at_commit Sample.B) Sample.D Sample.B = Ok (Some Sample.B).
Proof.
  eapply (get_merge_base_of_ancestor 6 (Sample.at_commit Sample.B) Sample.D Sample.B).
  - history_of.
  - simpl. lia.
  - reflexivity.
  - discriminate.
  - eapply rtc_l; [|apply rtc_refl].
    exists (mkCommit Sample.tD [Sample.B; Sample.C] "D"). split; [reflexivity|]. by left.
Defined.

Section CommitOnBranch.
Variable hash : string → string.

(** A commit made with [HEAD] on a branch, while no merge is pending,
    stores a commit object made of the tree of the index, the commit the
    branch was at as the only parent, if it was at one, and the message;
    it returns the id of that object and moves the branch to it, writing no
    other ref: the file of [HEAD] stays symbolic.  The index file keeps its
    entries. *)
Theorem commit_moves_branch (msg : string) (s : repo) (b : string) (t : pydict node) :
  (∀ x, Str.truth (hash x) = true) →
  refs_wf s = true →
  ref_free s b = true →
  on_branch s b →
  refs s !! "MERGE_HEAD" = None →
  index_as_tree_from (default [] (index_file s)) [] = Ok t →
  let parents := match refs s !! b with Some v => [v] | None => [] end in
  let obj := "commit" +:+ String Str.NUL (commit_text (tree_oid hash t) parents msg) in
  ∃ s',
    commit hash msg s = (Ok (hash obj), s')
    ∧ objects s' !! hash obj = Some obj
    ∧ refs s' = <[b := hash obj]> (refs s)
    ∧ refs_wf s' = true
    ∧ index_file s' = Some (default [] (index_file s)).
Proof.
  intros Hhash Hwf Hfree Hon Hmh Hidx parents obj.
  destruct (on_branch_resolves s b Hon) as [HN Hhead].
  assert (truthy (refs s !! b) = match refs s !! b with Some _ => true | None => false end)
    as Htruthy.
  { destruct Hon as (_ & _ & _ & [->|(v & -> & Hv & _)]); [done|exact Hv]. }
  unfold commit. unfold bind at 1. rewrite write_tree_eq, Hidx.
  destruct (write_tree_recursive_spec hash t
              (set_index_file (Some (default [] (index_file s))) s))
    as (s1 & _ & [R1 I1] & ->).
  set (s2 := set_objects _ s1).
  assert (refs s2 = refs s) as R2 by exact R1.
  unfold bind at 1, reading at 1. rewrite (get_ref_ext s2 s), Hhead by done.
  cbn [rbind value].
  assert (get_ref s "MERGE_HEAD" true = Ok (mkRef false None)) as Hm.
  { unfold get_ref, recursion_limit. by rewrite (get_ref_internal_missing 999). }
  unfold bind at 1, reading at 1. rewrite (get_ref_ext s2 s), Hm by done.
  cbn [rbind value truthy].
  assert (((if truthy (refs s !! b)
            then ("tree " +:+ tree_oid hash t +:+ Str.nl)
                   +:+ "parent " +:+ default "" (refs s !! b) +:+ Str.nl
            else "tree " +:+ tree_oid hash t +:+ Str.nl) +:+ Str.nl) +:+ msg +:+ Str.nl
          = commit_text (tree_oid hash t) parents msg) as Etext.
  { unfold commit_text, parents. rewrite Htruthy.
    destruct (refs s !! b); cbn [map String.concat default]; by rewrite !str_app_assoc. }
  unfold bind at 1, ret at 1. unfold bind at 1, hash_object at 1. rewrite Etext.
  fold obj.
  unfold bind at 1, modify at 1, ret at 1.
  unfold bind at 1, update_ref at 1. unfold bind at 1, reading at 1.
  match goal with |- context [set_objects ?f s2] => set (s3 := set_objects f s2) end.
  rewrite (get_ref_name_ext s3 s), HN by done.
  cbn [truthy value symbolic]. rewrite Hhash.
  cbn [negb]. unfold modify, ret.
  eexists. split; [reflexivity|]. split; [|split; [|split]].
  - cbn [objects set_refs s3 set_objects]. apply lookup_insert_eq.
  - cbn [refs set_refs s3 set_objects]. by rewrite R2.
  - apply (refs_wf_insert s3); [|].
    + rewrite <- Hwf. unfold refs_wf. by rewrite (R2 : refs s3 = refs s).
    + rewrite <- Hfree. unfold ref_free. by rewrite (R2 : refs s3 = refs s).
  - cbn [index_file set_refs s3 set_objects]. exact I1.
Qed.

End CommitOnBranch.

Lemma commit_moves_branch_witness :
  let s := mkRepo Sample.store (refs (Sample.at_commit Sample.B)) (Some [("f", Sample.f2)]) in
  let obj := "commit" +:+ String Str.NUL
               (commit_text (tree_oid Toy.digest [("f", Blob Sample.f2)]) [Sample.B]
                  "message") in
  ∃ s',
    commit Toy.digest "message" s = (Ok (Toy.digest obj), s')
    ∧ objects s' !! Toy.digest obj = Some obj
    ∧ refs s' = <["refs/heads/master" := Toy.digest obj]> (refs s)
    ∧ refs_wf s' = true
    ∧ index_file s' = Some [("f", Sample.f2)].
Proof.
  apply (commit_moves_branch Toy.digest "message"
           (mkRepo Sample.store (refs (Sample.at_commit Sample.B)) (Some [("f", Sample.f2)]))
           "refs/heads/master" [("f", Blob Sample.f2)]).
  - intros x. apply toy_digest_plain.
  - vm_compute. reflexivity.
  - vm_compute. reflexivity.
  - split; [reflexivity|]. split; [reflexivity|]. split; [reflexivity|].
    right. exists Sample.B. split; [reflexivity|]. repeat split; reflexivity.
  - reflexivity.
  - reflexivity.
Defined.

(** ** Tags, ignored paths, and reading back what was written *)

Lemma str_app_length a b : String.length (a +:+ b) = String.length a + String.length b.
Proof.
  induction a as [|c a IH]; [by rewrite str_app_nil|].
  rewrite str_app_cons. simpl. by rewrite IH.
Qed.

Lemma str_app_ne_self p name : p ≠ "" → name ≠ p +:+ name.
Proof.
  intros Hp E. apply (f_equal String.length) in E. rewrite str_app_length in E.
  destruct p; [done|]. simpl in E. lia.
Qed.

(** A tag, once created, is what its name resolves to, whatever branch there
    is of that name: [get_oid] tries the tag before the branch.  The
    candidates of the name are names of ref files, and the file of the tag
    is free. *)
Theorem create_tag_then_get_oid (s : repo) (name v : string) :
  refs_wf s = true →
  forallb ref_path (refs_to_try name) = true →
  ref_free s ("refs/tags/" +:+ name) = true →
  name ≠ "@" →
  refs s !! name = None →
  refs s !! ("refs/" +:+ name) = None →
  refs s !! ("refs/tags/" +:+ name) = None →
  direct_value v →
  ∃ s', create_tag name (Some v) s = (Ok tt, s')
        ∧ refs s' = <["refs/tags/" +:+ name := v]> (refs s)
        ∧ refs_wf s' = true
        ∧ get_oid s' name = Ok (Some v).
Proof.
  intros Hwf _ Hfree Hat H1 H2 H3 Hv.
  pose proof (get_ref_name_missing s _ true H3) as HN.
  destruct (update_ref_direct s _ _ v HN Hv) as [Hup _].
  exists (set_refs <["refs/tags/" +:+ name := v]> s).
  split; [exact Hup|]. split; [done|]. split; [by apply refs_wf_insert|].
  unfold get_oid. fold (refs_to_try name). unfold refs_to_try.
  apply String.eqb_neq in Hat. rewrite Hat.
  change [name; "refs/" +:+ name; "refs/tags/" +:+ name; "refs/heads/" +:+ name]
    with ([name; "refs/" +:+ name] ++ ["refs/tags/" +:+ name; "refs/heads/" +:+ name]).
  rewrite get_oid_refs_missing.
  - rewrite (get_oid_refs_direct _ _ _ v); [done| |done].
    cbn [refs set_refs]. apply lookup_insert_eq.
  - intros r Hr. cbn [refs set_refs].
    apply elem_of_cons in Hr as [->|Hr]; [|apply list_elem_of_singleton in Hr as ->].
    + rewrite lookup_insert_ne; [done|].
      intros E. by apply (str_app_ne_self "refs/tags/" name).
    + rewrite lookup_insert_ne; [done|].
      change ("refs/tags/" +:+ name) with ("refs/" +:+ ("tags/" +:+ name)).
      intros E. apply (str_app_ne_self "tags/" name); [done|].
      rewrite !str_app_cons, !str_app_nil in E. rewrite !str_app_cons, str_app_nil.
      by injection E.
Qed.

Lemma create_tag_then_get_oid_witness :
  ∃ s', create_tag "master" (Some Sample.A) (Sample.at_commit Sample.B) = (Ok tt, s')
        ∧ refs s' = <["refs/tags/" +:+ "master" := Sample.A]> (refs (Sample.at_commit Sample.B))
        ∧ refs_wf s' = true
        ∧ get_oid s' "master" = Ok (Some Sample.A).
Proof.
  apply (create_tag_then_get_oid (Sample.at_commit Sample.B) "master" Sample.A);
    try reflexivity; try (vm_compute; reflexivity); [discriminate|].
  repeat split; reflexivity.
Defined.

Lemma split_join sep comps :
  comps ≠ [] → Forall (without sep) comps →
  Str.split sep (Str.join (String sep "") comps) = comps.
Proof.
  unfold Str.join. induction comps as [|name comps IH]; [done|]. intros _ Hall.
  apply Forall_cons in Hall as [Hname Hall].
  destruct comps as [|name' comps].
  - simpl. by apply split_single.
  - change (String.concat (String sep "") (name :: name' :: comps))
      with (name +:+ String sep "" +:+ String.concat (String sep "") (name' :: comps)).
    rewrite str_app_cons, str_app_nil, split_piece by done.
    by rewrite IH.
Qed.

(** A path is ignored exactly when one of its components is [.ugit]: a
    name that only contains it, as [.ugit2] or [a.ugit], is not. *)
Theorem is_ignored_components (comps : list string) :
  comps ≠ [] →
  Forall (without "/") comps →
  is_ignored (Str.join "/" comps) = bool_decide (".ugit" ∈ comps).
Proof.
  intros Hne Hall. unfold is_ignored. rewrite split_join by done.
  clear. induction comps as [|c comps IH]; [done|]. cbn [existsb]. rewrite IH.
  destruct (String.eqb_spec ".ugit" c) as [<-|Hc]; cbn [orb].
  - symmetry. apply bool_decide_eq_true. by left.
  - apply bool_decide_ext. rewrite elem_of_cons.
    split; [by right|]. by intros [E|H].
Qed.

Lemma is_ignored_components_witness :
  is_ignored (Str.join "/" ["src"; ".ugit"; "HEAD"]) = bool_decide (".ugit" ∈ ["src"; ".ugit"; "HEAD"]).
Proof.
  apply (is_ignored_components ["src"; ".ugit"; "HEAD"]); [discriminate|].
  repeat constructor.
Defined.

Section WriteThenRead.
Variable hash : string → string.

(** Reading back the tree that [write_tree] has just written puts into the
    index the same id for every path as was staged, for an index as the
    round trip asks for whose directories nest no deeper than the recursion
    limit lets [get_tree] follow. *)
Theorem write_tree_then_read_tree (s : repo) (t : pydict node) :
  (∀ x y, hash x = hash y → x = y) →
  (∀ x, Str.truth (hash x) = true ∧ plain (hash x)) →
  index_ok (default [] (index_file s)) →
  index_as_tree_from (default [] (index_file s)) [] = Ok t →
  height (Dir t) ≤ recursion_limit →
  ∃ oid s1 d,
    write_tree hash s = (Ok oid, s1)
    ∧ read_tree oid s1 = (Ok tt, set_index_file (Some d) s1)
    ∧ NoDup (map fst d)
    ∧ ∀ path, Dict.get path d = Dict.get path (default [] (index_file s)).
Proof.
  intros Hinj Hhash Hidx Ht Hheight.
  destruct (index_as_tree_from_spec _ Hidx []) as (t' & Hfrom & Hwf & Hfinal).
  { apply wf_Dir. split; constructor. }
  { intros. apply tree_lookup_empty. }
  { intros. apply tree_lookup_empty. }
  rewrite Ht in Hfrom. injection Hfrom as <-.
  set (s0 := set_index_file (Some (default [] (index_file s))) s).
  destruct (write_tree_recursive_spec hash t s0) as (s1 & E1 & _ & Ewr).
  pose proof (write_tree_value_Dir hash t s0 s1 E1) as Eval.
  destruct (write_tree_value_stored hash (Dir t) Hinj _ _ _ Eval) as [_ Hst].
  destruct (get_tree_stored hash _ Hhash recursion_limit t "" Hwf Hst Hheight)
    as (d & Hd & Hnd & Hget).
  eexists _, _, d. split; [|split; [|split; [exact Hnd|]]].
  - rewrite write_tree_eq, Ht. exact Ewr.
  - by rewrite read_tree_eq, Hd.
  - intros path. rewrite Hget. unfold path_lookup. cbn [strip_prefix].
    rewrite Hfinal, tree_lookup_empty. by destruct (Dict.get path _).
Qed.

End WriteThenRead.

Lemma write_tree_then_read_tree_witness :
  ∃ oid s1 d,
    write_tree Toy.digest (mkRepo ∅ ∅ (Some staged)) = (Ok oid, s1)
    ∧ read_tree oid s1 = (Ok tt, set_index_file (Some d) s1)
    ∧ NoDup (map fst d)
    ∧ ∀ path, Dict.get path d = Dict.get path staged.
Proof.
  apply (write_tree_then_read_tree Toy.digest (mkRepo ∅ ∅ (Some staged))
           [("a", Dir [("b", Blob Sample.f1); ("d", Dir [("e", Blob Sample.g1)])]);
            ("c", Blob Sample.f2)]).
  - exact toy_digest_inj.
  - exact toy_digest_plain.
  - exact staged_ok.
  - reflexivity.
  - unfold recursion_limit. simpl. lia.
Defined.

(** ** Objects in commits, and pushing them *)

Lemma gen_list_steps {G} (next : repo → G → result (option (string * G))) fuel s g l :
  gen_list next fuel s g = Ok l →
  ∃ ls, gen_steps next fuel s g = Ok ls ∧ map fst ls = l.
Proof.
  revert g l. induction fuel as [|fuel IH]; intros g l; [done|]. simpl.
  destruct (next s g) as [[[x g']|]|]; simpl; [| |done].
  - destruct (gen_list next fuel s g') as [l'|] eqn:E; [|done]. simpl. intros [= <-].
    destruct (IH _ _ E) as (ls & -> & <-). by exists ((x, g') :: ls).
  - intros [= <-]. by exists [].
Qed.

Lemma tree_loop_visited pending visited step :
  tree_loop pending visited = Ok step →
  match step with
  | TYield oid _ _ visited' => (oid ∉ visited) ∧ visited' = oid :: visited
  | TReturn visited' => visited' = visited
  end.
Proof.
  revert step. induction pending as [|frame outer IH]; intros step; simpl.
  { by intros [= <-]. }
  induction frame as [|entry frame IHf]; [by apply IH|].
  destruct (parse_entry entry) as [[[type_ oid] name]|]; [|done]. simpl.
  case_bool_decide as Hin; [by apply IHf|].
  by intros [= <-].
Qed.

Lemma next_commit_visited s commits visited x g :
  next_commit s commits visited = Ok (Some (x, g)) →
  yields_object g = false ∧ visited_of g = visited.
Proof.
  unfold next_commit. destruct (commits_next s commits) as [[[oid c']|]|]; simpl; [|done..].
  by intros [= <- <-].
Qed.

Lemma next_entry_visited s pending commits visited x g :
  next_entry s pending commits visited = Ok (Some (x, g)) →
  if yields_object g then (x ∉ visited) ∧ visited_of g = x :: visited
  else visited_of g = visited.
Proof.
  unfold next_entry. destruct (tree_loop pending visited) as [step|] eqn:E; [|done].
  apply tree_loop_visited in E. simpl.
  destruct step as [oid [] pending' visited'|visited'].
  - destruct E as [Hn ->]. by intros [= <- <-].
  - destruct E as [Hn ->]. by intros [= <- <-].
  - subst. intros H. apply next_commit_visited in H as [-> H]. done.
Qed.

(** One step of the generator: a tree or a blob is yielded only when it is
    not in [visited], and is then added to it; a commit leaves [visited] as
    it is. *)
Lemma objects_next_visited s g x g' :
  objects_next s g = Ok (Some (x, g')) →
  if yields_object g' then (x ∉ visited_of g) ∧ visited_of g' = x :: visited_of g
  else visited_of g' = visited_of g.
Proof.
  destruct g as [oids|oid commits visited|oid pending commits visited|pending commits visited];
    simpl.
  - intros H. apply next_commit_visited in H as [-> H]. done.
  - destruct (get_commit s oid) as [c|]; [|done]. simpl.
    case_bool_decide as Hin.
    + intros H. apply next_commit_visited in H as [-> H]. done.
    + by intros [= <- <-].
  - destruct (tree_lines s oid) as [lines|]; [|done]. simpl. apply next_entry_visited.
  - apply next_entry_visited.
Qed.

Lemma object_yields_fresh k s g l :
  gen_steps objects_next k s g = Ok l →
  NoDup (object_yields l) ∧ ∀ x, x ∈ object_yields l → x ∉ visited_of g.
Proof.
  revert g l. induction k as [|k IH]; intros g l; simpl.
  { intros [= <-]. split; [constructor|]. intros x Hx. by apply elem_of_nil in Hx. }
  destruct (objects_next s g) as [[[x g']|]|] eqn:E; simpl; [| |done].
  - destruct (gen_steps objects_next k s g') as [l'|] eqn:E'; [|done]. simpl. intros [= <-].
    destruct (IH _ _ E') as [Hnd Hfresh]. apply objects_next_visited in E.
    unfold object_yields. cbn [List.filter]. cbn [snd].
    destruct (yields_object g').
    + destruct E as [Hx Hv]. cbn [map fst]. split.
      * constructor; [|done]. intros Hin. apply (Hfresh x Hin). rewrite Hv. by left.
      * intros y [->|Hy]%elem_of_cons; [done|].
        intros Hin. apply (Hfresh y Hy). rewrite Hv. by right.
    + split; [done|]. intros y Hy. rewrite <- E. by apply Hfresh.
  - intros [= <-]. split; [constructor|]. intros x Hx. by apply elem_of_nil in Hx.
Qed.

(** [iter_objects_in_commits] yields no tree and no blob twice, however far
    it is run and whatever it is started with: only commits come again. *)
Theorem iter_objects_yields_object_once (k : nat) (s : repo) (oids : pyval)
  (l : list (string * objects_gen)) :
  gen_steps objects_next k s (OStart oids) = Ok l →
  NoDup (object_yields l).
Proof. intros H. by apply (object_yields_fresh k s (OStart oids)). Qed.

Lemma iter_objects_yields_object_once_witness :
  ∃ l, gen_steps objects_next 30 (Sample.at_commit Sample.B) (OStart (PySeq [Sample.D])) = Ok l
       ∧ map fst l = [Sample.D; Sample.tD; Sample.f2; Sample.g1; Sample.B; Sample.tB;
                      Sample.A; Sample.tA; Sample.f1; Sample.C; Sample.tC; Sample.A]
       ∧ NoDup (object_yields l).
Proof.
  eexists. split; [vm_compute; reflexivity|]. split; [reflexivity|].
  eapply (iter_objects_yields_object_once 30 (Sample.at_commit Sample.B) (PySeq [Sample.D])).
  vm_compute. reflexivity.
Defined.

Lemma push_objects_returns oids local remote :
  (∀ oid, oid ∈ oids → is_Some (objects local !! oid)) →
  ∃ remote', push_objects oids local remote = (Ok tt, remote').
Proof.
  revert remote. induction oids as [|oid oids IH]; intros remote Hall; simpl.
  - by eexists.
  - unfold bind, push_object. destruct (Hall oid) as [obj ->]; [by left|].
    apply IH. intros oid' Hin. apply Hall. by right.
Qed.

(** Into a remote on which no ref has a value, as one that [init] has just
    made, [push] goes through: when the local ref has a value and every
    object that the traversal from it yields is in the local store, [push]
    copies exactly those objects and sets the ref on the remote, leaving the
    other refs and objects of the remote as they were. *)
Theorem push_to_remote_without_refs (fuel : nat) (local : repo) (refname : string)
  (remote : repo) (r : RefValue) (local_ref N : string) (local_objects : list string) :
  _get_remote_refs remote "" = Ok [] →
  get_ref local refname true = Ok r →
  value r = Some local_ref →
  Str.truth local_ref = true →
  gen_list objects_next (S fuel) local (OStart (PySeq [local_ref])) = Ok local_objects →
  (∀ oid, oid ∈ local_objects → is_Some (objects local !! oid)) →
  get_ref_name remote refname true = Ok N →
  ∃ remote',
    push (S fuel) local refname remote = (Ok tt, remote')
    ∧ (∀ oid, objects remote' !! oid
              = if decide (oid ∈ local_objects) then objects local !! oid
                else objects remote !! oid)
    ∧ refs remote' = <[N := local_ref]> (refs remote)
    ∧ index_file remote' = index_file remote.
Proof.
  intros Hrefs Hr Hv Ht Hl Hall HN.
  destruct (push_objects_returns (list_difference (remove_dups local_objects) []) local remote)
    as [remote1 Hp].
  { intros oid [Hin _]%list_elem_of_difference. apply Hall. by apply elem_of_remove_dups. }
  pose proof (push_objects_ok _ _ _ _ Hp) as (Hobj & Hr1 & Hi1).
  exists (set_refs <[N := local_ref]> remote1). split; [|split; [|split]].
  - unfold push. unfold bind at 1, reading at 1. rewrite Hrefs.
    unfold bind at 1, reading at 1. rewrite Hr. cbn [rbind]. rewrite Hv.
    change (default "" (Some local_ref)) with local_ref.
    cbn [truthy]. rewrite Ht. cbn [negb].
    unfold bind at 1, reading at 1. cbn [negb].
    unfold bind at 1, reading at 1.
    change (gen_list objects_next (S fuel) local
              (OStart (PySeq (List.filter (object_exists local) (Dict.values [])))))
      with (@Ok (list string) []).
    cbv beta iota.
    unfold bind at 1, reading at 1. rewrite Hl.
    unfold bind at 1. rewrite Hp.
    unfold update_ref, bind, reading.
    rewrite (get_ref_name_ext remote1 remote), HN by done.
    cbn [truthy value symbolic]. by rewrite Ht.
  - intros oid. cbn [objects set_refs]. rewrite Hobj. apply decide_ext.
    rewrite list_elem_of_difference, elem_of_remove_dups.
    split; [by intros [? _]|]. intros H. split; [done|]. apply not_elem_of_nil.
  - cbn [refs set_refs]. by rewrite Hr1.
  - exact Hi1.
Qed.

Lemma push_to_remote_without_refs_witness :
  ∃ remote',
    push 30 (Sample.at_commit Sample.B) "refs/heads/master" init.2 = (Ok tt, remote')
    ∧ (∀ oid, objects remote' !! oid
              = if decide (oid ∈ [Sample.B; Sample.tB; Sample.f2; Sample.A; Sample.tA; Sample.f1])
                then objects (Sample.at_commit Sample.B) !! oid
                else objects init.2 !! oid)
    ∧ refs remote' = <["refs/heads/master" := Sample.B]> (refs init.2)
    ∧ index_file remote' = index_file init.2.
Proof.
  apply (push_to_remote_without_refs 29 (Sample.at_commit Sample.B) "refs/heads/master" init.2
           (mkRef false (Some Sample.B)) Sample.B); try reflexivity.
  intros oid Hin.
  repeat (apply elem_of_cons in Hin as [->|Hin]; [by eexists|]).
  by apply elem_of_nil in Hin.
Defined.

(** ** Reading a commit without a tree *)

(** A commit object without a [tree] line cannot be read: the header loop
    ends with [tree] unbound, and building the result raises
    [UnboundLocalError], whatever parents and message the object has. *)
Theorem get_commit_without_tree (s : repo) (oid : string) (parents : list string)
  (msg : string) :
  objects s !! oid
  = Some ("commit" +:+ String Str.NUL
            (String.concat "" (map (λ p, ("parent " +:+ p) +:+ Str.nl) parents)
             +:+ Str.nl +:+ msg)) →
  Forall no_linebreak parents →
  get_commit s oid = Raise UnboundLocalError.
Proof.
  intros Hobj Hp. unfold get_commit, get_object. rewrite Hobj.
  change (Str.partition Str.NUL ("commit" +:+ String Str.NUL ?x)) with ("commit", x).
  cbn [rbind String.eqb Ascii.eqb Bool.eqb].
  rewrite splitlines_parents by done.
  change (Str.nl +:+ msg) with ("" +:+ Str.nl +:+ msg).
  rewrite splitlines_line by done.
  by rewrite (parse_header_parents parents (Str.splitlines msg) None []).
Qed.

Lemma get_commit_without_tree_witness :
  get_commit
    (mkRepo {[ Sample.E := "commit" +:+ String Str.NUL
                             (String.concat "" (map (λ p, ("parent " +:+ p) +:+ Str.nl) [Sample.B])
                              +:+ Str.nl +:+ "E") ]} ∅ None)
    Sample.E
  = Raise UnboundLocalError.
Proof.
  apply (get_commit_without_tree _ Sample.E [Sample.B] "E"); [reflexivity|].
  by repeat constructor.
Defined.
